(** * Keyframe tracks of the splat editor: a shallow embedding

    The development follows [splat-anim-track.ts], [camera-poses.ts] and
    [anim-track.ts]: the two keyframe tracks (transform keys of a splat,
    poses of the camera), their rebuild / evaluate cycle, the resolver that
    picks the track the timeline drives, and the pose (de)serialisation.

    Conventions of the embedding
    - frame numbers and the timeline duration are integers ([Z]); the frame
      passed to [evaluate] and the numbers the code only stores, copies and
      compares are rationals ([Q]); where the code computes with numbers
      (the interpolation factor, the pixels of the timeline) the arithmetic
      is that of IEEE doubles ([Number], [Double]);
    - a JS array is a [list]; [a[i]], [a[i] = v] and [a.splice(i, 1)] are
      stdpp's [a !! i], [<[i:=v]> a] and [delete i a]; reading past the end
      yields [None] (JS [undefined]);
    - [findIndex] returns [None] where JS returns [-1];
    - an operation returns an [Outcome]: the state it leaves, the events it
      fired (in order) and the exception that interrupted it, if any. *)

From Stdlib Require Import ZArith QArith Qround Qabs Qpower Lia Lqa.
From stdpp Require Import base list strings pretty sorting.

Close Scope Q_scope.
Open Scope Z_scope.

(** ** Numbers, vectors and quaternions *)

Record Vec3 := mkVec3 { vx : Q; vy : Q; vz : Q }.
Record Quat := mkQuat { qx : Q; qy : Q; qz : Q; qw : Q }.

Definition Qltb (a b : Q) : bool :=
  match (a ?= b)%Q with Lt => true | _ => false end.

(** ** JS numbers where the code computes with them

    A JS number is an IEEE 754 double: a rational [m * 2^e] with
    [|m| < 2^53] and [-1074 <= e <= 971], an infinity, or NaN. Every
    arithmetic operation answers the double nearest to the exact result,
    ties going to the even mantissa. Zeros carry no sign here: the only
    zeros the code divides by are results of a subtraction, which are
    [+0]. *)
Inductive Number :=
| Num (q : Q)
| Infinity
| NegInfinity
| NaN.

Module Double.
(** [floor (log2 (n / d))]. *)
Definition ilog2 (n d : positive) : Z :=
  let k := Z.log2 (Zpos n) - Z.log2 (Zpos d) in
  if (if 0 <=? k then Zpos d * 2 ^ k <=? Zpos n
      else Zpos d <=? Zpos n * 2 ^ (- k))
  then k else k - 1.

(** The integer nearest to [N / D], ties to even ([0 <= N], [0 < D]). *)
Definition rne (N D : Z) : Z :=
  let fl := N / D in
  match 2 * (N mod D) ?= D with
  | Lt => fl
  | Gt => fl + 1
  | Eq => if Z.even fl then fl else fl + 1
  end.

Definition overflow : Z := 2 ^ 1024.

(** The double nearest to [n / d]: 53 bits of mantissa at the exponent
    of the value, no exponent below that of the subnormals, infinity from
    [2^1024] on. *)
Definition round_pos (n d : positive) : Number :=
  let e := Z.max (ilog2 n d - 52) (-1074) in
  if 0 <=? e then
    let m := rne (Zpos n) (Zpos d * 2 ^ e) in
    if overflow <=? m * 2 ^ e then Infinity else Num (inject_Z (m * 2 ^ e))
  else
    let m := rne (Zpos n * 2 ^ (- e)) (Zpos d) in
    Num (Qred (m # Z.to_pos (2 ^ (- e)))).

Definition opp (x : Number) : Number :=
  match x with
  | Num q => Num (- q)
  | Infinity => NegInfinity
  | NegInfinity => Infinity
  | NaN => NaN
  end.

(** Rounding of an exact result to a double. *)
Definition round (q : Q) : Number :=
  match Qred q with
  | Qmake 0 _ => Num 0
  | Qmake (Zpos n) d => round_pos n d
  | Qmake (Zneg n) d => opp (round_pos n d)
  end.

(** [x + y]. *)
Definition add (x y : Number) : Number :=
  match x, y with
  | NaN, _ | _, NaN => NaN
  | Infinity, NegInfinity | NegInfinity, Infinity => NaN
  | Infinity, _ | _, Infinity => Infinity
  | NegInfinity, _ | _, NegInfinity => NegInfinity
  | Num a, Num b => round (a + b)
  end.

(** [x - y]. *)
Definition sub (x y : Number) : Number := add x (opp y).

(** [x * y]. *)
Definition mul (x y : Number) : Number :=
  let scaled (positive_infinity : bool) (b : Q) :=
    match (b ?= 0)%Q with
    | Eq => NaN
    | Gt => if positive_infinity then Infinity else NegInfinity
    | Lt => if positive_infinity then NegInfinity else Infinity
    end in
  match x, y with
  | NaN, _ | _, NaN => NaN
  | Infinity, Infinity | NegInfinity, NegInfinity => Infinity
  | Infinity, NegInfinity | NegInfinity, Infinity => NegInfinity
  | Infinity, Num b | Num b, Infinity => scaled true b
  | NegInfinity, Num b | Num b, NegInfinity => scaled false b
  | Num a, Num b => round (a * b)
  end.

(** [x / y]: a zero divides a non-zero number into an infinity and a zero
    into NaN. *)
Definition div (x y : Number) : Number :=
  match x, y with
  | NaN, _ | _, NaN => NaN
  | (Infinity | NegInfinity), (Infinity | NegInfinity) => NaN
  | Infinity, Num b => if Qltb b 0 then NegInfinity else Infinity
  | NegInfinity, Num b => if Qltb b 0 then Infinity else NegInfinity
  | Num a, (Infinity | NegInfinity) => Num 0
  | Num a, Num b =>
      match (b ?= 0)%Q with
      | Eq =>
          match (a ?= 0)%Q with
          | Eq => NaN
          | Gt => Infinity
          | Lt => NegInfinity
          end
      | _ => round (a / b)
      end
  end.

(** [Math.floor]. *)
Definition floor (x : Number) : Number :=
  match x with
  | Num q => Num (inject_Z (Qfloor q))
  | _ => x
  end.

(** [Math.min] of two numbers: NaN when either is. *)
Definition min (x y : Number) : Number :=
  match x, y with
  | NaN, _ | _, NaN => NaN
  | NegInfinity, _ | _, NegInfinity => NegInfinity
  | Infinity, z | z, Infinity => z
  | Num a, Num b => if Qle_bool a b then x else y
  end.

(** [Math.max] of two numbers: NaN when either is. *)
Definition max (x y : Number) : Number :=
  match x, y with
  | NaN, _ | _, NaN => NaN
  | Infinity, _ | _, Infinity => Infinity
  | NegInfinity, z | z, NegInfinity => z
  | Num a, Num b => if Qle_bool a b then y else x
  end.

(** At or above zero, infinity included; at or below zero. *)
Definition nonneg (x : Number) : Prop :=
  match x with
  | Num r => (0 <= r)%Q
  | Infinity => True
  | _ => False
  end.

Definition nonpos (x : Number) : Prop :=
  match x with
  | Num r => (r <= 0)%Q
  | NegInfinity => True
  | _ => False
  end.

(** [x <= y], false when either is NaN. *)
Definition le (x y : Number) : Prop :=
  match x, y with
  | NaN, _ | _, NaN => False
  | NegInfinity, _ | _, Infinity => True
  | Num a, Num b => (a <= b)%Q
  | _, _ => False
  end.

(** [q] is the value of a double. *)
Definition is_double (q : Q) : Prop :=
  exists r, round q = Num r /\ (r == q)%Q.

(** The mantissa [round_pos] gives [n / d] at the exponent [e]. *)
Definition mantissa (n d : positive) (e : Z) : Z :=
  if 0 <=? e then rne (Zpos n) (Zpos d * 2 ^ e)
  else rne (Zpos n * 2 ^ (- e)) (Zpos d).

(** The exponent [round_pos] gives [n / d]. *)
Definition exponent (n d : positive) : Z := Z.max (ilog2 n d - 52) (-1074).
End Double.

(** ** JS array helpers *)

Fixpoint findIndex_from {A} (p : A -> bool) (l : list A) (i : nat) : option nat :=
  match l with
  | [] => None
  | x :: l' => if p x then Some i else findIndex_from p l' (S i)
  end.

(** [Array.prototype.findIndex]: index of the first element satisfying [p]. *)
Definition findIndex {A} (p : A -> bool) (l : list A) : option nat :=
  findIndex_from p l 0%nat.

Fixpoint insert_sorted {A} (key : A -> Z) (x : A) (l : list A) : list A :=
  match l with
  | [] => [x]
  | y :: l' => if key x <=? key y then x :: y :: l'
               else y :: insert_sorted key x l'
  end.

(** [Array.prototype.sort((a, b) => key(a) - key(b))]: ascending and stable. *)
Fixpoint sort_by {A} (key : A -> Z) (l : list A) : list A :=
  match l with
  | [] => []
  | x :: l' => insert_sorted key x (sort_by key l')
  end.

(** An array handed to a method that empties the store before it reads its
    argument: the store's own array (what [getKeyframes] and [getPoses]
    return is the store itself, not a copy) or any other array. A list
    written where such an argument is expected stands for another array
    holding these elements. *)
Inductive Argument (A : Type) :=
| the_store
| an_array (elements : list A).
Arguments the_store {A}.
Arguments an_array {A} elements.
Coercion an_array : list >-> Argument.

(** What [forEach] visits in the argument when the store holds [store]. *)
Definition visited {A} (arg : Argument A) (store : list A) : list A :=
  match arg with
  | the_store => store
  | an_array elements => elements
  end.

(** ** Events and outcomes *)

Inductive Event :=
| track_keyAdded (frame : Z)
| track_keyUpdated (frame : Z)
| track_keyRemoved (frame : Z)
| track_keyMoved (fromFrame toFrame : Z)
| track_keysCleared
| track_keysLoaded (keys : list Z)
| track_keysChanged
| camera_setPose (position target : Vec3) (speed : Z).

(** The notifications about the structure of a keyframe store. *)
Definition structural (e : Event) : bool :=
  match e with
  | track_keyAdded _ | track_keyUpdated _ | track_keyRemoved _
  | track_keyMoved _ _ | track_keysCleared | track_keysLoaded _ => true
  | track_keysChanged | camera_setPose _ _ _ => false
  end.

Inductive JsError := TypeError.

Record Outcome (S : Type) := mkOutcome {
  after : S;
  fired : list Event;
  thrown : option JsError
}.
Arguments mkOutcome {S}.
Arguments after {S}.
Arguments fired {S}.
Arguments thrown {S}.

(** Normal completion, firing [evs]. *)
Definition done {S} (s : S) (evs : list Event) : Outcome S := mkOutcome s evs None.
(** Abrupt completion with an exception. *)
Definition throw {S} (s : S) (e : JsError) : Outcome S := mkOutcome s [] (Some e).

(** Run [k] after [o] unless [o] threw. *)
Definition and_then {S} (o : Outcome S) (k : S -> Outcome S) : Outcome S :=
  match thrown o with
  | Some _ => o
  | None => let o' := k (after o) in
            mkOutcome (after o') (fired o ++ fired o') (thrown o')
  end.

(** ** What [events.invoke] answers

    [timeline.frames], [timeline.frame], [timeline.smoothness],
    [timeline.frameRate] and [camera.getPose]. *)

Record CameraPose := mkCameraPose { cp_position : Vec3; cp_target : Vec3 }.

Record Events := mkEvents {
  timeline_frames : Z;
  timeline_frame : Z;
  timeline_smoothness : Q;
  timeline_frameRate : Z;
  camera_getPose : option CameraPose
}.

(** ** The spline primitive *)

(** Modelled from the spec: [CubicSpline] of [anim/spline], whose code is not
    embedded here. The spec treats it as an opaque numeric primitive built
    from a loop period, ordered sample times, interleaved sample values and a
    smoothness. A spline is represented by the arguments it was built from;
    sampling it is a parameter of [evaluate] below. *)
Record CubicSpline := fromPointsLooping {
  spline_length : Z;
  spline_times : list Z;
  spline_points : list Q;
  spline_smoothness : Q
}.

(** ** The transform track ([splat-anim-track.ts]) *)

Module TransformKey.
Record t := mk {
  frame : Z;
  position : Vec3;
  rotation : Quat;
  scale : Vec3
}.

(** [key.frame = f], the record staying where it is. *)
Definition set_frame (f : Z) (k : t) : t :=
  mk f (position k) (rotation k) (scale k).
End TransformKey.

(** Modelled from the spec: the bound target of a transform track ([Splat] of
    [splat.ts], whose code is not embedded here), reduced to the state
    provider the spec describes: its entity answers [getLocalPosition],
    [getLocalRotation] and [getLocalScale]. *)
Record Splat := mkSplat {
  getLocalPosition : Vec3;
  getLocalRotation : Quat;
  getLocalScale : Vec3
}.

(** Modelled from the spec: [Splat.move] assigns the given position, rotation
    and scale to the bound target. *)
Definition Splat_move (position : Vec3) (rotation : Quat) (scale : Vec3)
    (_ : Splat) : Splat :=
  mkSplat position rotation scale.

Module SplatAnimTrack.
Import TransformKey.

(** What the [onTimelineChange] closure captures. *)
Record Closure := mkClosure {
  duration : Z;
  rotationKeys : list TransformKey.t
}.

Record t := mk {
  keyframes : list TransformKey.t;
  splat : Splat;
  positionSpline : option CubicSpline;
  scaleSpline : option CubicSpline;
  onTimelineChange : option Closure
}.

Definition new (splat : Splat) : t := mk [] splat None None None.

Definition set_keyframes (ks : list TransformKey.t) (this : t) : t :=
  mk ks (splat this) (positionSpline this) (scaleSpline this)
     (onTimelineChange this).

Definition set_splat (s : Splat) (this : t) : t :=
  mk (keyframes this) s (positionSpline this) (scaleSpline this)
     (onTimelineChange this).

Definition keys (this : t) : list Z := map frame (keyframes this).

Definition rebuildSplines (events : Events) (this : t) : t :=
  let duration := timeline_frames events in
  let smoothness := timeline_smoothness events in
  let orderedKeys :=
    sort_by frame (List.filter (fun k => frame k <? duration) (keyframes this)) in
  if (length orderedKeys <? 2)%nat then
    mk (keyframes this) (splat this) None None None
  else
    let times := map frame orderedKeys in
    let posPoints :=
      flat_map (fun key => [vx (position key); vy (position key); vz (position key)])
               orderedKeys in
    let scalePoints :=
      flat_map (fun key => [vx (scale key); vy (scale key); vz (scale key)])
               orderedKeys in
    mk (keyframes this) (splat this)
       (Some (fromPointsLooping duration times posPoints smoothness))
       (Some (fromPointsLooping duration times scalePoints smoothness))
       (Some (mkClosure duration orderedKeys)).

Definition addKey (events : Events) (frame : Z) (this : t) : Outcome t :=
  let entity := splat this in
  let position := getLocalPosition entity in
  let rotation := getLocalRotation entity in
  let scale := getLocalScale entity in
  let existingIndex :=
    findIndex (fun k => TransformKey.frame k =? frame) (keyframes this) in
  let newKey := TransformKey.mk frame position rotation scale in
  match existingIndex with
  | None =>
      done (rebuildSplines events
              (set_keyframes (keyframes this ++ [newKey]) this))
           [track_keyAdded frame]
  | Some existingIndex =>
      done (rebuildSplines events
              (set_keyframes (<[existingIndex := newKey]> (keyframes this)) this))
           [track_keyUpdated frame]
  end.

Definition removeKey (events : Events) (frame : Z) (this : t) : Outcome t :=
  match findIndex (fun k => TransformKey.frame k =? frame) (keyframes this) with
  | Some index =>
      done (rebuildSplines events
              (set_keyframes (delete index (keyframes this)) this))
           [track_keyRemoved frame]
  | None => done this []
  end.

Definition moveKey (events : Events) (fromFrame toFrame : Z) (this : t)
    : Outcome t :=
  if fromFrame =? toFrame then done this [] else
  match findIndex (fun k => frame k =? fromFrame) (keyframes this) with
  | None => done this []
  | Some index =>
      (* Remove any existing keyframe at the target frame *)
      let spliced :=
        match findIndex (fun k => frame k =? toFrame) (keyframes this) with
        | Some toIndex => delete toIndex (keyframes this)
        | None => keyframes this
        end in
      (* Update the frame: [this.keyframes[index].frame = toFrame] *)
      match spliced !! index with
      | None => throw (set_keyframes spliced this) TypeError
      | Some key =>
          done (rebuildSplines events
                  (set_keyframes (<[index := set_frame toFrame key]> spliced) this))
               [track_keyMoved fromFrame toFrame]
      end
  end.

Definition clear (this : t) : Outcome t :=
  done (mk [] (splat this) None None None) [track_keysCleared].

(** The elements of the array returned, which is the store itself. *)
Definition getKeyframes (this : t) : list TransformKey.t := keyframes this.

(** [this.keyframes.length = 0] comes first: the argument is read once the
    store is empty, so the store's own array has nothing left to visit. *)
Definition loadKeyframes (events : Events)
    (keyframesData : Argument TransformKey.t) (this : t) : Outcome t :=
  let emptied := set_keyframes [] this in
  let copied :=
    map (fun kf =>
           TransformKey.mk (frame kf)
             (mkVec3 (vx (position kf)) (vy (position kf)) (vz (position kf)))
             (mkQuat (qx (rotation kf)) (qy (rotation kf)) (qz (rotation kf))
                     (qw (rotation kf)))
             (mkVec3 (vx (scale kf)) (vy (scale kf)) (vz (scale kf))))
        (visited keyframesData (keyframes emptied)) in
  let this' :=
    rebuildSplines events
      (set_keyframes (keyframes emptied ++ copied) emptied) in
  done this' [track_keysLoaded (keys this')].

Section Evaluate.
(** [spline.evaluate(frame, result)]: the number left in [result[i]]. *)
Variable CubicSpline_evaluate : CubicSpline -> Q -> nat -> Q.
(** [Quat.slerp] of the engine, given the factor the closure computed. *)
Variable Quat_slerp : Quat -> Quat -> Number -> Quat.

(** The [for] loop of the bracket search, entered at index [i] with
    [rest] the keys from [i] on. *)
Fixpoint bracket_loop (rotationKeys : list TransformKey.t) (frame : Q)
    (i : nat) (rest : list TransformKey.t)
    (prevKey nextKey : option TransformKey.t)
    : option TransformKey.t * option TransformKey.t :=
  match rest with
  | [] => (prevKey, nextKey)
  | key :: rest' =>
      if Qltb frame (inject_Z (TransformKey.frame key)) then
        (rotationKeys !! (if (0 <? i)%nat then (i - 1)%nat
                          else (length rotationKeys - 1)%nat),
         Some key)
      else if (i =? length rotationKeys - 1)%nat then
        bracket_loop rotationKeys frame (S i) rest' (Some key) (rotationKeys !! 0%nat)
      else
        bracket_loop rotationKeys frame (S i) rest' prevKey nextKey
  end.

Definition bracket (rotationKeys : list TransformKey.t) (frame : Q)
    : option TransformKey.t * option TransformKey.t :=
  bracket_loop rotationKeys frame 0%nat rotationKeys
    (rotationKeys !! (length rotationKeys - 1)%nat) (rotationKeys !! 0%nat).

(** The interpolation factor, computed in doubles and clamped by
    [Math.max(0, Math.min(1, t))]. A zero span (keys a whole duration
    apart, which needs a negative frame) divides into an infinity or into
    NaN, and the clamp keeps NaN. *)
Definition factor (duration : Z) (prevKey nextKey : TransformKey.t)
    (frame : Q) : Number :=
  let prevFrame := inject_Z (TransformKey.frame prevKey) in
  let nextFrame := inject_Z (TransformKey.frame nextKey) in
  let nextFrame :=
    if Qle_bool nextFrame prevFrame
    then Double.add (Num nextFrame) (Num (inject_Z duration))
    else Num nextFrame in
  let t :=
    if Qltb frame prevFrame then
      Double.div
        (Double.sub (Double.add (Num frame) (Num (inject_Z duration)))
                    (Num prevFrame))
        (Double.sub nextFrame (Num prevFrame))
    else
      Double.div (Double.sub (Num frame) (Num prevFrame))
                 (Double.sub nextFrame (Num prevFrame)) in
  Double.max (Num 0) (Double.min (Num 1) t).

(** The body of the closure installed by [rebuildSplines]. *)
Definition onTimelineChange_call (c : Closure) (frame : Q) (this : t)
    : Outcome t :=
  match positionSpline this, scaleSpline this with
  | Some positionSpline, Some scaleSpline =>
      let position :=
        mkVec3 (CubicSpline_evaluate positionSpline frame 0%nat)
               (CubicSpline_evaluate positionSpline frame 1%nat)
               (CubicSpline_evaluate positionSpline frame 2%nat) in
      let scale :=
        mkVec3 (CubicSpline_evaluate scaleSpline frame 0%nat)
               (CubicSpline_evaluate scaleSpline frame 1%nat)
               (CubicSpline_evaluate scaleSpline frame 2%nat) in
      match bracket (rotationKeys c) frame with
      | (Some prevKey, Some nextKey) =>
          let t := factor (duration c) prevKey nextKey frame in
          let rotation :=
            Quat_slerp (TransformKey.rotation prevKey)
                       (TransformKey.rotation nextKey) t in
          done (set_splat (Splat_move position rotation scale (splat this)) this) []
      | _ => throw this TypeError
      end
  | _, _ => throw this TypeError
  end.

Definition evaluate (frame : Q) (this : t) : Outcome t :=
  match onTimelineChange this with
  | Some c => onTimelineChange_call c frame this
  | None => done this []
  end.
End Evaluate.
End SplatAnimTrack.

(** ** The pose track ([camera-poses.ts]) *)

Module Pose.
Record t := mk {
  name : string;
  frame : Z;
  position : Vec3;
  target : Vec3
}.

Definition set_frame (f : Z) (p : t) : t :=
  mk (name p) f (position p) (target p).
End Pose.

(** A pose object as [addPose] may receive it: [frame] can be [undefined]. *)
Record PoseLike := mkPoseLike {
  like_name : string;
  like_frame : option Z;
  like_position : Vec3;
  like_target : Vec3
}.

Module CameraAnimTrack.
Import Pose.

(** What the [onTimelineChange] closure captures. *)
Record Closure := mkClosure { spline : CubicSpline }.

Record t := mk {
  poses : list Pose.t;
  onTimelineChange : option Closure
}.

Definition new : t := mk [] None.

Definition keys (this : t) : list Z := map frame (poses this).

Definition rebuildSpline (events : Events) (this : t) : t :=
  let duration := timeline_frames events in
  let orderedPoses :=
    sort_by frame (List.filter (fun a => frame a <? duration) (poses this)) in
  let times := map frame orderedPoses in
  let points :=
    flat_map (fun p => [vx (position p); vy (position p); vz (position p);
                        vx (target p); vy (target p); vz (target p)])
             orderedPoses in
  if (1 <? length orderedPoses)%nat then
    let spline :=
      fromPointsLooping duration times points (timeline_smoothness events) in
    mk (poses this) (Some (mkClosure spline))
  else
    mk (poses this) None.

Definition addKey (events : Events) (frame : Z) (this : t) : Outcome t :=
  match camera_getPose events with
  | None => done this []
  | Some pose =>
      let existingIndex :=
        findIndex (fun p => Pose.frame p =? frame) (poses this) in
      let newPose :=
        Pose.mk ("camera_" +:+ pretty (length (poses this))) frame
          (mkVec3 (vx (cp_position pose)) (vy (cp_position pose))
                  (vz (cp_position pose)))
          (mkVec3 (vx (cp_target pose)) (vy (cp_target pose))
                  (vz (cp_target pose))) in
      match existingIndex with
      | None =>
          done (rebuildSpline events (mk (poses this ++ [newPose])
                                         (onTimelineChange this)))
               [track_keyAdded frame]
      | Some existingIndex =>
          done (rebuildSpline events
                  (mk (<[existingIndex := newPose]> (poses this))
                      (onTimelineChange this)))
               [track_keyUpdated frame]
      end
  end.

Definition removeKey (events : Events) (frame : Z) (this : t) : Outcome t :=
  match findIndex (fun p => Pose.frame p =? frame) (poses this) with
  | Some index =>
      done (rebuildSpline events
              (mk (delete index (poses this)) (onTimelineChange this)))
           [track_keyRemoved frame]
  | None => done this []
  end.

Definition moveKey (events : Events) (fromFrame toFrame : Z) (this : t)
    : Outcome t :=
  if fromFrame =? toFrame then done this [] else
  match findIndex (fun p => frame p =? fromFrame) (poses this) with
  | None => done this []
  | Some index =>
      (* Remove any existing pose at the target frame *)
      let spliced :=
        match findIndex (fun p => frame p =? toFrame) (poses this) with
        | Some toIndex => delete toIndex (poses this)
        | None => poses this
        end in
      (* Update the frame: [this.poses[index].frame = toFrame] *)
      match spliced !! index with
      | None => throw (mk spliced (onTimelineChange this)) TypeError
      | Some pose =>
          done (rebuildSpline events
                  (mk (<[index := set_frame toFrame pose]> spliced)
                      (onTimelineChange this)))
               [track_keyMoved fromFrame toFrame]
      end
  end.

Definition clear (this : t) : Outcome t :=
  done (mk [] None) [track_keysCleared].

Definition addPose (events : Events) (pose : PoseLike) (this : t) : Outcome t :=
  match like_frame pose with
  | None => done this []
  | Some f =>
      let stored := Pose.mk (like_name pose) f (like_position pose)
                            (like_target pose) in
      let poses' :=
        match findIndex (fun p => Pose.frame p =? f) (poses this) with
        | Some idx => <[idx := stored]> (poses this)
        | None => poses this ++ [stored]
        end in
      done (rebuildSpline events (mk poses' (onTimelineChange this))) []
  end.

(** The elements of the array returned, which is the store itself. *)
Definition getPoses (this : t) : list Pose.t := poses this.

(** [this.poses.length = 0] comes first: the argument is read once the
    store is empty, so the store's own array has nothing left to visit. *)
Definition loadPoses (events : Events) (posesData : Argument Pose.t) (this : t)
    : Outcome t :=
  let emptied := mk [] (onTimelineChange this) in
  let pushed :=
    mk (poses emptied ++ visited posesData (poses emptied))
       (onTimelineChange emptied) in
  let this' := rebuildSpline events pushed in
  done this' [track_keysLoaded (keys this')].

Section Evaluate.
(** [spline.evaluate(frame, result)]: the number left in [result[i]]. *)
Variable CubicSpline_evaluate : CubicSpline -> Q -> nat -> Q.

(** The body of the closure installed by [rebuildSpline]. *)
Definition onTimelineChange_call (c : Closure) (frame : Q) (this : t)
    : Outcome t :=
  let result := CubicSpline_evaluate (spline c) frame in
  let position := mkVec3 (result 0%nat) (result 1%nat) (result 2%nat) in
  let target := mkVec3 (result 3%nat) (result 4%nat) (result 5%nat) in
  done this [camera_setPose position target 0].

Definition evaluate (frame : Q) (this : t) : Outcome t :=
  match onTimelineChange this with
  | Some c => onTimelineChange_call c frame this
  | None => done this []
  end.
End Evaluate.
End CameraAnimTrack.

(** ** [registerCameraPosesEvents]: the singleton pose track and its handlers *)

(** A record of the persisted pose list; [doc_frame] is absent in legacy
    documents. The three-element arrays are triples. *)
Record DocPose := mkDocPose {
  doc_name : string;
  doc_frame : option Z;
  doc_position : Q * Q * Q;
  doc_target : Q * Q * Q
}.

Record PoseSet := mkPoseSet {
  set_name : string;
  set_poses : list DocPose
}.

Definition pack3 (v : Vec3) : Q * Q * Q := (vx v, vy v, vz v).

(** [new Vec3(array)] of the engine, for an array of three numbers. *)
Definition Vec3_of_array (a : Q * Q * Q) : Vec3 :=
  let '(x, y, z) := a in mkVec3 x y z.

Module CameraPosesEvents.
Import CameraAnimTrack.

Definition on_camera_addPose (events : Events) (pose : PoseLike) (track : t)
    : Outcome t :=
  addPose events pose track.

Definition on_scene_clear (track : t) : Outcome t := clear track.

Definition docSerialize_poseSets (track : t) : list PoseSet :=
  let poses := getPoses track in
  if (length poses =? 0)%nat then []
  else
    [mkPoseSet "set0"
       (map (fun pose =>
               mkDocPose (Pose.name pose) (Some (Pose.frame pose))
                         (pack3 (Pose.position pose)) (pack3 (Pose.target pose)))
            poses)].

Definition docDeserialize_poseSets (events : Events) (poseSets : list PoseSet)
    (track : t) : Outcome t :=
  match poseSets with
  | [] => done track []
  | poseSet0 :: _ =>
      let fps := timeline_frameRate events in
      let loadedPoses :=
        imap (fun index docPose =>
                Pose.mk (doc_name docPose)
                        (default (Z.of_nat index * fps) (doc_frame docPose))
                        (Vec3_of_array (doc_position docPose))
                        (Vec3_of_array (doc_target docPose)))
             (set_poses poseSet0) in
      loadPoses events loadedPoses track
  end.

Section Evaluate.
Variable CubicSpline_evaluate : CubicSpline -> Q -> nat -> Q.

Definition on_timeline_time (time : Q) (track : t) : Outcome t :=
  evaluate CubicSpline_evaluate time track.

Definition on_timeline_frame (frame : Z) (track : t) : Outcome t :=
  evaluate CubicSpline_evaluate (inject_Z frame) track.

(** Handler of [timeline.frames], run once the duration has changed;
    [events] answers with the new duration. *)
Definition on_timeline_frames (events : Events) (track : t) : Outcome t :=
  and_then
    (evaluate CubicSpline_evaluate (inject_Z (timeline_frame events)) track)
    (fun track => done track [track_keysChanged]).

(** Handler of [timeline.smoothness], run once the smoothness has changed. *)
Definition on_timeline_smoothness (events : Events) (track : t) : Outcome t :=
  evaluate CubicSpline_evaluate (inject_Z (timeline_frame events)) track.
End Evaluate.
End CameraPosesEvents.

(** ** The resolver and the dispatched operations ([anim-track.ts]) *)

Inductive ElementType :=
| ElementType_camera
| ElementType_splat
| ElementType_other.

Definition ElementType_eqb (a b : ElementType) : bool :=
  match a, b with
  | ElementType_camera, ElementType_camera
  | ElementType_splat, ElementType_splat
  | ElementType_other, ElementType_other => true
  | _, _ => false
  end.

(** The selected element, as far as the resolver looks at it. [animTrack] is
    [None] for an object without that property, [Some None] for a property
    holding [null]. *)
Record Selectable := mkSelectable {
  type : ElementType;
  animTrack : option (option SplatAnimTrack.t)
}.

(** The two implementations of the [AnimTrack] interface. *)
Inductive AnimTrack :=
| CameraTrack (track : CameraAnimTrack.t)
| SplatTrack (track : SplatAnimTrack.t).

Module AnimTrackOps.
Definition keys (track : AnimTrack) : list Z :=
  match track with
  | CameraTrack t => CameraAnimTrack.keys t
  | SplatTrack t => SplatAnimTrack.keys t
  end.

Definition lift {A B} (f : A -> B) (o : Outcome A) : Outcome B :=
  mkOutcome (f (after o)) (fired o) (thrown o).

Definition addKey (events : Events) (frame : Z) (track : AnimTrack)
    : Outcome AnimTrack :=
  match track with
  | CameraTrack t => lift CameraTrack (CameraAnimTrack.addKey events frame t)
  | SplatTrack t => lift SplatTrack (SplatAnimTrack.addKey events frame t)
  end.

Definition removeKey (events : Events) (frame : Z) (track : AnimTrack)
    : Outcome AnimTrack :=
  match track with
  | CameraTrack t => lift CameraTrack (CameraAnimTrack.removeKey events frame t)
  | SplatTrack t => lift SplatTrack (SplatAnimTrack.removeKey events frame t)
  end.

Definition moveKey (events : Events) (fromFrame toFrame : Z) (track : AnimTrack)
    : Outcome AnimTrack :=
  match track with
  | CameraTrack t =>
      lift CameraTrack (CameraAnimTrack.moveKey events fromFrame toFrame t)
  | SplatTrack t =>
      lift SplatTrack (SplatAnimTrack.moveKey events fromFrame toFrame t)
  end.
End AnimTrackOps.

(** The state the registered handlers close over: the answers of
    [events.invoke], the current selection and the singleton pose track. *)
Record World := mkWorld {
  events : Events;
  selection : option Selectable;
  camera_animTrack : CameraAnimTrack.t
}.

Module AnimTrackEvents.
(** [selection.isCamera] of [selection.ts]. *)
Definition selection_isCamera (w : World) : bool :=
  match selection w with
  | Some s => ElementType_eqb (type s) ElementType_camera
  | None => false
  end.

Definition isAnimatable (obj : Selectable) : bool :=
  match animTrack obj with
  | Some (Some _) => true
  | _ => false
  end.

Definition getActiveTrack (w : World) : option AnimTrack :=
  if selection_isCamera w then Some (CameraTrack (camera_animTrack w))
  else
    match selection w with
    | Some sel =>
        if isAnimatable sel then
          match animTrack sel with
          | Some (Some t) => Some (SplatTrack t)
          | _ => None
          end
        else None
    | None => None
    end.

(** Tracks are objects: what an operation did to the resolved track is
    seen where the track lives. *)
Definition store_track (track : AnimTrack) (w : World) : World :=
  match track with
  | CameraTrack t => mkWorld (events w) (selection w) t
  | SplatTrack t =>
      mkWorld (events w)
              (match selection w with
               | Some sel => Some (mkSelectable (type sel) (Some (Some t)))
               | None => None
               end)
              (camera_animTrack w)
  end.

Definition track_keys (w : World) : list Z :=
  match getActiveTrack w with
  | Some track => AnimTrackOps.keys track
  | None => []
  end.

Definition on_track_addKey (frame : option Z) (w : World) : Outcome World :=
  match getActiveTrack w with
  | Some track =>
      let keyFrame := default (timeline_frame (events w)) frame in
      AnimTrackOps.lift (fun t => store_track t w)
        (AnimTrackOps.addKey (events w) keyFrame track)
  | None => done w []
  end.

Definition on_track_removeKey (frame : option Z) (w : World) : Outcome World :=
  match getActiveTrack w with
  | Some track =>
      let keyFrame := default (timeline_frame (events w)) frame in
      AnimTrackOps.lift (fun t => store_track t w)
        (AnimTrackOps.removeKey (events w) keyFrame track)
  | None => done w []
  end.

Definition on_track_moveKey (fromFrame toFrame : Z) (w : World) : Outcome World :=
  match getActiveTrack w with
  | Some track =>
      AnimTrackOps.lift (fun t => store_track t w)
        (AnimTrackOps.moveKey (events w) fromFrame toFrame track)
  | None => done w []
  end.
End AnimTrackEvents.

(** ** Notions used in the statements *)

(** The array once [moveKey] has spliced the occupant of [toFrame] out. *)
Definition spliced_at {A} (key : A -> Z) (toFrame : Z) (l : list A) : list A :=
  match findIndex (fun y => key y =? toFrame) l with
  | Some toIndex => delete toIndex l
  | None => l
  end.

(** A keyframe store holds at most one record per frame. *)
Definition unique_frames (frames : list Z) : Prop := NoDup frames.

(** How many records of a store sit on frame [f]. *)
Definition count_at (f : Z) (frames : list Z) : nat :=
  length (List.filter (fun g => g =? f) frames).

(** ** Reachable track states *)

Module Reachable.
(** States of a transform track built by its operations. Loading is
    restricted to data with pairwise distinct frames; [retarget] covers
    every assignment to the bound target, by [evaluate] or from outside. *)
Inductive splat : SplatAnimTrack.t -> Prop :=
| splat_new s : splat (SplatAnimTrack.new s)
| splat_retarget s t :
    splat t -> splat (SplatAnimTrack.set_splat s t)
| splat_addKey ev f t :
    splat t -> splat (after (SplatAnimTrack.addKey ev f t))
| splat_removeKey ev f t :
    splat t -> splat (after (SplatAnimTrack.removeKey ev f t))
| splat_moveKey ev a b t :
    splat t -> splat (after (SplatAnimTrack.moveKey ev a b t))
| splat_clear t :
    splat t -> splat (after (SplatAnimTrack.clear t))
| splat_loadKeyframes ev data t :
    splat t -> NoDup (map TransformKey.frame data) ->
    splat (after (SplatAnimTrack.loadKeyframes ev data t)).

(** States of the pose track built by its operations, loading restricted
    in the same way. *)
Inductive camera : CameraAnimTrack.t -> Prop :=
| camera_new : camera CameraAnimTrack.new
| camera_addKey ev f t :
    camera t -> camera (after (CameraAnimTrack.addKey ev f t))
| camera_removeKey ev f t :
    camera t -> camera (after (CameraAnimTrack.removeKey ev f t))
| camera_moveKey ev a b t :
    camera t -> camera (after (CameraAnimTrack.moveKey ev a b t))
| camera_clear t :
    camera t -> camera (after (CameraAnimTrack.clear t))
| camera_addPose ev pose t :
    camera t -> camera (after (CameraAnimTrack.addPose ev pose t))
| camera_loadPoses ev data t :
    camera t -> NoDup (map Pose.frame data) ->
    camera (after (CameraAnimTrack.loadPoses ev data t)).
End Reachable.

(** Successive [evaluate] calls, one per frame of [frames]. *)
Definition evaluate_each {S} (evaluate : Q -> S -> Outcome S)
    (frames : list Q) (this : S) : Outcome S :=
  fold_left (fun o frame => and_then o (evaluate frame)) frames (done this []).

(** ** Sample data *)

Module Sample.
Definition origin : Vec3 := mkVec3 0 0 0.
Definition ones : Vec3 := mkVec3 1 1 1.
Definition east : Vec3 := mkVec3 1 0 0.
Definition north : Vec3 := mkVec3 0 0 (-1 # 1).
Definition identity : Quat := mkQuat 0 0 0 1.
Definition half_turn : Quat := mkQuat 0 1 0 0.
Definition quarter : Quat := mkQuat 0 (3 # 5) 0 (4 # 5).

(** A timeline of [frames] frames, cursor on frame 0, camera available. *)
Definition timeline (frames : Z) : Events :=
  mkEvents frames 0 (1 # 2) 30 (Some (mkCameraPose east origin)).

(** The same timeline while [camera.getPose] yields nothing. *)
Definition blind (frames : Z) : Events :=
  mkEvents frames 0 (1 # 2) 30 None.

Definition splat : Splat := mkSplat origin identity ones.

Definition key (f : Z) (r : Quat) : TransformKey.t :=
  TransformKey.mk f origin r ones.

Definition pose (n : string) (f : Z) (p : Vec3) : Pose.t :=
  Pose.mk n f p origin.

Definition transform_track (ks : list TransformKey.t) : SplatAnimTrack.t :=
  SplatAnimTrack.mk ks splat None None None.

Definition pose_track (ps : list Pose.t) : CameraAnimTrack.t :=
  CameraAnimTrack.mk ps None.

(** A rotation next to [identity]: a unit quaternion whose half angle has
    a sine of about 0.0005. *)
Definition nearby : Quat := mkQuat 0 0 (8192 # 16777217) (16777215 # 16777217).

(** A stand-in for the engine's slerp that meets its end points. *)
Definition nearest (a b : Quat) (t : Number) : Quat :=
  match t with
  | Num q => if Qle_bool q (1 # 2) then a else b
  | _ => a
  end.

(** A stand-in for the engine's slerp that does what the engine does where
    it takes no sine: for parallel rotations it answers the first one and
    for nearly parallel ones (the sine of their half angle below 0.001)
    their mean, whatever the factor. Elsewhere it is [nearest]. *)
Definition mean_when_close (a b : Quat) (t : Number) : Quat :=
  let cosHalfTheta :=
    (qw a * qw b + qx a * qx b + qy a * qy b + qz a * qz b)%Q in
  let b :=
    if Qltb cosHalfTheta 0
    then mkQuat (- qx b) (- qy b) (- qz b) (- qw b) else b in
  let cosHalfTheta := Qabs cosHalfTheta in
  if Qle_bool 1 cosHalfTheta then a
  else if Qltb (1 - cosHalfTheta * cosHalfTheta) (1 # 1000000) then
    mkQuat (Qred (qx a * (1 # 2) + qx b * (1 # 2)))
           (Qred (qy a * (1 # 2) + qy b * (1 # 2)))
           (Qred (qz a * (1 # 2) + qz b * (1 # 2)))
           (Qred (qw a * (1 # 2) + qw b * (1 # 2)))
  else nearest a b t.

(** A stand-in for spline sampling. *)
Definition flat (s : CubicSpline) (frame : Q) (i : nat) : Q :=
  nth i (spline_points s) 0%Q.
End Sample.

(** ** The key buttons of the timeline panel ([ui/timeline-panel.ts]) *)

Module TimelinePanel.
(** Helper to check if an animatable target is selected. *)
Definition hasAnimatableSelection (w : World) : bool :=
  if AnimTrackEvents.selection_isCamera w then true
  else
    match selection w with
    | Some sel =>
        match animTrack sel with
        | Some (Some _) => true
        | _ => false
        end
    | None => false
    end.

(** Helper to check if the current frame has a key: [keys.includes(frame)]. *)
Definition canDeleteKey (w : World) : bool :=
  let keys := AnimTrackEvents.track_keys w in
  let frame := timeline_frame (events w) in
  existsb (fun k => k =? frame) keys.

(** [updateKeyButtonStates]: the [enabled] flags it assigns to the add-key
    and the remove-key button. *)
Record KeyButtons := mkKeyButtons {
  addKey_enabled : bool;
  removeKey_enabled : bool
}.

Definition updateKeyButtonStates (w : World) : KeyButtons :=
  let hasAnimatable := hasAnimatableSelection w in
  mkKeyButtons hasAnimatable (hasAnimatable && canDeleteKey w).

(** Click on the add-key button: [events.fire('track.addKey')]. *)
Definition addKey_click (w : World) : Outcome World :=
  AnimTrackEvents.on_track_addKey None w.

(** Click on the remove-key button: [events.fire('track.removeKey', frame)]
    with the frame of the cursor. *)
Definition removeKey_click (w : World) : Outcome World :=
  let frame := timeline_frame (events w) in
  AnimTrackEvents.on_track_removeKey (Some frame) w.

(** The ticks area of [Ticks.rebuild]: [padding] pixels on each side of the
    [width] pixels that stand for frames [0 .. numFrames - 1]. *)
Definition padding : Number := Num 20.

(** The time labels of [Ticks.rebuild]: [numLabels] labels, label [i] on
    frame [Math.floor(i * labelStep)]. On integers [Math.floor(a / b)] is
    the floored quotient and [Math.ceil(a / b)] its mirror image. *)
Definition labelStep (numFrames : Z) (width : Q) : Z :=
  Z.max 1 (numFrames / Z.max 1 (Qfloor (width / 50))).

Definition numLabels (numFrames : Z) (width : Q) : Z :=
  Z.max 1 (- ((- numFrames) / labelStep numFrames width)).

Definition label_frame (numFrames : Z) (width : Q) (i : Z) : Z :=
  i * labelStep numFrames width.

(** Pixels and frames, in doubles: [padding + Math.floor(frame /
    (numFrames - 1) * width)] and [Math.max(0, Math.min(numFrames - 1,
    Math.floor((offset - padding) / width * (numFrames - 1))))]. *)
Definition offsetFromFrame (numFrames : Z) (width : Q) (frame : Z) : Number :=
  Double.add padding
    (Double.floor
       (Double.mul
          (Double.div (Num (inject_Z frame))
                      (Double.sub (Num (inject_Z numFrames)) (Num 1)))
          (Num width))).

Definition frameFromOffset (numFrames : Z) (width : Q) (offset : Q) : Number :=
  Double.max (Num 0)
    (Double.min (Double.sub (Num (inject_Z numFrames)) (Num 1))
       (Double.floor
          (Double.mul
             (Double.div (Double.sub (Num offset) padding) (Num width))
             (Double.sub (Num (inject_Z numFrames)) (Num 1))))).

(** The track notifications on which [Ticks] rebuilds its key labels from
    [track.keys]; [track.keyUpdated] is not among them. (It also rebuilds on
    [timeline.frames], on [selection.changed] and when resized.) *)
Definition rebuilds (e : Event) : bool :=
  match e with
  | track_keyAdded _ | track_keyRemoved _ | track_keyMoved _ _
  | track_keysLoaded _ | track_keysChanged | track_keysCleared => true
  | track_keyUpdated _ | camera_setPose _ _ _ => false
  end.

(** The frames of the key labels on display once the handler whose outcome
    is [o] has run, [shown] being on display before: the handlers fire
    after their mutation, so a rebuild reads the keys of the world [o]
    leaves. *)
Definition keys_on_display (shown : list Z) (o : Outcome World) : list Z :=
  if existsb rebuilds (fired o) then AnimTrackEvents.track_keys (after o)
  else shown.

(** The track notifications on which the panel runs
    [updateKeyButtonStates] (it also does on [timeline.frame] and on
    [selection.changed]). *)
Definition updates_buttons (e : Event) : bool :=
  match e with
  | track_keyAdded _ | track_keyRemoved _ | track_keyMoved _ _
  | track_keysLoaded _ | track_keysCleared => true
  | track_keyUpdated _ | track_keysChanged | camera_setPose _ _ _ => false
  end.

(** The button states on display once the handler whose outcome is [o] has
    run, [shown] being on display before. *)
Definition buttons_on_display (shown : KeyButtons) (o : Outcome World) : KeyButtons :=
  if existsb updates_buttons (fired o) then updateKeyButtonStates (after o)
  else shown.

(** Release of a dragged key label: [track.moveKey] is fired only for a
    label that was moved to another frame ([toFrame] is [-1] until the
    first move). *)
Definition key_pointerup (fromFrame toFrame : Z) (w : World) : Outcome World :=
  if negb (fromFrame =? toFrame) && (0 <=? toFrame) then
    AnimTrackEvents.on_track_moveKey fromFrame toFrame w
  else done w [].
End TimelinePanel.

(** ** Selection ([selection.ts]) *)

Module Selection.
(** A scene element as [selection.ts] and [transform-handler.ts] look at it.
    JS compares elements by reference: [uid] stands for the identity of the
    object. [visible] and [numSelected] are read on splats only; [body] is
    what the track resolver reads. *)
Record Element := mkElement {
  uid : nat;
  visible : bool;
  numSelected : nat;
  body : Selectable
}.

Definition element_type (e : Element) : ElementType := type (body e).

(** [a === b] on [Selectable] values ([null] included). *)
Definition same (a b : option Element) : bool :=
  match a, b with
  | Some x, Some y => (uid x =? uid y)%nat
  | None, None => true
  | _, _ => false
  end.

(** The scene, as far as the handlers query it: [scene.camera] and
    [scene.getElementsByType]. *)
Record Scene := mkScene {
  scene_camera : Element;
  scene_elements : list Element
}.

Definition getElementsByType (scene : Scene) (ty : ElementType) : list Element :=
  List.filter (fun e => ElementType_eqb (element_type e) ty) (scene_elements scene).

Inductive Fired :=
| selection_changed (selection prev : option Element).

Definition setSelection (element : option Element) (selection : option Element)
    : option Element * list Fired :=
  let hidden :=
    match element with
    | Some e => ElementType_eqb (element_type e) ElementType_splat && negb (visible e)
    | None => false
    end in
  if hidden then (selection, [])      (* Don't select hidden splats *)
  else if negb (same element selection) then
    (element, [selection_changed element selection])
  else (selection, []).

Definition selection_isCamera (selection : option Element) : bool :=
  match selection with
  | Some s => ElementType_eqb (element_type s) ElementType_camera
  | None => false
  end.

Definition selection_isSplat (selection : option Element) : bool :=
  match selection with
  | Some s => ElementType_eqb (element_type s) ElementType_splat
  | None => false
  end.

Definition selection_splat (selection : option Element) : option Element :=
  match selection with
  | Some s => if ElementType_eqb (element_type s) ElementType_splat then Some s else None
  | None => None
  end.

Definition selection_camera (selection : option Element) : option Element :=
  match selection with
  | Some s => if ElementType_eqb (element_type s) ElementType_camera then Some s else None
  | None => None
  end.

Definition on_selection_selectCamera (scene : Scene) (selection : option Element)
    : option Element * list Fired :=
  setSelection (Some (scene_camera scene)) selection.

(** [splats.indexOf(selection) + 1], [indexOf] answering [-1] for an
    element that is not in the array. *)
Definition indexOf_succ (splats : list Element) (selection : Element) : nat :=
  match findIndex (fun v => (uid v =? uid selection)%nat) splats with
  | Some idx => S idx
  | None => 0%nat
  end.

Definition on_selection_next (scene : Scene) (selection : option Element)
    : option Element * list Fired :=
  let splats := getElementsByType scene ElementType_splat in
  if (0 <? length splats)%nat then
    match selection with
    | Some sel =>
        if ElementType_eqb (element_type sel) ElementType_splat then
          setSelection (splats !! (indexOf_succ splats sel mod length splats)%nat)
                       selection
        else
          (* If camera is selected, switch to first splat *)
          setSelection (splats !! 0%nat) selection
    | None => setSelection (splats !! 0%nat) selection
    end
  else (selection, []).

Definition on_scene_elementAdded (element : Element) (selection : option Element)
    : option Element * list Fired :=
  if ElementType_eqb (element_type element) ElementType_splat then
    setSelection (Some element) selection
  else (selection, []).

Definition on_scene_elementRemoved (scene : Scene) (element : Element)
    (selection : option Element) : option Element * list Fired :=
  if same (Some element) selection then
    let splats := getElementsByType scene ElementType_splat in
    (* Select another splat or null if none left *)
    setSelection
      (if (0 <? length splats)%nat then
         List.find (fun v => negb (uid v =? uid element)%nat) splats
       else None)
      selection
  else (selection, []).

Definition on_splat_visibility (splat : Element) (selection : option Element)
    : option Element * list Fired :=
  if same (Some splat) selection && negb (visible splat) then
    setSelection None selection
  else (selection, []).

Definition on_camera_focalPointPicked (splat : option Element)
    (selection : option Element) : option Element * list Fired :=
  setSelection splat selection.

(** The events the selection listens to, each with the arguments and the
    scene it sees when it arrives. *)
Inductive Op :=
| fire_selection (element : option Element)
| fire_selection_selectCamera (scene : Scene)
| fire_selection_next (scene : Scene)
| fire_scene_elementAdded (element : Element)
| fire_scene_elementRemoved (scene : Scene) (element : Element)
| fire_splat_visibility (splat : Element)
| fire_camera_focalPointPicked (splat : option Element).

Definition step (op : Op) (selection : option Element)
    : option Element * list Fired :=
  match op with
  | fire_selection element => setSelection element selection
  | fire_selection_selectCamera scene => on_selection_selectCamera scene selection
  | fire_selection_next scene => on_selection_next scene selection
  | fire_scene_elementAdded element => on_scene_elementAdded element selection
  | fire_scene_elementRemoved scene element =>
      on_scene_elementRemoved scene element selection
  | fire_splat_visibility splat => on_splat_visibility splat selection
  | fire_camera_focalPointPicked splat => on_camera_focalPointPicked splat selection
  end.

(** Run [ops] in order: the final selection and everything fired. *)
Fixpoint run (ops : list Op) (selection : option Element)
    : option Element * list Fired :=
  match ops with
  | [] => (selection, [])
  | op :: ops' =>
      let (selection', fired1) := step op selection in
      let (final, fired2) := run ops' selection' in
      (final, fired1 ++ fired2)
  end.

(** A listener that follows [selection.changed] only: the selection it
    believes in after [fired], starting from [selection]. *)
Definition follow (fired : list Fired) (selection : option Element)
    : option Element :=
  fold_left (fun _ e => match e with selection_changed s _ => s end) fired selection.
End Selection.

(** ** The stack of transform handlers ([transform-handler.ts]) *)

Module TransformHandlers.
(** The handler objects: the two created at registration and whatever is
    pushed through [transformHandler.push]. *)
Inductive Handler :=
| entityTransformHandler
| splatsTransformHandler
| pushed (id : nat).

Definition Handler_eqb (a b : Handler) : bool :=
  match a, b with
  | entityTransformHandler, entityTransformHandler => true
  | splatsTransformHandler, splatsTransformHandler => true
  | pushed i, pushed j => (i =? j)%nat
  | _, _ => false
  end.

(** The calls made on handlers, in order. *)
Inductive Call :=
| activate (h : Handler)
| deactivate (h : Handler).

(** [transformHandlers], the top of the stack last. *)
Definition Stack := list Handler.

Definition push (handler : Handler) (transformHandlers : Stack) : Stack * list Call :=
  let calls :=
    match last transformHandlers with
    | Some transformHandler => [deactivate transformHandler]
    | None => []
    end in
  (transformHandlers ++ [handler], calls ++ [activate handler]).

Definition pop (transformHandlers : Stack) : Stack * list Call :=
  match last transformHandlers with
  | Some transformHandler =>
      let popped := removelast transformHandlers in
      (popped,
       deactivate transformHandler ::
       match last popped with
       | Some below => [activate below]
       | None => []
       end)
  | None => (transformHandlers, [])
  end.

(** Bind the transform target when the selection changes. *)
Definition update (selection : option Selection.Element) (transformHandlers : Stack)
    : Stack * list Call :=
  let (popped, calls) := pop transformHandlers in
  match selection with
  | Some splat =>
      (* Only handle transform for Splat selections, not Camera *)
      if ElementType_eqb (Selection.element_type splat) ElementType_splat then
        let (pushed, calls') :=
          if (0 <? Selection.numSelected splat)%nat
          then push splatsTransformHandler popped
          else push entityTransformHandler popped in
        (pushed, calls ++ calls')
      else (popped, calls)
  | None => (popped, calls)
  end.

(** Which handlers are active once [calls] were made, [active] telling
    which were before. *)
Definition after_call (active : Handler -> bool) (c : Call) : Handler -> bool :=
  match c with
  | activate h => fun x => if Handler_eqb x h then true else active x
  | deactivate h => fun x => if Handler_eqb x h then false else active x
  end.

Definition after_calls (active : Handler -> bool) (calls : list Call)
    : Handler -> bool :=
  fold_left after_call calls active.

(** The events that reach the stack; [splat.stateChanged] comes with the
    splat and with what [events.invoke('selection')] answers. *)
Inductive Op :=
| on_transformHandler_push (handler : Handler)
| on_transformHandler_pop
| on_selection_changed (selection : option Selection.Element)
| on_splat_stateChanged (splat : Selection.Element)
                        (selection : option Selection.Element).

Definition step (op : Op) (transformHandlers : Stack) : Stack * list Call :=
  match op with
  | on_transformHandler_push handler => push handler transformHandlers
  | on_transformHandler_pop => pop transformHandlers
  | on_selection_changed selection => update selection transformHandlers
  | on_splat_stateChanged splat selection =>
      (* Only update if this splat is currently selected *)
      if Selection.same selection (Some splat)
      then update (Some splat) transformHandlers
      else (transformHandlers, [])
  end.

(** Run [ops] in order from the stack [transformHandlers] with the handlers
    of [active] active. *)
Fixpoint run (ops : list Op) (transformHandlers : Stack) (active : Handler -> bool)
    : Stack * (Handler -> bool) :=
  match ops with
  | [] => (transformHandlers, active)
  | op :: ops' =>
      let (stack', calls) := step op transformHandlers in
      run ops' stack' (after_calls active calls)
  end.
End TransformHandlers.

(** * Facts about the array helpers *)

Section ArrayFacts.
Context {A : Type}.
Implicit Types (p : A -> bool) (l : list A).

Lemma findIndex_from_Some p l i j :
  findIndex_from p l i = Some j ->
  exists k x, j = (i + k)%nat /\ l !! k = Some x /\ p x = true /\
              forall m y, (m < k)%nat -> l !! m = Some y -> p y = false.
Proof.
  revert i. induction l as [|a l IH]; intros i; simpl; [discriminate|].
  destruct (p a) eqn:Hp.
  - intros [= <-]. exists 0%nat, a. repeat split; auto with lia.
  - intros (k & x & -> & Hk & Hx & Hbefore)%IH.
    exists (S k), x. repeat split; auto with lia.
    intros [|m] y Hm; simpl; [congruence|].
    apply Hbefore. lia.
Qed.

Lemma findIndex_Some p l j :
  findIndex p l = Some j ->
  exists x, l !! j = Some x /\ p x = true /\
            forall m y, (m < j)%nat -> l !! m = Some y -> p y = false.
Proof.
  intros (k & x & -> & H)%findIndex_from_Some. exists x. exact H.
Qed.

Lemma findIndex_from_None p l i :
  findIndex_from p l i = None -> forall x, x ∈ l -> p x = false.
Proof.
  revert i. induction l as [|a l IH]; intros i; simpl.
  - intros _ x Hx. inversion Hx.
  - destruct (p a) eqn:Hp; [discriminate|].
    intros Hnone x [->|Hx]%elem_of_cons; eauto.
Qed.

Lemma findIndex_None p l :
  findIndex p l = None -> forall x, x ∈ l -> p x = false.
Proof. apply findIndex_from_None. Qed.


Lemma findIndex_lt p l j : findIndex p l = Some j -> (j < length l)%nat.
Proof.
  intros (x & Hx & _)%findIndex_Some. eapply lookup_lt_Some, Hx.
Qed.

Lemma map_list_insert {B} (f : A -> B) l i x :
  map f (<[i:=x]> l) = <[i:=f x]> (map f l).
Proof.
  revert i. induction l as [|a l IH]; intros [|i]; simpl; f_equal; auto.
Qed.

Lemma map_list_delete {B} (f : A -> B) l i :
  map f (delete i l) = delete i (map f l).
Proof.
  revert i. induction l as [|a l IH]; intros [|i]; simpl; f_equal; auto.
Qed.

Lemma map_list_lookup {B} (f : A -> B) l i :
  map f l !! i = f <$> (l !! i).
Proof.
  revert i. induction l as [|a l IH]; intros [|i]; simpl; auto.
Qed.
End ArrayFacts.

Lemma NoDup_list_delete {A} (l : list A) i : NoDup l -> NoDup (delete i l).
Proof. intros Hnd. eapply sublist_NoDup; [exact Hnd | apply sublist_delete]. Qed.

Lemma elem_of_list_insert_inv {A} (l : list A) i x y :
  y ∈ <[i:=x]> l -> y = x \/ y ∈ l.
Proof.
  revert i. induction l as [|a l IH]; intros [|i]; simpl.
  - inversion 1.
  - inversion 1.
  - intros [->|H]%elem_of_cons; [auto|]. right. now apply elem_of_cons; right.
  - intros [->|H]%elem_of_cons.
    + right. apply elem_of_cons; auto.
    + destruct (IH _ H); [auto|]. right. apply elem_of_cons; auto.
Qed.

Lemma NoDup_list_insert_fresh {A} (l : list A) i x :
  NoDup l -> x ∉ l -> NoDup (<[i:=x]> l).
Proof.
  revert i. induction l as [|a l IH]; intros [|i] Hnd Hx; simpl; auto.
  - apply NoDup_cons in Hnd as [Ha Hnd]. apply NoDup_cons. split; auto.
    intros Hin. apply Hx, elem_of_cons; auto.
  - apply NoDup_cons in Hnd as [Ha Hnd]. apply NoDup_cons. split.
    + intros [->|Hin]%elem_of_list_insert_inv; [|auto].
      apply Hx, elem_of_cons; auto.
    + apply IH; auto. intros Hin. apply Hx, elem_of_cons; auto.
Qed.

(** Arrays of records searched by an integer key (the frame). *)
Section Keyed.
Context {A : Type} (key : A -> Z).
Implicit Types (l : list A) (f : Z).

Lemma findIndex_key_None l f :
  findIndex (fun x => key x =? f) l = None -> f ∉ map key l.
Proof.
  intros Hnone (x & -> & Hx)%list_elem_of_fmap.
  apply (findIndex_None _ _ Hnone) in Hx. lia.
Qed.

Lemma findIndex_key_Some l f j :
  findIndex (fun x => key x =? f) l = Some j -> map key l !! j = Some f.
Proof.
  intros (x & Hx & Hk & _)%findIndex_Some.
  rewrite map_list_lookup, Hx. simpl. f_equal. lia.
Qed.

(** Overwriting the record found on frame [f] by another record on [f]
    leaves the frames as they were. *)
Lemma keys_overwrite l f j x :
  findIndex (fun x => key x =? f) l = Some j -> key x = f ->
  map key (<[j:=x]> l) = map key l.
Proof.
  intros Hj%findIndex_key_Some <-.
  rewrite map_list_insert. now apply list_insert_id.
Qed.

Lemma NoDup_delete_found l f j :
  NoDup (map key l) ->
  findIndex (fun x => key x =? f) l = Some j ->
  f ∉ map key (delete j l).
Proof.
  intros Hnd Hj%findIndex_key_Some. rewrite map_list_delete.
  revert Hnd Hj. generalize (map key l). clear l. intros l.
  revert j. induction l as [|a l IH]; intros [|j]; simpl; try discriminate.
  - intros [Ha _]%NoDup_cons [= ->]. exact Ha.
  - intros [Ha Hnd]%NoDup_cons Hj [->|Hin]%elem_of_cons.
    + apply Ha. eapply list_elem_of_lookup_2, Hj.
    + eapply IH; eauto.
Qed.
End Keyed.

Section KeyedStores.
Context {A : Type} (key : A -> Z).
Implicit Types (l : list A) (f : Z).

Lemma unique_push l f x :
  NoDup (map key l) ->
  findIndex (fun y => key y =? f) l = None -> key x = f ->
  NoDup (map key (l ++ [x])).
Proof.
  intros Hnd Hnone%findIndex_key_None Hx.
  rewrite map_app. simpl. apply NoDup_app. repeat split; auto.
  - intros z Hz [->|Hin]%elem_of_cons; [|inversion Hin]. congruence.
  - apply NoDup_singleton.
Qed.

Lemma spliced_at_unique l f :
  NoDup (map key l) ->
  NoDup (map key (spliced_at key f l)) /\ f ∉ map key (spliced_at key f l).
Proof.
  intros Hnd. unfold spliced_at.
  destruct (findIndex _ l) as [j|] eqn:Hj.
  - split.
    + rewrite map_list_delete. now apply NoDup_list_delete.
    + eapply NoDup_delete_found; eauto.
  - split; [exact Hnd|]. now apply findIndex_key_None.
Qed.

Lemma unique_retarget l f i x :
  NoDup (map key l) -> key x = f ->
  NoDup (map key (<[i:=x]> (spliced_at key f l))).
Proof.
  intros [Hnd Hf]%(spliced_at_unique _ f) <-.
  rewrite map_list_insert. now apply NoDup_list_insert_fresh.
Qed.
End KeyedStores.

(** * The transform track *)

Lemma splat_rebuild_keyframes ev t :
  SplatAnimTrack.keyframes (SplatAnimTrack.rebuildSplines ev t)
  = SplatAnimTrack.keyframes t.
Proof.
  unfold SplatAnimTrack.rebuildSplines.
  now destruct (length _ <? 2)%nat.
Qed.


Lemma camera_rebuild_poses ev t :
  CameraAnimTrack.poses (CameraAnimTrack.rebuildSpline ev t)
  = CameraAnimTrack.poses t.
Proof.
  unfold CameraAnimTrack.rebuildSpline.
  now destruct (1 <? length _)%nat.
Qed.

Lemma splat_addKey_unique ev f t :
  NoDup (SplatAnimTrack.keys t) ->
  NoDup (SplatAnimTrack.keys (after (SplatAnimTrack.addKey ev f t))).
Proof.
  unfold SplatAnimTrack.keys, SplatAnimTrack.addKey. intros Hnd.
  destruct (findIndex _ _) as [j|] eqn:Hj; simpl;
    rewrite splat_rebuild_keyframes; simpl.
  - erewrite keys_overwrite; eauto.
  - eapply unique_push; eauto.
Qed.

Lemma splat_removeKey_unique ev f t :
  NoDup (SplatAnimTrack.keys t) ->
  NoDup (SplatAnimTrack.keys (after (SplatAnimTrack.removeKey ev f t))).
Proof.
  unfold SplatAnimTrack.keys, SplatAnimTrack.removeKey. intros Hnd.
  destruct (findIndex _ _) as [j|] eqn:Hj; simpl; [|exact Hnd].
  rewrite splat_rebuild_keyframes; simpl.
  rewrite map_list_delete. now apply NoDup_list_delete.
Qed.

Lemma splat_moveKey_unique ev a b t :
  NoDup (SplatAnimTrack.keys t) ->
  NoDup (SplatAnimTrack.keys (after (SplatAnimTrack.moveKey ev a b t))).
Proof.
  unfold SplatAnimTrack.keys, SplatAnimTrack.moveKey. intros Hnd.
  destruct (a =? b); [exact Hnd|].
  destruct (findIndex _ _) as [index|]; [|exact Hnd].
  fold (spliced_at TransformKey.frame b (SplatAnimTrack.keyframes t)).
  destruct (_ !! index) as [k|]; simpl.
  - rewrite splat_rebuild_keyframes; simpl.
    now apply unique_retarget.
  - now apply spliced_at_unique.
Qed.

Lemma camera_addKey_unique ev f t :
  NoDup (CameraAnimTrack.keys t) ->
  NoDup (CameraAnimTrack.keys (after (CameraAnimTrack.addKey ev f t))).
Proof.
  unfold CameraAnimTrack.keys, CameraAnimTrack.addKey. intros Hnd.
  destruct (camera_getPose ev) as [pose|]; [|exact Hnd].
  destruct (findIndex _ _) as [j|] eqn:Hj; simpl;
    rewrite camera_rebuild_poses; simpl.
  - erewrite keys_overwrite; eauto.
  - eapply unique_push; eauto.
Qed.

Lemma camera_removeKey_unique ev f t :
  NoDup (CameraAnimTrack.keys t) ->
  NoDup (CameraAnimTrack.keys (after (CameraAnimTrack.removeKey ev f t))).
Proof.
  unfold CameraAnimTrack.keys, CameraAnimTrack.removeKey. intros Hnd.
  destruct (findIndex _ _) as [j|] eqn:Hj; simpl; [|exact Hnd].
  rewrite camera_rebuild_poses; simpl.
  rewrite map_list_delete. now apply NoDup_list_delete.
Qed.

Lemma camera_moveKey_unique ev a b t :
  NoDup (CameraAnimTrack.keys t) ->
  NoDup (CameraAnimTrack.keys (after (CameraAnimTrack.moveKey ev a b t))).
Proof.
  unfold CameraAnimTrack.keys, CameraAnimTrack.moveKey. intros Hnd.
  destruct (a =? b); [exact Hnd|].
  destruct (findIndex _ _) as [index|]; [|exact Hnd].
  fold (spliced_at Pose.frame b (CameraAnimTrack.poses t)).
  destruct (_ !! index) as [k|]; simpl.
  - rewrite camera_rebuild_poses; simpl.
    now apply unique_retarget.
  - now apply spliced_at_unique.
Qed.

Lemma camera_addPose_unique ev pose t :
  NoDup (CameraAnimTrack.keys t) ->
  NoDup (CameraAnimTrack.keys (after (CameraAnimTrack.addPose ev pose t))).
Proof.
  unfold CameraAnimTrack.keys, CameraAnimTrack.addPose. intros Hnd.
  destruct (like_frame pose) as [f|]; [|exact Hnd]. simpl.
  rewrite camera_rebuild_poses; simpl.
  destruct (findIndex _ _) as [j|] eqn:Hj.
  - erewrite keys_overwrite; eauto.
  - eapply unique_push; eauto.
Qed.

Lemma splat_loadKeyframes_keys ev (data : list TransformKey.t) t :
  SplatAnimTrack.keys (after (SplatAnimTrack.loadKeyframes ev data t))
  = map TransformKey.frame data.
Proof.
  unfold SplatAnimTrack.keys, SplatAnimTrack.loadKeyframes. simpl.
  rewrite splat_rebuild_keyframes. simpl. rewrite map_map. reflexivity.
Qed.

Lemma camera_loadPoses_poses ev (data : list Pose.t) t :
  CameraAnimTrack.poses (after (CameraAnimTrack.loadPoses ev data t)) = data.
Proof.
  unfold CameraAnimTrack.loadPoses. simpl. now rewrite camera_rebuild_poses.
Qed.

(** C4 (as amended): every state of a transform track or of the pose track
    reached through [addKey], [removeKey], [moveKey], [clear], [addPose] and
    through loads of records with pairwise distinct frames holds at most one
    keyframe per frame. *)
Theorem reachable_store_has_unique_frames :
  (forall t, Reachable.splat t -> unique_frames (SplatAnimTrack.keys t)) /\
  (forall t, Reachable.camera t -> unique_frames (CameraAnimTrack.keys t)).
Proof.
  unfold unique_frames. split.
  - induction 1.
    + apply NoDup_nil_2.
    + exact IHsplat.
    + now apply splat_addKey_unique.
    + now apply splat_removeKey_unique.
    + now apply splat_moveKey_unique.
    + apply NoDup_nil_2.
    + now rewrite splat_loadKeyframes_keys.
  - induction 1.
    + apply NoDup_nil_2.
    + now apply camera_addKey_unique.
    + now apply camera_removeKey_unique.
    + now apply camera_moveKey_unique.
    + apply NoDup_nil_2.
    + now apply camera_addPose_unique.
    + unfold CameraAnimTrack.keys. now rewrite camera_loadPoses_poses.
Qed.

Lemma reachable_store_has_unique_frames_witness :
  let t := after (SplatAnimTrack.moveKey (Sample.timeline 100) 2 5
             (after (SplatAnimTrack.addKey (Sample.timeline 100) 2
                (after (SplatAnimTrack.addKey (Sample.timeline 100) 5
                   (SplatAnimTrack.new Sample.splat)))))) in
  Reachable.splat t /\ unique_frames (SplatAnimTrack.keys t).
Proof.
  assert (Hr : Reachable.splat
            (after (SplatAnimTrack.moveKey (Sample.timeline 100) 2 5
               (after (SplatAnimTrack.addKey (Sample.timeline 100) 2
                  (after (SplatAnimTrack.addKey (Sample.timeline 100) 5
                     (SplatAnimTrack.new Sample.splat)))))))).
  { apply Reachable.splat_moveKey, Reachable.splat_addKey,
      Reachable.splat_addKey, Reachable.splat_new. }
  split; [exact Hr|].
  apply (proj1 reachable_store_has_unique_frames _ Hr).
Defined.

(** C4 (counterexample): the load paths keep whatever frames they are given.
    [loadKeyframes] and [loadPoses] store two records on frame 5, and a
    legacy document whose first record has no frame collides with an
    explicit frame 0. *)
Lemma load_keeps_duplicate_frames :
  ~ unique_frames
      (SplatAnimTrack.keys
         (after (SplatAnimTrack.loadKeyframes (Sample.timeline 100)
                   [Sample.key 5 Sample.identity; Sample.key 5 Sample.half_turn]
                   (SplatAnimTrack.new Sample.splat)))) /\
  ~ unique_frames
      (CameraAnimTrack.keys
         (after (CameraAnimTrack.loadPoses (Sample.timeline 100)
                   [Sample.pose "a" 5 Sample.east; Sample.pose "b" 5 Sample.north]
                   CameraAnimTrack.new))) /\
  ~ unique_frames
      (CameraAnimTrack.keys
         (after (CameraPosesEvents.docDeserialize_poseSets (Sample.timeline 100)
                   [mkPoseSet "set0"
                      [mkDocPose "a" None (1, 0, 0)%Q (0, 0, 0)%Q;
                       mkDocPose "b" (Some 0) (0, 0, 1)%Q (0, 0, 0)%Q]]
                   CameraAnimTrack.new))).
Proof.
  unfold unique_frames.
  repeat split; vm_compute; intros H; inversion H as [|? ? Hin _]; subst;
    apply Hin; constructor.
Qed.

(** * [moveKey] onto an occupied frame *)

(** C1 (code defect): [moveKey] looks the source index up before it splices
    the occupant of the destination out and uses it afterwards. With the
    occupant stored before the source, the index is stale: when the source is
    the last record the assignment hits [undefined] and throws (frame 5 is
    gone, frame 2 is still there, nothing is rebuilt or notified); when a
    record follows the source, that record is moved to frame 5 instead. *)
Theorem moveKey_after_splice_uses_stale_index :
  let ev := Sample.timeline 100 in
  SplatAnimTrack.moveKey ev 2 5
    (Sample.transform_track
       [Sample.key 5 Sample.identity; Sample.key 2 Sample.half_turn])
  = throw (Sample.transform_track [Sample.key 2 Sample.half_turn]) TypeError
  /\
  CameraAnimTrack.moveKey ev 2 5
    (Sample.pose_track [Sample.pose "a" 5 Sample.east; Sample.pose "b" 2 Sample.north])
  = throw (Sample.pose_track [Sample.pose "b" 2 Sample.north]) TypeError
  /\
  SplatAnimTrack.keyframes
    (after (SplatAnimTrack.moveKey ev 2 5
              (Sample.transform_track
                 [Sample.key 5 Sample.identity; Sample.key 2 Sample.half_turn;
                  Sample.key 7 Sample.quarter])))
  = [Sample.key 2 Sample.half_turn; Sample.key 5 Sample.quarter]
  /\
  fired (SplatAnimTrack.moveKey ev 2 5
           (Sample.transform_track
              [Sample.key 5 Sample.identity; Sample.key 2 Sample.half_turn;
               Sample.key 7 Sample.quarter]))
  = [track_keyMoved 2 5].
Proof. repeat split. Qed.

(** C3 (code defect): with the camera selected, adding keys on frames 5 and 2
    and dragging the second onto the first makes the dispatched [moveKey]
    throw a [TypeError]. *)
Theorem dispatched_moveKey_throws :
  let w := mkWorld (Sample.timeline 100)
                   (Some (mkSelectable ElementType_camera None))
                   CameraAnimTrack.new in
  let o := and_then
             (and_then (AnimTrackEvents.on_track_addKey (Some 5) w)
                       (AnimTrackEvents.on_track_addKey (Some 2)))
             (AnimTrackEvents.on_track_moveKey 2 5) in
  thrown o = Some TypeError /\
  fired o = [track_keyAdded 5; track_keyAdded 2] /\
  CameraAnimTrack.keys (camera_animTrack (after o)) = [2].
Proof. repeat split. Qed.

(** * [addKey] twice on one frame *)

Lemma findIndex_from_push {A} (p : A -> bool) l x i :
  findIndex_from p l i = None -> p x = true ->
  findIndex_from p (l ++ [x]) i = Some (i + length l)%nat.
Proof.
  revert i. induction l as [|a l IH]; intros i; simpl.
  - intros _ ->. f_equal. lia.
  - destruct (p a); [discriminate|]. intros Hnone Hx.
    rewrite IH by assumption. f_equal. lia.
Qed.

Lemma findIndex_push {A} (p : A -> bool) l x :
  findIndex p l = None -> p x = true ->
  findIndex p (l ++ [x]) = Some (length l).
Proof. intros. unfold findIndex. now rewrite findIndex_from_push. Qed.

Lemma insert_pushed {A} (l : list A) x y :
  <[length l := y]> (l ++ [x]) = l ++ [y].
Proof. induction l as [|a l IH]; simpl; [reflexivity|]. now f_equal. Qed.

Lemma findIndex_absent {A} (key : A -> Z) l f :
  f ∉ map key l -> findIndex (fun x => key x =? f) l = None.
Proof.
  intros Hf. destruct (findIndex _ l) as [j|] eqn:Hj; [|reflexivity].
  apply findIndex_key_Some in Hj. exfalso. apply Hf.
  eapply list_elem_of_lookup_2, Hj.
Qed.

Lemma count_at_absent f l : f ∉ l -> count_at f l = 0%nat.
Proof.
  unfold count_at. induction l as [|a l IH]; simpl; [reflexivity|].
  intros Hf. destruct (a =? f) eqn:Ha.
  - exfalso. apply Hf. apply elem_of_cons. left. lia.
  - apply IH. intros Hin. apply Hf. apply elem_of_cons. now right.
Qed.

Lemma count_at_pushed f l : f ∉ l -> count_at f (l ++ [f]) = 1%nat.
Proof.
  intros Hf. unfold count_at. rewrite List.filter_app, length_app.
  fold (count_at f l). rewrite count_at_absent by assumption.
  simpl. now rewrite Z.eqb_refl.
Qed.

Lemma splat_addKey_twice ev1 ev2 f t :
  f ∉ SplatAnimTrack.keys t ->
  let o1 := SplatAnimTrack.addKey ev1 f t in
  let s1 := SplatAnimTrack.splat t in
  fired o1 = [track_keyAdded f] /\ thrown o1 = None /\
  SplatAnimTrack.keyframes (after o1)
  = SplatAnimTrack.keyframes t ++
    [TransformKey.mk f (getLocalPosition s1) (getLocalRotation s1) (getLocalScale s1)] /\
  forall s2,
    let o2 := SplatAnimTrack.addKey ev2 f (SplatAnimTrack.set_splat s2 (after o1)) in
    fired o2 = [track_keyUpdated f] /\ thrown o2 = None /\
    SplatAnimTrack.keyframes (after o2)
    = SplatAnimTrack.keyframes t ++
      [TransformKey.mk f (getLocalPosition s2) (getLocalRotation s2) (getLocalScale s2)] /\
    length (SplatAnimTrack.keyframes (after o2))
    = length (SplatAnimTrack.keyframes (after o1)) /\
    count_at f (SplatAnimTrack.keys (after o2)) = 1%nat.
Proof.
  intros Hf o1 s1.
  assert (Hnone := findIndex_absent TransformKey.frame _ _ Hf).
  assert (H1 : o1 = done (SplatAnimTrack.rebuildSplines ev1
                   (SplatAnimTrack.set_keyframes
                      (SplatAnimTrack.keyframes t ++
                       [TransformKey.mk f (getLocalPosition s1)
                          (getLocalRotation s1) (getLocalScale s1)]) t))
                 [track_keyAdded f]).
  { unfold o1, SplatAnimTrack.addKey. now rewrite Hnone. }
  assert (K1 : SplatAnimTrack.keyframes (after o1)
               = SplatAnimTrack.keyframes t ++
                 [TransformKey.mk f (getLocalPosition s1)
                    (getLocalRotation s1) (getLocalScale s1)]).
  { rewrite H1. simpl. now rewrite splat_rebuild_keyframes. }
  rewrite K1. split; [now rewrite H1|]. split; [now rewrite H1|].
  split; [reflexivity|]. intros s2 o2.
  assert (H2 : o2 = done (SplatAnimTrack.rebuildSplines ev2
                   (SplatAnimTrack.set_keyframes
                      (SplatAnimTrack.keyframes t ++
                       [TransformKey.mk f (getLocalPosition s2)
                          (getLocalRotation s2) (getLocalScale s2)])
                      (SplatAnimTrack.set_splat s2 (after o1))))
                 [track_keyUpdated f]).
  { unfold o2, SplatAnimTrack.addKey. simpl. rewrite K1.
    rewrite (findIndex_push _ _ _ Hnone) by (simpl; lia).
    now rewrite insert_pushed. }
  assert (K2 : SplatAnimTrack.keyframes (after o2)
               = SplatAnimTrack.keyframes t ++
                 [TransformKey.mk f (getLocalPosition s2)
                    (getLocalRotation s2) (getLocalScale s2)]).
  { rewrite H2. simpl. now rewrite splat_rebuild_keyframes. }
  unfold SplatAnimTrack.keys. rewrite K2.
  split; [now rewrite H2|]. split; [now rewrite H2|].
  split; [reflexivity|]. split.
  - now rewrite !length_app.
  - rewrite map_app. simpl. now apply count_at_pushed.
Qed.

Lemma camera_addKey_twice ev1 ev2 f t pose1 pose2 :
  f ∉ CameraAnimTrack.keys t ->
  camera_getPose ev1 = Some pose1 ->
  camera_getPose ev2 = Some pose2 ->
  let o1 := CameraAnimTrack.addKey ev1 f t in
  let o2 := CameraAnimTrack.addKey ev2 f (after o1) in
  let n := length (CameraAnimTrack.poses t) in
  fired o1 = [track_keyAdded f] /\ thrown o1 = None /\
  CameraAnimTrack.poses (after o1)
  = CameraAnimTrack.poses t ++
    [Pose.mk ("camera_" +:+ pretty n) f (cp_position pose1) (cp_target pose1)] /\
  fired o2 = [track_keyUpdated f] /\ thrown o2 = None /\
  CameraAnimTrack.poses (after o2)
  = CameraAnimTrack.poses t ++
    [Pose.mk ("camera_" +:+ pretty (S n)) f (cp_position pose2) (cp_target pose2)] /\
  length (CameraAnimTrack.poses (after o2))
  = length (CameraAnimTrack.poses (after o1)) /\
  count_at f (CameraAnimTrack.keys (after o2)) = 1%nat.
Proof.
  intros Hf Hp1 Hp2 o1 o2 n.
  assert (Hnone := findIndex_absent Pose.frame _ _ Hf).
  assert (H1 : o1 = done (CameraAnimTrack.rebuildSpline ev1
                   (CameraAnimTrack.mk
                      (CameraAnimTrack.poses t ++
                       [Pose.mk ("camera_" +:+ pretty n) f
                          (cp_position pose1) (cp_target pose1)])
                      (CameraAnimTrack.onTimelineChange t)))
                 [track_keyAdded f]).
  { unfold o1, CameraAnimTrack.addKey. rewrite Hp1, Hnone.
    now destruct pose1 as [[] []]. }
  assert (K1 : CameraAnimTrack.poses (after o1)
               = CameraAnimTrack.poses t ++
                 [Pose.mk ("camera_" +:+ pretty n) f
                    (cp_position pose1) (cp_target pose1)]).
  { rewrite H1. simpl. now rewrite camera_rebuild_poses. }
  assert (H2 : o2 = done (CameraAnimTrack.rebuildSpline ev2
                   (CameraAnimTrack.mk
                      (CameraAnimTrack.poses t ++
                       [Pose.mk ("camera_" +:+ pretty (S n)) f
                          (cp_position pose2) (cp_target pose2)])
                      (CameraAnimTrack.onTimelineChange (after o1))))
                 [track_keyUpdated f]).
  { unfold o2, CameraAnimTrack.addKey. rewrite Hp2, K1.
    rewrite (findIndex_push _ _ _ Hnone) by (simpl; lia).
    rewrite insert_pushed, length_app. simpl.
    replace (length (CameraAnimTrack.poses t) + 1)%nat with (S n) by (unfold n; lia).
    now destruct pose2 as [[] []]. }
  assert (K2 : CameraAnimTrack.poses (after o2)
               = CameraAnimTrack.poses t ++
                 [Pose.mk ("camera_" +:+ pretty (S n)) f
                    (cp_position pose2) (cp_target pose2)]).
  { rewrite H2. simpl. now rewrite camera_rebuild_poses. }
  unfold CameraAnimTrack.keys. rewrite K1, K2.
  split; [now rewrite H1|]. split; [now rewrite H1|].
  split; [reflexivity|].
  split; [now rewrite H2|]. split; [now rewrite H2|].
  split; [reflexivity|]. split.
  - now rewrite !length_app.
  - rewrite map_app. simpl. now apply count_at_pushed.
Qed.

(** Where the claim about a move onto an occupied frame does hold: the
    source record stored before the occupant of the destination. *)

Lemma count_at_insert_fresh (l : list Z) i b :
  b ∉ l -> (i < length l)%nat -> count_at b (<[i:=b]> l) = 1%nat.
Proof.
  unfold count_at. revert i. induction l as [|a l IH]; intros [|i] Hb Hi;
    simpl in *; try lia.
  - rewrite Z.eqb_refl. simpl. f_equal.
    apply count_at_absent. intros Hin. apply Hb, elem_of_cons. now right.
  - destruct (a =? b) eqn:Ha.
    + exfalso. apply Hb, elem_of_cons. left. lia.
    + apply IH; [|lia]. intros Hin. apply Hb, elem_of_cons. now right.
Qed.

Lemma moved_store_facts {A} (key : A -> Z) l b i j x :
  NoDup (map key l) ->
  findIndex (fun y => key y =? b) l = Some j ->
  (i < j)%nat -> key x = b ->
  length (<[i:=x]> (delete j l)) = (length l - 1)%nat /\
  count_at b (map key (<[i:=x]> (delete j l))) = 1%nat.
Proof.
  intros Hnd Hj Hij Hx.
  assert (Hlen : length (delete j l) = (length l - 1)%nat).
  { apply length_delete. apply findIndex_Some in Hj as (y & Hy & _). eauto. }
  apply findIndex_lt in Hj as Hjl.
  split; [now rewrite length_insert|].
  rewrite map_list_insert, Hx. apply count_at_insert_fresh.
  - eapply NoDup_delete_found; eauto.
  - rewrite length_map. lia.
Qed.

Lemma splat_moveKey_source_first ev a b t i j :
  NoDup (SplatAnimTrack.keys t) -> a <> b ->
  findIndex (fun k => TransformKey.frame k =? a) (SplatAnimTrack.keyframes t) = Some i ->
  findIndex (fun k => TransformKey.frame k =? b) (SplatAnimTrack.keyframes t) = Some j ->
  (i < j)%nat ->
  exists x,
    SplatAnimTrack.keyframes t !! i = Some x /\ TransformKey.frame x = a /\
    let o := SplatAnimTrack.moveKey ev a b t in
    thrown o = None /\ fired o = [track_keyMoved a b] /\
    SplatAnimTrack.keyframes (after o)
    = <[i := TransformKey.set_frame b x]> (delete j (SplatAnimTrack.keyframes t)) /\
    length (SplatAnimTrack.keyframes (after o))
    = (length (SplatAnimTrack.keyframes t) - 1)%nat /\
    count_at b (SplatAnimTrack.keys (after o)) = 1%nat.
Proof.
  intros Hnd Hab Hi Hj Hij.
  destruct (findIndex_Some _ _ _ Hi) as (x & Hx & Hfx & _).
  exists x. split; [exact Hx|]. split; [lia|].
  assert (Ho : SplatAnimTrack.moveKey ev a b t
               = done (SplatAnimTrack.rebuildSplines ev
                         (SplatAnimTrack.set_keyframes
                            (<[i := TransformKey.set_frame b x]>
                               (delete j (SplatAnimTrack.keyframes t))) t))
                      [track_keyMoved a b]).
  { unfold SplatAnimTrack.moveKey.
    destruct (Z.eqb_spec a b) as [?|_]; [contradiction|].
    now rewrite Hi, Hj, list_lookup_delete_lt, Hx by exact Hij. }
  simpl. rewrite Ho. unfold SplatAnimTrack.keys. simpl.
  rewrite splat_rebuild_keyframes. simpl.
  destruct (moved_store_facts TransformKey.frame _ b i j
              (TransformKey.set_frame b x) Hnd Hj Hij eq_refl) as [Hlen Hcount].
  repeat split; assumption.
Qed.

Lemma camera_moveKey_source_first ev a b t i j :
  NoDup (CameraAnimTrack.keys t) -> a <> b ->
  findIndex (fun p => Pose.frame p =? a) (CameraAnimTrack.poses t) = Some i ->
  findIndex (fun p => Pose.frame p =? b) (CameraAnimTrack.poses t) = Some j ->
  (i < j)%nat ->
  exists x,
    CameraAnimTrack.poses t !! i = Some x /\ Pose.frame x = a /\
    let o := CameraAnimTrack.moveKey ev a b t in
    thrown o = None /\ fired o = [track_keyMoved a b] /\
    CameraAnimTrack.poses (after o)
    = <[i := Pose.set_frame b x]> (delete j (CameraAnimTrack.poses t)) /\
    length (CameraAnimTrack.poses (after o))
    = (length (CameraAnimTrack.poses t) - 1)%nat /\
    count_at b (CameraAnimTrack.keys (after o)) = 1%nat.
Proof.
  intros Hnd Hab Hi Hj Hij.
  destruct (findIndex_Some _ _ _ Hi) as (x & Hx & Hfx & _).
  exists x. split; [exact Hx|]. split; [lia|].
  assert (Ho : CameraAnimTrack.moveKey ev a b t
               = done (CameraAnimTrack.rebuildSpline ev
                         (CameraAnimTrack.mk
                            (<[i := Pose.set_frame b x]>
                               (delete j (CameraAnimTrack.poses t)))
                            (CameraAnimTrack.onTimelineChange t)))
                      [track_keyMoved a b]).
  { unfold CameraAnimTrack.moveKey.
    destruct (Z.eqb_spec a b) as [?|_]; [contradiction|].
    now rewrite Hi, Hj, list_lookup_delete_lt, Hx by exact Hij. }
  simpl. rewrite Ho. unfold CameraAnimTrack.keys. simpl.
  rewrite camera_rebuild_poses. simpl.
  destruct (moved_store_facts Pose.frame _ b i j
              (Pose.set_frame b x) Hnd Hj Hij eq_refl) as [Hlen Hcount].
  repeat split; assumption.
Qed.

(** X26: the degradations to a no-op. On a source frame that holds no
    keyframe, [removeKey] and [moveKey] change nothing and fire nothing. *)
Lemma absent_source_frame_is_noop ev f g :
  (forall t, f ∉ SplatAnimTrack.keys t ->
     SplatAnimTrack.removeKey ev f t = done t [] /\
     SplatAnimTrack.moveKey ev f g t = done t []) /\
  (forall t, f ∉ CameraAnimTrack.keys t ->
     CameraAnimTrack.removeKey ev f t = done t [] /\
     CameraAnimTrack.moveKey ev f g t = done t []).
Proof.
  split; intros t Hf.
  - apply findIndex_absent in Hf.
    unfold SplatAnimTrack.removeKey, SplatAnimTrack.moveKey. rewrite Hf.
    now destruct (f =? g).
  - apply findIndex_absent in Hf.
    unfold CameraAnimTrack.removeKey, CameraAnimTrack.moveKey. rewrite Hf.
    now destruct (f =? g).
Qed.

(** C6 (as amended): on a frame [f] that holds no keyframe, and with the
    state provider answering at both calls (the transform track always has
    the transform of its target; the pose track needs [camera.getPose] to
    yield a pose), two [addKey f] calls leave exactly one keyframe at [f]:
    the first appends a record and fires [keyAdded], the second overwrites
    that record in place, count and order unchanged, and fires [keyUpdated].
    While [camera.getPose] yields nothing, [addKey] on the pose track does
    nothing. *)
Theorem addKey_twice_on_free_frame :
  (forall ev1 ev2 f t,
     f ∉ SplatAnimTrack.keys t ->
     let o1 := SplatAnimTrack.addKey ev1 f t in
     let s1 := SplatAnimTrack.splat t in
     fired o1 = [track_keyAdded f] /\ thrown o1 = None /\
     SplatAnimTrack.keyframes (after o1)
     = SplatAnimTrack.keyframes t ++
       [TransformKey.mk f (getLocalPosition s1) (getLocalRotation s1)
                        (getLocalScale s1)] /\
     forall s2,
       let o2 := SplatAnimTrack.addKey ev2 f
                   (SplatAnimTrack.set_splat s2 (after o1)) in
       fired o2 = [track_keyUpdated f] /\ thrown o2 = None /\
       SplatAnimTrack.keyframes (after o2)
       = SplatAnimTrack.keyframes t ++
         [TransformKey.mk f (getLocalPosition s2) (getLocalRotation s2)
                          (getLocalScale s2)] /\
       length (SplatAnimTrack.keyframes (after o2))
       = length (SplatAnimTrack.keyframes (after o1)) /\
       count_at f (SplatAnimTrack.keys (after o2)) = 1%nat) /\
  (forall ev1 ev2 f t pose1 pose2,
     f ∉ CameraAnimTrack.keys t ->
     camera_getPose ev1 = Some pose1 ->
     camera_getPose ev2 = Some pose2 ->
     let o1 := CameraAnimTrack.addKey ev1 f t in
     let o2 := CameraAnimTrack.addKey ev2 f (after o1) in
     let n := length (CameraAnimTrack.poses t) in
     fired o1 = [track_keyAdded f] /\ thrown o1 = None /\
     CameraAnimTrack.poses (after o1)
     = CameraAnimTrack.poses t ++
       [Pose.mk ("camera_" +:+ pretty n) f (cp_position pose1) (cp_target pose1)] /\
     fired o2 = [track_keyUpdated f] /\ thrown o2 = None /\
     CameraAnimTrack.poses (after o2)
     = CameraAnimTrack.poses t ++
       [Pose.mk ("camera_" +:+ pretty (S n)) f (cp_position pose2)
                (cp_target pose2)] /\
     length (CameraAnimTrack.poses (after o2))
     = length (CameraAnimTrack.poses (after o1)) /\
     count_at f (CameraAnimTrack.keys (after o2)) = 1%nat) /\
  (forall ev f t,
     camera_getPose ev = None -> CameraAnimTrack.addKey ev f t = done t []).
Proof.
  split; [|split].
  - intros ev1 ev2 f t Hf. now apply splat_addKey_twice.
  - intros ev1 ev2 f t pose1 pose2 Hf H1 H2. now apply camera_addKey_twice.
  - intros ev f t Hnone. unfold CameraAnimTrack.addKey. now rewrite Hnone.
Qed.

Lemma addKey_twice_on_free_frame_witness :
  let ev := Sample.timeline 100 in
  let t := Sample.pose_track [Sample.pose "a" 5 Sample.east] in
  (3 ∉ CameraAnimTrack.keys t) /\
  camera_getPose ev = Some (mkCameraPose Sample.east Sample.origin) /\
  count_at 3 (CameraAnimTrack.keys
                (after (CameraAnimTrack.addKey ev 3
                          (after (CameraAnimTrack.addKey ev 3 t))))) = 1%nat.
Proof.
  assert (Hf : 3 ∉ CameraAnimTrack.keys
                 (Sample.pose_track [Sample.pose "a" 5 Sample.east])).
  { vm_compute. intros [H|H]%elem_of_cons; [discriminate H|inversion H]. }
  split; [exact Hf|]. split; [reflexivity|].
  apply (proj1 (proj2 addKey_twice_on_free_frame)
           (Sample.timeline 100) (Sample.timeline 100) 3 _
           (mkCameraPose Sample.east Sample.origin)
           (mkCameraPose Sample.east Sample.origin) Hf eq_refl eq_refl).
Defined.

(** C6 (counterexample): with [camera.getPose] yielding nothing, two
    [addKey 3] calls on the empty pose track leave no keyframe at 3 and fire
    nothing; and on a frame that already holds a keyframe the first call
    already overwrites and fires [keyUpdated]. *)
Lemma addKey_twice_without_pose_or_on_taken_frame :
  (let o := and_then (CameraAnimTrack.addKey (Sample.blind 100) 3 CameraAnimTrack.new)
                     (CameraAnimTrack.addKey (Sample.blind 100) 3) in
   count_at 3 (CameraAnimTrack.keys (after o)) = 0%nat /\ fired o = []) /\
  fired (SplatAnimTrack.addKey (Sample.timeline 100) 3
           (Sample.transform_track [Sample.key 3 Sample.half_turn]))
  = [track_keyUpdated 3].
Proof. repeat split. Qed.

(** * Evaluation *)

Lemma sort_by_length {A} (key : A -> Z) l : length (sort_by key l) = length l.
Proof.
  induction l as [|x l IH]; simpl; [reflexivity|]. rewrite <- IH.
  generalize (sort_by key l). clear. intros l.
  induction l as [|y l IH]; simpl; [reflexivity|].
  destruct (key x <=? key y); simpl; congruence.
Qed.

Lemma evaluate_each_idle {S} (evaluate : Q -> S -> Outcome S) frames this :
  (forall frame, evaluate frame this = done this []) ->
  evaluate_each evaluate frames this = done this [].
Proof.
  intros Hidle. unfold evaluate_each.
  induction frames as [|f frames IH]; simpl; [reflexivity|].
  replace (and_then (done this []) (evaluate f)) with (done this ([] : list Event)).
  - exact IH.
  - unfold and_then. simpl. now rewrite Hidle.
Qed.

Lemma splat_rebuild_idle ev t :
  (length (List.filter (fun k => (TransformKey.frame k <? timeline_frames ev)%Z)
                       (SplatAnimTrack.keyframes t)) < 2)%nat ->
  SplatAnimTrack.onTimelineChange (SplatAnimTrack.rebuildSplines ev t) = None.
Proof.
  intros Hlt. unfold SplatAnimTrack.rebuildSplines.
  rewrite sort_by_length.
  destruct (length _ <? 2)%nat eqn:Hlen; [reflexivity|].
  apply Nat.ltb_ge in Hlen. lia.
Qed.

Lemma camera_rebuild_idle ev t :
  (length (List.filter (fun p => (Pose.frame p <? timeline_frames ev)%Z)
                       (CameraAnimTrack.poses t)) < 2)%nat ->
  CameraAnimTrack.onTimelineChange (CameraAnimTrack.rebuildSpline ev t) = None.
Proof.
  intros Hlt. unfold CameraAnimTrack.rebuildSpline.
  rewrite sort_by_length.
  destruct (1 <? length _)%nat eqn:Hlen; [|reflexivity].
  apply Nat.ltb_lt in Hlen. lia.
Qed.

(** * Facts about doubles *)

Lemma Qred_coprime q : Z.gcd (Qnum q) (Zpos (Qden q)) = 1 -> Qred q = q.
Proof.
  destruct q as [n d]. simpl. intros Hgcd. unfold Qred.
  pose proof (Z.ggcd_gcd n (Zpos d)) as Hg.
  pose proof (Z.ggcd_correct_divisors n (Zpos d)) as Hd.
  destruct (Z.ggcd n (Zpos d)) as [g [aa bb]]. simpl in Hg.
  rewrite Hgcd in Hg. subst g. destruct Hd as [Ha Hb].
  rewrite Z.mul_1_l in Ha, Hb. subst aa bb. reflexivity.
Qed.

Lemma Qred_inject_Z z : Qred (inject_Z z) = inject_Z z.
Proof. apply Qred_coprime. simpl. apply Z.gcd_1_r. Qed.

Lemma round_comp q q' : (q == q')%Q -> Double.round q = Double.round q'.
Proof. intros H. unfold Double.round. now rewrite (Qred_complete _ _ H). Qed.

Lemma round_zero q : (q == 0)%Q -> Double.round q = Num 0.
Proof. intros H. now rewrite (round_comp _ _ H). Qed.

Lemma rne_exact N D : 0 < D -> (D | N) -> Double.rne N D = N / D.
Proof.
  intros HD Hdiv. unfold Double.rne.
  apply Z.mod_divide in Hdiv; [|lia]. rewrite Hdiv. simpl.
  now destruct D.
Qed.

Lemma ilog2_pow2 n i :
  0 <= i ->
  Double.ilog2 n (Z.to_pos (2 ^ i)) = Z.log2 (Zpos n) - i.
Proof.
  intros Hi. unfold Double.ilog2.
  assert (Hp : 0 < 2 ^ i) by (apply Z.pow_pos_nonneg; lia).
  rewrite Z2Pos.id by exact Hp.
  rewrite Z.log2_pow2 by exact Hi.
  set (L := Z.log2 (Zpos n)).
  assert (HL : 2 ^ L <= Zpos n) by (apply Z.log2_spec; lia).
  assert (HL0 : 0 <= L) by apply Z.log2_nonneg.
  destruct (Z.leb_spec 0 (L - i)) as [Hk|Hk].
  - rewrite <- Z.pow_add_r by lia. replace (i + (L - i)) with L by lia.
    now destruct (Z.leb_spec (2 ^ L) (Zpos n)); [|lia].
  - destruct (Z.leb_spec (2 ^ i) (Zpos n * 2 ^ (- (L - i)))) as [|Hbad];
      [reflexivity|].
    exfalso.
    assert (E : 2 ^ i = 2 ^ L * 2 ^ (- (L - i))).
    { rewrite <- Z.pow_add_r by lia. f_equal. lia. }
    assert (0 < 2 ^ (- (L - i))) by (apply Z.pow_pos_nonneg; lia).
    nia.
Qed.

Lemma round_pos_exact n i :
  Zpos n < 2 ^ 53 -> 0 <= i <= 1074 ->
  Double.round_pos n (Z.to_pos (2 ^ i))
  = Num (Qred (Zpos n # Z.to_pos (2 ^ i))).
Proof.
  intros Hn Hi. unfold Double.round_pos. rewrite ilog2_pow2 by lia.
  set (L := Z.log2 (Zpos n)).
  assert (HL : L < 53).
  { apply Z.log2_lt_pow2; lia. }
  assert (HL0 : 0 <= L) by apply Z.log2_nonneg.
  assert (Hp : 0 < 2 ^ i) by (apply Z.pow_pos_nonneg; lia).
  set (e := Z.max (L - i - 52) (-1074)).
  assert (He : e <= - i) by (unfold e; lia).
  destruct (Z.leb_spec 0 e) as [He0|He0].
  - assert (i = 0) by lia. subst i. assert (e = 0) by lia.
    replace e with 0 by lia. change (2 ^ 0) with 1.
    change (Z.to_pos 1) with 1%positive.
    rewrite !Z.mul_1_r.
    rewrite rne_exact by (try lia; apply Z.divide_1_l).
    rewrite Z.div_1_r.
    destruct (Z.leb_spec Double.overflow (Zpos n)) as [Hov|_].
    + exfalso. unfold Double.overflow in Hov.
      assert (2 ^ 53 <= 2 ^ 1024) by (apply Z.pow_le_mono_r; lia). lia.
    + f_equal. symmetry. apply (Qred_inject_Z (Zpos n)).
  - f_equal. apply Qred_complete.
    assert (Hs : 2 ^ (- e) = 2 ^ i * 2 ^ (- e - i)).
    { rewrite <- Z.pow_add_r by lia. f_equal. lia. }
    assert (Hq : 0 < 2 ^ (- e - i)) by (apply Z.pow_pos_nonneg; lia).
    rewrite Z2Pos.id by exact Hp.
    rewrite rne_exact.
    + unfold Qeq. simpl. rewrite !Z2Pos.id by (try exact Hp; apply Z.pow_pos_nonneg; lia).
      rewrite Hs.
      replace (Zpos n * (2 ^ i * 2 ^ (- e - i)) / 2 ^ i)
        with (Zpos n * 2 ^ (- e - i)).
      * ring.
      * symmetry. rewrite (Z.mul_comm (2 ^ i)), Z.mul_assoc.
        apply Z.div_mul. lia.
    + exact Hp.
    + rewrite Hs. exists (Zpos n * 2 ^ (- e - i)). ring.
Qed.

Lemma round_pos_Z n :
  Zpos n < 2 ^ 53 -> Double.round_pos n 1 = Num (inject_Z (Zpos n)).
Proof.
  intros Hn. pose proof (round_pos_exact n 0 Hn ltac:(lia)) as H.
  change (Z.to_pos (2 ^ 0)) with 1%positive in H.
  change (Zpos n # 1)%Q with (inject_Z (Zpos n)) in H.
  now rewrite H, Qred_inject_Z.
Qed.

Lemma round_Z z :
  Z.abs z < 2 ^ 53 -> Double.round (inject_Z z) = Num (inject_Z z).
Proof.
  intros Hz. unfold Double.round. rewrite Qred_inject_Z. unfold inject_Z.
  destruct z as [|n|n]; [reflexivity| |];
    rewrite round_pos_Z by (simpl in Hz; lia); reflexivity.
Qed.

Lemma round_half z :
  Z.abs z < 2 ^ 53 ->
  Double.round (inject_Z z / 2) = Num (Qred (inject_Z z / 2)).
Proof.
  intros Hz. destruct (Z.Even_or_Odd z) as [[y ->]|[y Hy]].
  - assert (E : (inject_Z (2 * y) / 2 == inject_Z y)%Q).
    { rewrite inject_Z_mult. change (inject_Z 2) with 2%Q. field. }
    rewrite (round_comp _ _ E), (Qred_complete _ _ E), Qred_inject_Z.
    apply round_Z. lia.
  - assert (E : (inject_Z z / 2 == z # 2)%Q).
    { unfold Qdiv, Qmult, Qinv, inject_Z, Qeq. simpl. lia. }
    rewrite (round_comp _ _ E), (Qred_complete _ _ E).
    assert (Hred : Qred (z # 2) = (z # 2)%Q).
    { apply Qred_coprime. simpl. subst z.
      rewrite Z.gcd_comm, Z.add_comm, Z.mul_comm, Z.gcd_add_mult_diag_r.
      reflexivity. }
    unfold Double.round. rewrite Hred.
    destruct z as [|n|n]; [lia| |].
    + pose proof (round_pos_exact n 1 ltac:(simpl in Hz; lia) ltac:(lia)) as H.
      change (Z.to_pos (2 ^ 1)) with 2%positive in H.
      now rewrite H, Hred.
    + pose proof (round_pos_exact n 1 ltac:(simpl in Hz; lia) ltac:(lia)) as H.
      change (Z.to_pos (2 ^ 1)) with 2%positive in H. rewrite H.
      assert (Hred' : Qred (Zpos n # 2) = (Zpos n # 2)%Q).
      { apply Qred_coprime. simpl.
        change (Zneg n) with (- Zpos n) in Hy.
        assert (Hn : Zpos n = 2 * (- y - 1) + 1) by lia. rewrite Hn.
        rewrite Z.gcd_comm, Z.add_comm, Z.mul_comm, Z.gcd_add_mult_diag_r.
        reflexivity. }
      now rewrite Hred'.
Qed.

Lemma rne_nonneg N D : 0 <= N -> 0 < D -> 0 <= Double.rne N D.
Proof.
  intros HN HD. unfold Double.rne.
  assert (0 <= N / D) by (apply Z.div_pos; lia).
  destruct (2 * (N mod D) ?= D); [destruct (Z.even (N / D))| |]; lia.
Qed.

Lemma round_pos_nonneg n d : Double.nonneg (Double.round_pos n d).
Proof.
  unfold Double.round_pos.
  set (e := Z.max _ _).
  destruct (Z.leb_spec 0 e) as [He|He].
  - assert (0 < 2 ^ e) by (apply Z.pow_pos_nonneg; lia).
    assert (0 <= Double.rne (Zpos n) (Zpos d * 2 ^ e))
      by (apply rne_nonneg; lia).
    destruct (Double.overflow <=? _); simpl; [exact I|].
    change 0%Q with (inject_Z 0). rewrite <- Zle_Qle. lia.
  - assert (0 < 2 ^ (- e)) by (apply Z.pow_pos_nonneg; lia).
    assert (0 <= Double.rne (Zpos n * 2 ^ (- e)) (Zpos d))
      by (apply rne_nonneg; lia).
    simpl. rewrite Qred_correct. unfold Qle. simpl. lia.
Qed.

Lemma opp_nonneg x : Double.nonneg x -> Double.nonpos (Double.opp x).
Proof. destruct x; simpl; try tauto. intros H. lra. Qed.

Lemma round_nonneg q : (0 <= q)%Q -> Double.nonneg (Double.round q).
Proof.
  intros Hq. unfold Double.round.
  rewrite <- (Qred_correct q) in Hq.
  destruct (Qred q) as [[|n|n] d].
  - simpl. lra.
  - apply round_pos_nonneg.
  - exfalso. unfold Qle in Hq. simpl in Hq. lia.
Qed.

Lemma round_nonpos q : (q <= 0)%Q -> Double.nonpos (Double.round q).
Proof.
  intros Hq. unfold Double.round.
  rewrite <- (Qred_correct q) in Hq.
  destruct (Qred q) as [[|n|n] d].
  - simpl. lra.
  - exfalso. unfold Qle in Hq. simpl in Hq. lia.
  - apply opp_nonneg, round_pos_nonneg.
Qed.

Lemma round_not_NaN q : Double.round q <> NaN.
Proof.
  destruct (Qlt_le_dec q 0) as [H|H].
  - apply Qlt_le_weak, round_nonpos in H. now destruct (Double.round q).
  - apply round_nonneg in H. now destruct (Double.round q).
Qed.

Lemma clamp_is_unit x :
  Double.max (Num 0) (Double.min (Num 1) x) = NaN \/
  exists t, Double.max (Num 0) (Double.min (Num 1) x) = Num t /\
            (0 <= t)%Q /\ (t <= 1)%Q.
Proof.
  destruct x as [q| | |]; simpl; auto.
  - right. destruct (Qle_bool 1 q) eqn:H1; simpl.
    + exists 1%Q. repeat split; try lra. 
    + destruct (Qle_bool 0 q) eqn:H0.
      * exists q. apply Qle_bool_iff in H0. repeat split; try exact H0.
        destruct (Qlt_le_dec q 1) as [Hlt|Hge]; [lra|].
        apply Qle_bool_iff in Hge. congruence.
      * exists 0%Q. repeat split; lra.
  - right. exists 1%Q. repeat split; lra.
  - right. exists 0%Q. repeat split; lra.
Qed.

Lemma rne_le N D C : 0 < D -> N <= C * D -> Double.rne N D <= C.
Proof.
  intros HD HN. unfold Double.rne.
  assert (Hfl : N / D <= C) by (apply Z.div_le_upper_bound; lia).
  pose proof (Z.div_mod N D ltac:(lia)) as Hdm.
  pose proof (Z.mod_pos_bound N D HD) as Hm.
  destruct (Z.eq_dec (N / D) C) as [E|E].
  - assert (Hz : N mod D = 0) by nia. rewrite Hz.
    change (2 * 0) with 0. destruct D; try lia. cbn [Z.compare]. lia.
  - destruct (2 * (N mod D) ?= D); [destruct (Z.even (N / D))| |]; lia.
Qed.

Lemma ilog2_le_0 n d : Zpos n <= Zpos d -> Double.ilog2 n d <= 0.
Proof.
  intros Hle. unfold Double.ilog2.
  assert (Z.log2 (Zpos n) <= Z.log2 (Zpos d)) by now apply Z.log2_le_mono.
  destruct (if 0 <=? _ then _ else _); lia.
Qed.

(** A share of the unit interval rounds to a double of the unit interval,
    in lowest terms. *)
Lemma round_unit q :
  (0 <= q)%Q -> (q <= 1)%Q ->
  exists r, Double.round q = Num r /\ (0 <= r)%Q /\ (r <= 1)%Q /\ Qred r = r.
Proof.
  intros H0 H1. unfold Double.round.
  rewrite <- (Qred_correct q) in H0, H1.
  destruct (Qred q) as [[|n|n] d].
  - exists 0%Q. repeat split; try lra.
  - assert (Hnd : Zpos n <= Zpos d) by (unfold Qle in H1; simpl in H1; lia).
    unfold Double.round_pos.
    pose proof (ilog2_le_0 n d Hnd) as Hk.
    set (e := Z.max (Double.ilog2 n d - 52) (-1074)).
    assert (He : e < 0) by (unfold e; lia).
    destruct (Z.leb_spec 0 e) as [?|_]; [lia|].
    assert (Hp : 0 < 2 ^ (- e)) by (apply Z.pow_pos_nonneg; lia).
    set (m := Double.rne (Zpos n * 2 ^ (- e)) (Zpos d)).
    assert (Hm0 : 0 <= m) by (apply rne_nonneg; lia).
    assert (Hm1 : m <= 2 ^ (- e)) by (apply rne_le; nia).
    exists (Qred (m # Z.to_pos (2 ^ (- e)))). split; [reflexivity|].
    split; [|split].
    + rewrite Qred_correct. unfold Qle. simpl. lia.
    + rewrite Qred_correct. unfold Qle. simpl.
      rewrite Z2Pos.id by exact Hp. lia.
    + apply Qred_complete, Qred_correct.
  - exfalso. unfold Qle in H0. simpl in H0. lia.
Qed.

Lemma clamp_unit_id r :
  (0 <= r)%Q -> (r <= 1)%Q -> Qred r = r ->
  Double.max (Num 0) (Double.min (Num 1) (Num r)) = Num r.
Proof.
  intros H0 H1 Hred. simpl.
  destruct (Qle_bool 1 r) eqn:Hle.
  - apply Qle_bool_iff in Hle.
    assert (E : (r == 1)%Q) by lra.
    apply Qred_complete in E. rewrite Hred in E. subst r. reflexivity.
  - simpl. apply Qle_bool_iff in H0. now rewrite H0.
Qed.

(** ** Rounding is monotone *)

Lemma p2_pos e : (0 < 2 ^ e)%Q.
Proof. apply Qpower_0_lt. reflexivity. Qed.

Lemma p2_Z e : 0 <= e -> (2 ^ e == inject_Z (2 ^ e))%Q.
Proof. intros He. now rewrite Zpower_Qpower. Qed.

Lemma p2_inv e : (2 ^ (- e) * 2 ^ e == 1)%Q.
Proof.
  rewrite Qpower_opp. field. pose proof (p2_pos e). lra.
Qed.

Lemma p2_plus a b : (2 ^ (a + b) == 2 ^ a * 2 ^ b)%Q.
Proof. apply Qpower_plus. discriminate. Qed.

Lemma p2_le a b : a <= b -> (2 ^ a <= 2 ^ b)%Q.
Proof. intros H. apply Qpower_le_compat_l; [exact H|]. discriminate. Qed.

Lemma rne_ge N D C : 0 < D -> C * D <= N -> C <= Double.rne N D.
Proof.
  intros HD HN. unfold Double.rne.
  assert (Hfl : C <= N / D) by (apply Z.div_le_lower_bound; lia).
  destruct (2 * (N mod D) ?= D); [destruct (Z.even (N / D))| |]; lia.
Qed.

(** What [rne] answers: within a half of the quotient, and even at a tie. *)
Lemma rne_spec N D :
  0 < D ->
  let a := Double.rne N D in
  (2 * a - 1) * D <= 2 * N <= (2 * a + 1) * D /\
  (2 * N = (2 * a - 1) * D -> Z.even a = true) /\
  (2 * N = (2 * a + 1) * D -> Z.even a = true).
Proof.
  intros HD a. unfold a, Double.rne.
  pose proof (Z.div_mod N D ltac:(lia)) as Hdm.
  pose proof (Z.mod_pos_bound N D HD) as Hm.
  set (fl := N / D) in *. set (r := N mod D) in *.
  destruct (Z.compare_spec (2 * r) D) as [E|L|G].
  - destruct (Z.even fl) eqn:Hev.
    + split; [nia|]. split; [intros; nia|intros _; exact Hev].
    + split; [nia|]. split.
      * intros _. rewrite Z.even_add, Hev. reflexivity.
      * intros; nia.
  - split; [nia|]. split; intros; nia.
  - split; [nia|]. split; intros; nia.
Qed.

Lemma rne_mono N D N' D' :
  0 < D -> 0 < D' -> N * D' <= N' * D -> Double.rne N D <= Double.rne N' D'.
Proof.
  intros HD HD' Hle.
  destruct (rne_spec N D HD) as ((Hlo & _) & Hodd & _).
  destruct (rne_spec N' D' HD') as ((_ & Hhi') & _ & Heven').
  set (a := Double.rne N D) in *. set (b := Double.rne N' D') in *.
  destruct (Z.le_gt_cases a b) as [|Hgt]; [assumption|exfalso].
  assert (H1 : (2 * a - 1) * (D * D') <= 2 * N * D') by nia.
  assert (H2 : 2 * N' * D <= (2 * b + 1) * (D' * D)) by nia.
  assert (H3 : (2 * b + 1) * (D * D') <= (2 * a - 1) * (D * D')) by nia.
  assert (Hab : b = a - 1) by nia.
  assert (E1 : 2 * N = (2 * a - 1) * D) by nia.
  assert (E2 : 2 * N' = (2 * b + 1) * D') by nia.
  apply Hodd in E1. apply Heven' in E2. clearbody a b. subst b.
  replace a with (a - 1 + 1) in E1 by lia.
  rewrite Z.even_add, E2 in E1. discriminate.
Qed.

(** The value [n / d] divided by [2^e], as the quotient [mantissa] rounds. *)
Lemma mantissa_ge n d e C :
  (inject_Z C * 2 ^ e <= Zpos n # d)%Q -> C <= Double.mantissa n d e.
Proof.
  intros H. unfold Double.mantissa.
  destruct (Z.leb_spec 0 e) as [He|He].
  - assert (Hp : 0 < 2 ^ e) by (apply Z.pow_pos_nonneg; lia).
    apply rne_ge; [lia|].
    rewrite (p2_Z e He), <- inject_Z_mult in H.
    unfold Qle in H. simpl in H. lia.
  - assert (Hp : 0 < 2 ^ (- e)) by (apply Z.pow_pos_nonneg; lia).
    apply rne_ge; [lia|].
    assert (H' : (inject_Z C <= (Zpos n # d) * 2 ^ (- e))%Q).
    { apply (Qmult_le_compat_r _ _ (2 ^ (- e))) in H;
        [|apply Qlt_le_weak, p2_pos].
      assert (E : (2 ^ e * 2 ^ (- e) == 1)%Q)
        by (rewrite Qmult_comm; apply p2_inv).
      now rewrite <- Qmult_assoc, E, Qmult_1_r in H. }
    rewrite (p2_Z (- e)) in H' by lia.
    unfold Qle in H'. simpl in H'. lia.
Qed.

Lemma mantissa_le n d e C :
  (Zpos n # d <= inject_Z C * 2 ^ e)%Q -> Double.mantissa n d e <= C.
Proof.
  intros H. unfold Double.mantissa.
  destruct (Z.leb_spec 0 e) as [He|He].
  - assert (Hp : 0 < 2 ^ e) by (apply Z.pow_pos_nonneg; lia).
    apply rne_le; [lia|].
    rewrite (p2_Z e He), <- inject_Z_mult in H.
    unfold Qle in H. simpl in H. lia.
  - assert (Hp : 0 < 2 ^ (- e)) by (apply Z.pow_pos_nonneg; lia).
    apply rne_le; [lia|].
    assert (H' : ((Zpos n # d) * 2 ^ (- e) <= inject_Z C)%Q).
    { apply (Qmult_le_compat_r _ _ (2 ^ (- e))) in H;
        [|apply Qlt_le_weak, p2_pos].
      assert (E : (2 ^ e * 2 ^ (- e) == 1)%Q)
        by (rewrite Qmult_comm; apply p2_inv).
      now rewrite <- Qmult_assoc, E, Qmult_1_r in H. }
    rewrite (p2_Z (- e)) in H' by lia.
    unfold Qle in H'. simpl in H'. lia.
Qed.

Lemma mantissa_mono n d n' d' e :
  (Zpos n # d <= Zpos n' # d')%Q ->
  Double.mantissa n d e <= Double.mantissa n' d' e.
Proof.
  intros H. unfold Qle in H. simpl in H. unfold Double.mantissa.
  destruct (Z.leb_spec 0 e) as [He|He].
  - assert (Hp : 0 < 2 ^ e) by (apply Z.pow_pos_nonneg; lia).
    apply rne_mono; nia.
  - assert (Hp : 0 < 2 ^ (- e)) by (apply Z.pow_pos_nonneg; lia).
    apply rne_mono; nia.
Qed.

Lemma p2_le_frac k n d :
  (2 ^ k <= Zpos n # d)%Q
  <-> (if 0 <=? k then Zpos d * 2 ^ k <=? Zpos n
       else Zpos d <=? Zpos n * 2 ^ (- k)) = true.
Proof.
  destruct (Z.leb_spec 0 k) as [Hk|Hk].
  - rewrite (p2_Z k Hk), Z.leb_le. unfold Qle. simpl. lia.
  - rewrite Z.leb_le.
    assert (E : (2 ^ k * 2 ^ (- k) == 1)%Q)
      by (rewrite Qmult_comm; apply p2_inv).
    assert (Hq : ((Zpos n # d) * 2 ^ (- k) == Zpos n * 2 ^ (- k) # d)%Q).
    { rewrite (p2_Z (- k)) by lia. unfold Qeq, Qmult, inject_Z. simpl. lia. }
    split.
    + intros H.
      apply (Qmult_le_compat_r _ _ (2 ^ (- k))) in H;
        [|apply Qlt_le_weak, p2_pos].
      rewrite E, Hq in H. unfold Qle in H. simpl in H. lia.
    + intros H.
      assert (H1 : (1 <= (Zpos n # d) * 2 ^ (- k))%Q)
        by (rewrite Hq; unfold Qle; simpl; lia).
      apply (Qmult_le_compat_r _ _ (2 ^ k)) in H1;
        [|apply Qlt_le_weak, p2_pos].
      now rewrite Qmult_1_l, <- Qmult_assoc, p2_inv, Qmult_1_r in H1.
Qed.

Lemma log2_bounds n :
  (2 ^ Z.log2 (Zpos n) <= inject_Z (Zpos n))%Q /\
  (inject_Z (Zpos n) < 2 ^ (Z.log2 (Zpos n) + 1))%Q.
Proof.
  pose proof (Z.log2_nonneg (Zpos n)) as H0.
  destruct (Z.log2_spec (Zpos n) ltac:(lia)) as [Hlo Hhi].
  rewrite !p2_Z by lia. rewrite <- Zle_Qle, <- Zlt_Qlt.
  split; [exact Hlo|]. now rewrite <- Z.add_1_r in Hhi.
Qed.

(** [ilog2] is the binary logarithm, rounded down. *)
Lemma ilog2_spec n d :
  (2 ^ Double.ilog2 n d <= Zpos n # d)%Q /\
  (Zpos n # d < 2 ^ (Double.ilog2 n d + 1))%Q.
Proof.
  destruct (log2_bounds n) as [Hn1 Hn2]. destruct (log2_bounds d) as [Hd1 Hd2].
  set (L := Z.log2 (Zpos n)) in *. set (M := Z.log2 (Zpos d)) in *.
  assert (Hx : (Zpos n # d == inject_Z (Zpos n) / inject_Z (Zpos d))%Q).
  { unfold Qeq, Qdiv, Qmult, Qinv, inject_Z. simpl. lia. }
  assert (Hdpos : (0 < inject_Z (Zpos d))%Q) by (unfold Qlt; simpl; lia).
  assert (Hupper : (Zpos n # d < 2 ^ (L - M + 1))%Q).
  { rewrite Hx. apply Qlt_shift_div_r; [exact Hdpos|].
    replace (L - M + 1) with ((L + 1) + - M) by lia.
    rewrite p2_plus.
    assert (E : (2 ^ (- M) * 2 ^ M == 1)%Q) by apply p2_inv.
    pose proof (p2_pos (L + 1)). pose proof (p2_pos (- M)).
    pose proof (p2_pos M).
    assert (Hge : (2 ^ (L + 1) * 2 ^ (- M) * 2 ^ M
                   <= 2 ^ (L + 1) * 2 ^ (- M) * inject_Z (Zpos d))%Q).
    { apply Qmult_le_l; [|exact Hd1]. nra. }
    rewrite <- Qmult_assoc, E, Qmult_1_r in Hge. lra. }
  assert (Hlower : (2 ^ (L - M - 1) <= Zpos n # d)%Q).
  { rewrite Hx. apply Qle_shift_div_l; [exact Hdpos|].
    replace (L - M - 1) with (L + - (M + 1)) by lia.
    rewrite p2_plus.
    assert (E : (2 ^ (- (M + 1)) * 2 ^ (M + 1) == 1)%Q) by apply p2_inv.
    pose proof (p2_pos L). pose proof (p2_pos (- (M + 1))).
    pose proof (p2_pos (M + 1)).
    assert (Hle : (2 ^ L * 2 ^ (- (M + 1)) * inject_Z (Zpos d)
                   <= 2 ^ L * 2 ^ (- (M + 1)) * 2 ^ (M + 1))%Q).
    { apply Qmult_le_l; [nra|lra]. }
    assert (E' : (2 ^ L * 2 ^ (- (M + 1)) * 2 ^ (M + 1) == 2 ^ L)%Q)
      by (rewrite <- Qmult_assoc, E; ring).
    rewrite E' in Hle. lra. }
  unfold Double.ilog2. fold L M.
  destruct (if 0 <=? L - M then _ else _) eqn:Htest.
  - split; [now apply p2_le_frac|exact Hupper].
  - split; [exact Hlower|].
    replace (L - M - 1 + 1) with (L - M) by lia.
    apply Qnot_le_lt. intros H. apply p2_le_frac in H. congruence.
Qed.

Lemma exponent_bounds n d :
  let e := Double.exponent n d in
  -1074 <= e /\ Double.ilog2 n d - 52 <= e /\
  (-1074 < e -> e = Double.ilog2 n d - 52).
Proof. unfold Double.exponent. lia. Qed.

Lemma mantissa_upper n d :
  Double.mantissa n d (Double.exponent n d) <= 2 ^ 53.
Proof.
  apply mantissa_le.
  destruct (ilog2_spec n d) as [_ Hhi].
  destruct (exponent_bounds n d) as (_ & He & _).
  rewrite <- (p2_Z 53), <- p2_plus by lia.
  apply Qlt_le_weak. eapply Qlt_le_trans; [exact Hhi|]. apply p2_le. lia.
Qed.

Lemma mantissa_normal n d :
  -1074 < Double.exponent n d ->
  2 ^ 52 <= Double.mantissa n d (Double.exponent n d).
Proof.
  intros Hn. apply mantissa_ge.
  destruct (ilog2_spec n d) as [Hlo _].
  destruct (exponent_bounds n d) as (_ & _ & He). specialize (He Hn).
  rewrite <- (p2_Z 52), <- p2_plus by lia.
  eapply Qle_trans; [|exact Hlo]. apply p2_le. lia.
Qed.

(** The two outcomes of [round_pos]: its value is the mantissa at the
    exponent, or that value has reached [2^1024]. *)
Lemma round_pos_cases n d :
  let e := Double.exponent n d in
  let V := (inject_Z (Double.mantissa n d e) * 2 ^ e)%Q in
  (Double.round_pos n d = Infinity /\ (inject_Z Double.overflow <= V)%Q) \/
  (exists v, Double.round_pos n d = Num v /\ (v == V)%Q /\
             (V < inject_Z Double.overflow)%Q).
Proof.
  intros e V. unfold Double.round_pos. fold (Double.exponent n d). fold e.
  unfold V, Double.mantissa.
  destruct (Z.leb_spec 0 e) as [He|He].
  - set (m := Double.rne (Zpos n) (Zpos d * 2 ^ e)).
    assert (EV : (inject_Z m * 2 ^ e == inject_Z (m * 2 ^ e))%Q)
      by now rewrite (p2_Z e He), <- inject_Z_mult.
    destruct (Z.leb_spec Double.overflow (m * 2 ^ e)) as [Hov|Hov].
    + left. split; [reflexivity|]. now rewrite EV, <- Zle_Qle.
    + right. eexists. split; [reflexivity|]. split; [now rewrite EV|].
      now rewrite EV, <- Zlt_Qlt.
  - right. eexists. split; [reflexivity|].
    assert (Hp : 0 < 2 ^ (- e)) by (apply Z.pow_pos_nonneg; lia).
    set (m := Double.rne (Zpos n * 2 ^ (- e)) (Zpos d)).
    assert (Hv : (m # Z.to_pos (2 ^ (- e)) == inject_Z m * 2 ^ e)%Q).
    { assert (E : (2 ^ e == 1 # Z.to_pos (2 ^ (- e)))%Q).
      { rewrite <- (Z.opp_involutive e) at 1. rewrite Qpower_opp.
        rewrite (p2_Z (- e)) by lia.
        unfold Qeq, Qinv, inject_Z. simpl.
        destruct (2 ^ (- e)) eqn:Hpow; try lia. simpl. lia. }
      rewrite E. unfold Qeq, Qmult, inject_Z. simpl. lia. }
    split; [now rewrite Qred_correct|].
    rewrite <- Hv.
    assert (Hm : m <= 2 ^ 53).
    { pose proof (mantissa_upper n d) as Hu. fold e in Hu.
      unfold Double.mantissa in Hu.
      destruct (Z.leb_spec 0 e); [lia|exact Hu]. }
    assert (Hbig : 2 ^ 53 < Double.overflow) by reflexivity.
    unfold Qlt. simpl. rewrite Z2Pos.id by exact Hp. nia.
Qed.

Lemma round_pos_mono n d n' d' :
  (Zpos n # d <= Zpos n' # d')%Q ->
  Double.le (Double.round_pos n d) (Double.round_pos n' d').
Proof.
  intros Hle.
  set (e1 := Double.exponent n d). set (e2 := Double.exponent n' d').
  set (V1 := (inject_Z (Double.mantissa n d e1) * 2 ^ e1)%Q).
  set (V2 := (inject_Z (Double.mantissa n' d' e2) * 2 ^ e2)%Q).
  assert (HV : (V1 <= V2)%Q).
  { destruct (ilog2_spec n d) as [Hlo1 Hhi1].
    destruct (ilog2_spec n' d') as [Hlo2 Hhi2].
    destruct (exponent_bounds n d) as (Hmin1 & Hk1 & Hn1).
    destruct (exponent_bounds n' d') as (Hmin2 & Hk2 & Hn2).
    fold e1 in Hmin1, Hk1, Hn1. fold e2 in Hmin2, Hk2, Hn2.
    destruct (Z.lt_trichotomy e1 e2) as [Hlt|[Heq|Hgt]].
    - assert (Hm2 : 2 ^ 52 <= Double.mantissa n' d' e2)
        by (apply mantissa_normal; fold e2; lia).
      assert (Hm1 : Double.mantissa n d e1 <= 2 ^ (e2 + 52 - e1)).
      { apply mantissa_le.
        rewrite <- (p2_Z (e2 + 52 - e1)), <- p2_plus by lia.
        apply Qlt_le_weak. eapply Qlt_le_trans; [exact Hhi1|].
        apply p2_le. lia. }
      unfold V1, V2.
      apply Qle_trans with (2 ^ (e2 + 52))%Q.
      + replace (e2 + 52) with ((e2 + 52 - e1) + e1) by lia.
        rewrite p2_plus, (p2_Z (e2 + 52 - e1)) by lia.
        apply Qmult_le_compat_r; [|apply Qlt_le_weak, p2_pos].
        now rewrite <- Zle_Qle.
      + rewrite (Z.add_comm e2 52), p2_plus, (p2_Z 52) by lia.
        apply Qmult_le_compat_r; [|apply Qlt_le_weak, p2_pos].
        now rewrite <- Zle_Qle.
    - unfold V1, V2. rewrite <- Heq.
      apply Qmult_le_compat_r; [|apply Qlt_le_weak, p2_pos].
      rewrite <- Zle_Qle. now apply mantissa_mono.
    - exfalso.
      assert (Hcontra : (Zpos n' # d' < Zpos n # d)%Q).
      { eapply Qlt_le_trans; [exact Hhi2|].
        eapply Qle_trans; [|exact Hlo1]. apply p2_le. lia. }
      lra. }
  pose proof (round_pos_cases n d) as H1.
  pose proof (round_pos_cases n' d') as H2.
  cbv zeta in H1, H2. fold e1 in H1. fold V1 in H1. fold e2 in H2. fold V2 in H2.
  clearbody V1 V2.
  destruct H1 as [[-> Hov1]|(v1 & -> & Hv1 & Hfin1)];
    destruct H2 as [[-> Hov2]|(v2 & -> & Hv2 & Hfin2)];
    simpl; try exact I.
  - lra.
  - rewrite Hv1, Hv2. exact HV.
Qed.

Lemma round_pos_not_NaN n d : Double.round_pos n d <> NaN.
Proof. pose proof (round_pos_nonneg n d). now destruct (Double.round_pos n d). Qed.

Lemma le_opp x y : Double.le x y -> Double.le (Double.opp y) (Double.opp x).
Proof. destruct x, y; simpl; try tauto. intros H. lra. Qed.

Lemma le_nonpos_nonneg x y : Double.nonpos x -> Double.nonneg y -> Double.le x y.
Proof. destruct x, y; simpl; try tauto. intros. lra. Qed.

(** Rounding is monotone. *)
Lemma round_mono q q' : (q <= q')%Q -> Double.le (Double.round q) (Double.round q').
Proof.
  intros Hle.
  destruct (Qlt_le_dec q 0) as [Hq|Hq]; destruct (Qlt_le_dec q' 0) as [Hq'|Hq'].
  - unfold Double.round.
    apply Qred_le in Hle.
    assert (H0 : (Qred q < 0)%Q) by now rewrite Qred_correct.
    assert (H0' : (Qred q' < 0)%Q) by now rewrite Qred_correct.
    destruct (Qred q) as [[|n|n] d]; try (unfold Qlt in H0; simpl in H0; lia).
    destruct (Qred q') as [[|n'|n'] d'];
      try (unfold Qlt in H0'; simpl in H0'; lia).
    apply le_opp, round_pos_mono. unfold Qle in *. simpl in *. lia.
  - apply le_nonpos_nonneg; [apply round_nonpos; lra|now apply round_nonneg].
  - lra.
  - destruct (Qle_lt_or_eq _ _ Hq) as [Hnz|Hz]; [|symmetry in Hz]; revgoals.
    + rewrite (round_zero q Hz).
      apply (le_nonpos_nonneg (Num 0)); [simpl; lra|now apply round_nonneg].
    + unfold Double.round.
      assert (H0 : (0 < Qred q)%Q) by (rewrite Qred_correct; lra).
      assert (H0' : (0 < Qred q')%Q) by (rewrite Qred_correct; lra).
      apply Qred_le in Hle.
      destruct (Qred q) as [[|n|n] d]; try (unfold Qlt in H0; simpl in H0; lia).
      destruct (Qred q') as [[|n'|n'] d'];
        try (unfold Qlt in H0'; simpl in H0'; lia).
      now apply round_pos_mono.
Qed.

Section Interpolation.
Variable CubicSpline_evaluate : CubicSpline -> Q -> nat -> Q.
Variable Quat_slerp : Quat -> Quat -> Number -> Quat.

Lemma splat_set_splat_same t :
  SplatAnimTrack.set_splat (SplatAnimTrack.splat t) t = t.
Proof. now destruct t. Qed.

(** C10: [evaluate] leaves the keyframe store of either track as it is and
    fires no structural notification. On a transform track it changes at
    most the transform of the bound target; on the pose track it changes
    nothing and fires at most one [camera.setPose] with a zero transition. *)
Theorem evaluate_preserves_store :
  (forall frame t,
     let o := SplatAnimTrack.evaluate CubicSpline_evaluate Quat_slerp frame t in
     SplatAnimTrack.keyframes (after o) = SplatAnimTrack.keyframes t /\
     (exists s, after o = SplatAnimTrack.set_splat s t) /\
     fired o = []) /\
  (forall frame t,
     let o := CameraAnimTrack.evaluate CubicSpline_evaluate frame t in
     after o = t /\
     (fired o = [] \/
      exists position target, fired o = [camera_setPose position target 0]) /\
     forallb (fun e => negb (structural e)) (fired o) = true).
Proof.
  assert (Hsame : forall t o, o = throw t TypeError \/ o = done t [] ->
            SplatAnimTrack.keyframes (after o) = SplatAnimTrack.keyframes t /\
            (exists s, after o = SplatAnimTrack.set_splat s t) /\
            fired o = []).
  { intros t o [-> | ->]; simpl; repeat split;
      exists (SplatAnimTrack.splat t); now rewrite splat_set_splat_same. }
  split; intros frame t; simpl.
  - unfold SplatAnimTrack.evaluate.
    destruct (SplatAnimTrack.onTimelineChange t) as [c|]; [|now apply Hsame; right].
    unfold SplatAnimTrack.onTimelineChange_call.
    destruct (SplatAnimTrack.positionSpline t), (SplatAnimTrack.scaleSpline t);
      try (now apply Hsame; left).
    destruct (SplatAnimTrack.bracket _ _) as [[prevKey|] [nextKey|]];
      try (now apply Hsame; left).
    simpl. repeat split. eexists. reflexivity.
  - unfold CameraAnimTrack.evaluate.
    destruct (CameraAnimTrack.onTimelineChange t) as [c|]; simpl; eauto 10.
Qed.

(** C7: once a rebuild has found fewer than two active keyframes, and
    likewise once [clear] has emptied the store, any number of [evaluate]
    calls, on any frames, leave the track and its bound target untouched
    and fire nothing. *)
Theorem evaluate_idle_below_two_active_keys :
  (forall ev t frames,
     (length (List.filter (fun k => (TransformKey.frame k <? timeline_frames ev)%Z)
                          (SplatAnimTrack.keyframes t)) < 2)%nat ->
     evaluate_each (SplatAnimTrack.evaluate CubicSpline_evaluate Quat_slerp) frames
       (SplatAnimTrack.rebuildSplines ev t)
     = done (SplatAnimTrack.rebuildSplines ev t) []) /\
  (forall ev t frames,
     (length (List.filter (fun p => (Pose.frame p <? timeline_frames ev)%Z)
                          (CameraAnimTrack.poses t)) < 2)%nat ->
     evaluate_each (CameraAnimTrack.evaluate CubicSpline_evaluate) frames
       (CameraAnimTrack.rebuildSpline ev t)
     = done (CameraAnimTrack.rebuildSpline ev t) []) /\
  (forall t frames,
     SplatAnimTrack.keyframes (after (SplatAnimTrack.clear t)) = [] /\
     evaluate_each (SplatAnimTrack.evaluate CubicSpline_evaluate Quat_slerp) frames
       (after (SplatAnimTrack.clear t))
     = done (after (SplatAnimTrack.clear t)) []) /\
  (forall t frames,
     CameraAnimTrack.poses (after (CameraAnimTrack.clear t)) = [] /\
     evaluate_each (CameraAnimTrack.evaluate CubicSpline_evaluate) frames
       (after (CameraAnimTrack.clear t))
     = done (after (CameraAnimTrack.clear t)) []).
Proof.
  split; [|split; [|split]].
  - intros ev t frames Hlt. apply evaluate_each_idle. intros frame.
    unfold SplatAnimTrack.evaluate.
    now rewrite splat_rebuild_idle.
  - intros ev t frames Hlt. apply evaluate_each_idle. intros frame.
    unfold CameraAnimTrack.evaluate.
    now rewrite camera_rebuild_idle.
  - intros t frames. split; [reflexivity|]. now apply evaluate_each_idle.
  - intros t frames. split; [reflexivity|]. now apply evaluate_each_idle.
Qed.

(** C2 (code defect): the handlers of [timeline.frames] and
    [timeline.smoothness] call [evaluate], and [evaluate] never rebuilds:
    the track they leave is the track they found. With poses on frames 0,
    10 and 50 fitted for a duration of 100, shortening the timeline to 20
    keeps the spline over all three poses and period 100, where a rebuild
    would fit frames 0 and 10 with period 20; the next [evaluate] samples
    the stale spline, so the pose on frame 50 still shapes its output. *)
Theorem timeline_change_keeps_stale_spline :
  (forall ev track,
     after (CameraPosesEvents.on_timeline_frames CubicSpline_evaluate ev track)
     = track /\
     after (CameraPosesEvents.on_timeline_smoothness CubicSpline_evaluate ev track)
     = track) /\
  let track :=
    after (CameraAnimTrack.loadPoses (Sample.timeline 100)
             [Sample.pose "a" 0 Sample.east; Sample.pose "b" 10 Sample.north;
              Sample.pose "c" 50 Sample.origin]
             CameraAnimTrack.new) in
  let stale :=
    fromPointsLooping 100 [0; 10; 50]
      [1; 0; 0; 0; 0; 0;  0; 0; -1 # 1; 0; 0; 0;  0; 0; 0; 0; 0; 0]%Q (1 # 2) in
  let fresh :=
    fromPointsLooping 20 [0; 10]
      [1; 0; 0; 0; 0; 0;  0; 0; -1 # 1; 0; 0; 0]%Q (1 # 2) in
  let o := CameraPosesEvents.on_timeline_frames CubicSpline_evaluate
             (Sample.timeline 20) track in
  CameraAnimTrack.onTimelineChange (after o)
  = Some (CameraAnimTrack.mkClosure stale) /\
  CameraAnimTrack.onTimelineChange
    (CameraAnimTrack.rebuildSpline (Sample.timeline 20) track)
  = Some (CameraAnimTrack.mkClosure fresh) /\
  fired (CameraAnimTrack.evaluate CubicSpline_evaluate 5%Q (after o))
  = [camera_setPose
       (mkVec3 (CubicSpline_evaluate stale 5%Q 0%nat)
               (CubicSpline_evaluate stale 5%Q 1%nat)
               (CubicSpline_evaluate stale 5%Q 2%nat))
       (mkVec3 (CubicSpline_evaluate stale 5%Q 3%nat)
               (CubicSpline_evaluate stale 5%Q 4%nat)
               (CubicSpline_evaluate stale 5%Q 5%nat))
       0].
Proof.
  split.
  - intros ev track.
    unfold CameraPosesEvents.on_timeline_frames,
      CameraPosesEvents.on_timeline_smoothness, CameraAnimTrack.evaluate.
    destruct (CameraAnimTrack.onTimelineChange track); split; reflexivity.
  - repeat split.
Qed.

Lemma Qltb_lt a b : (a < b)%Q -> Qltb a b = true.
Proof. unfold Qltb. now intros ->%Qlt_alt. Qed.

Lemma Qltb_ge a b : (b <= a)%Q -> Qltb a b = false.
Proof.
  unfold Qltb. intros H%Qge_alt. now destruct (a ?= b)%Q.
Qed.

Lemma Qle_bool_gt a b : (b < a)%Q -> Qle_bool a b = false.
Proof.
  intros Hlt. destruct (Qle_bool a b) eqn:Hle; [|reflexivity].
  apply Qle_bool_iff in Hle. exfalso. eapply Qlt_not_le; eauto.
Qed.

(** The bracket search over two keys. *)
Lemma bracket_pair k0 k1 frame :
  SplatAnimTrack.bracket [k0; k1] frame
  = if Qltb frame (inject_Z (TransformKey.frame k0)) then (Some k1, Some k0)
    else if Qltb frame (inject_Z (TransformKey.frame k1)) then (Some k0, Some k1)
    else (Some k1, Some k0).
Proof. reflexivity. Qed.

Lemma add_exact a b c :
  (a + b == c)%Q -> Double.add (Num a) (Num b) = Double.round c.
Proof. intros H. simpl. now apply round_comp. Qed.

Lemma sub_exact a b c :
  (a - b == c)%Q -> Double.sub (Num a) (Num b) = Double.round c.
Proof. intros H. unfold Double.sub. simpl. now apply round_comp. Qed.

Lemma div_exact a b c :
  ~ (b == 0)%Q -> (a / b == c)%Q ->
  Double.div (Num a) (Num b) = Double.round c.
Proof.
  intros Hb H. simpl. destruct (b ?= 0)%Q eqn:Hc.
  - apply Qeq_alt in Hc. contradiction.
  - now apply round_comp.
  - now apply round_comp.
Qed.

Lemma sort_pair (k0 k1 : TransformKey.t) l :
  TransformKey.frame k0 < TransformKey.frame k1 ->
  l ≡ₚ [k0; k1] ->
  sort_by TransformKey.frame l = [k0; k1].
Proof.
  intros Hlt Hperm. symmetry in Hperm.
  apply Permutation_length_2_inv in Hperm as [-> | ->]; simpl.
  - destruct (Z.leb_spec (TransformKey.frame k0) (TransformKey.frame k1));
      [reflexivity|lia].
  - destruct (Z.leb_spec (TransformKey.frame k1) (TransformKey.frame k0));
      [lia|reflexivity].
Qed.

Lemma Qle_bool_le a b : (a <= b)%Q -> Qle_bool a b = true.
Proof. apply Qle_bool_iff. Qed.

Lemma three_quarters x :
  (0 < x)%Q ->
  (0 <= 2 * x * 3 / 4)%Q /\ (x <= 2 * x * 3 / 4)%Q /\
  (2 * x * 3 / 4 - x == x / 2)%Q.
Proof.
  intros Hx.
  assert (Hq : (2 * x * 3 / 4 == (3 # 2) * x)%Q) by field.
  repeat split.
  - rewrite Hq. lra.
  - rewrite Hq. lra.
  - field.
Qed.

(** C5 (as amended): a transform track whose active keyframes are exactly
    two, on frames 0 and half the duration, the duration below [2^52]
    (where every frame involved is an exact double). [evaluate] at frame 0
    assigns what the engine's slerp answers from key 0 to key 1 at factor
    0; at half the duration what it answers from key 1 to key 0 (the wrap
    segment) at factor 0; and at three quarters of the duration what it
    answers from key 1 to key 0 at factor 1/2. *)
Theorem two_key_rotation :
  forall ev t k0 k1 h,
    0 < h ->
    timeline_frames ev = 2 * h ->
    timeline_frames ev < 2 ^ 52 ->
    TransformKey.frame k0 = 0 ->
    TransformKey.frame k1 = h ->
    List.filter (fun k => (TransformKey.frame k <? timeline_frames ev)%Z)
                (SplatAnimTrack.keyframes t) ≡ₚ [k0; k1] ->
    let rotation_at frame :=
      getLocalRotation
        (SplatAnimTrack.splat
           (after (SplatAnimTrack.evaluate CubicSpline_evaluate Quat_slerp frame
                     (SplatAnimTrack.rebuildSplines ev t)))) in
    rotation_at 0%Q
    = Quat_slerp (TransformKey.rotation k0) (TransformKey.rotation k1) (Num 0) /\
    rotation_at (inject_Z h)
    = Quat_slerp (TransformKey.rotation k1) (TransformKey.rotation k0) (Num 0) /\
    rotation_at (inject_Z (2 * h) * 3 / 4)%Q
    = Quat_slerp (TransformKey.rotation k1) (TransformKey.rotation k0)
                 (Num (1 # 2)).
Proof.
  intros ev t k0 k1 h Hh Hd Hbound H0 H1 Hperm.
  assert (Hsort := sort_pair k0 k1 _ ltac:(lia) Hperm).
  assert (Hrot : forall frame,
    getLocalRotation
        (SplatAnimTrack.splat
           (after (SplatAnimTrack.evaluate CubicSpline_evaluate Quat_slerp frame
                     (SplatAnimTrack.rebuildSplines ev t))))
    = match SplatAnimTrack.bracket [k0; k1] frame with
      | (Some prevKey, Some nextKey) =>
          Quat_slerp (TransformKey.rotation prevKey) (TransformKey.rotation nextKey)
            (SplatAnimTrack.factor (2 * h) prevKey nextKey frame)
      | _ => getLocalRotation (SplatAnimTrack.splat t)
      end).
  { intros frame. unfold SplatAnimTrack.evaluate,
      SplatAnimTrack.rebuildSplines. rewrite Hsort, Hd. simpl.
    unfold SplatAnimTrack.onTimelineChange_call. simpl.
    now destruct (SplatAnimTrack.bracket [k0; k1] frame) as [[?|] [?|]]. }
  assert (Hx : (0 < inject_Z h)%Q)
    by (change (inject_Z 0 < inject_Z h)%Q; now rewrite <- Zlt_Qlt).
  assert (Hnz : ~ (inject_Z h == 0)%Q) by lra.
  assert (Hh53 : Z.abs h < 2 ^ 53) by lia.
  assert (H2h53 : Z.abs (2 * h) < 2 ^ 53) by lia.
  assert (Hspan : Double.sub
                    (Double.add (Num (inject_Z 0)) (Num (inject_Z (2 * h))))
                    (Num (inject_Z h))
                  = Num (inject_Z h)).
  { rewrite (add_exact _ _ (inject_Z (2 * h)))
      by (change (inject_Z 0) with 0%Q; ring).
    rewrite round_Z by exact H2h53.
    rewrite (sub_exact _ _ (inject_Z h))
      by (rewrite inject_Z_mult; change (inject_Z 2) with 2%Q; ring).
    now apply round_Z. }
  intros rotation_at. unfold rotation_at. rewrite !Hrot, !bracket_pair, H0, H1.
  split; [|split].
  - rewrite (Qltb_ge 0 (inject_Z 0)) by apply Qle_refl.
    rewrite (Qltb_lt 0 (inject_Z h)) by exact Hx.
    unfold SplatAnimTrack.factor. rewrite H0, H1.
    rewrite Qle_bool_gt by exact Hx.
    rewrite (Qltb_ge 0 (inject_Z 0)) by apply Qle_refl.
    rewrite (sub_exact 0 (inject_Z 0) 0) by reflexivity.
    rewrite (sub_exact (inject_Z h) (inject_Z 0) (inject_Z h))
      by (change (inject_Z 0) with 0%Q; ring).
    rewrite (round_Z h) by exact Hh53.
    change (Double.round 0) with (Num 0).
    rewrite (div_exact 0 (inject_Z h) 0) by (try exact Hnz; field; exact Hnz).
    reflexivity.
  - rewrite (Qltb_ge (inject_Z h) (inject_Z 0)) by now apply Qlt_le_weak.
    rewrite (Qltb_ge (inject_Z h) (inject_Z h)) by apply Qle_refl.
    unfold SplatAnimTrack.factor. rewrite H0, H1.
    rewrite Qle_bool_le by now apply Qlt_le_weak.
    rewrite (Qltb_ge (inject_Z h) (inject_Z h)) by apply Qle_refl.
    rewrite Hspan.
    rewrite (sub_exact (inject_Z h) (inject_Z h) 0) by ring.
    change (Double.round 0) with (Num 0).
    rewrite (div_exact 0 (inject_Z h) 0) by (try exact Hnz; field; exact Hnz).
    reflexivity.
  - destruct (three_quarters (inject_Z h) Hx) as (Ha & Hb & Hc).
    rewrite inject_Z_mult. change (inject_Z 2) with 2%Q.
    change (inject_Z 0) with 0%Q.
    rewrite (Qltb_ge _ 0) by exact Ha.
    rewrite (Qltb_ge _ (inject_Z h)) by exact Hb.
    unfold SplatAnimTrack.factor. rewrite H0, H1.
    rewrite Qle_bool_le by now apply Qlt_le_weak.
    rewrite (Qltb_ge _ (inject_Z h)) by exact Hb.
    rewrite Hspan.
    rewrite (sub_exact _ _ (inject_Z h / 2)) by exact Hc.
    rewrite round_half by exact Hh53.
    rewrite (div_exact _ (inject_Z h) (1 # 2)).
    + reflexivity.
    + exact Hnz.
    + rewrite Qred_correct. field. exact Hnz.
Qed.
End Interpolation.

Lemma two_key_rotation_witness :
  let ev := Sample.timeline 100 in
  let k0 := Sample.key 0 Sample.identity in
  let k1 := Sample.key 50 Sample.half_turn in
  let t := Sample.transform_track [k1; k0; Sample.key 120 Sample.quarter] in
  let rotation_at frame :=
    getLocalRotation
      (SplatAnimTrack.splat
         (after (SplatAnimTrack.evaluate Sample.flat Sample.mean_when_close frame
                   (SplatAnimTrack.rebuildSplines ev t)))) in
  List.filter (fun k => TransformKey.frame k <? timeline_frames ev)
              (SplatAnimTrack.keyframes t) ≡ₚ [k0; k1] /\
  rotation_at 0%Q = Sample.mean_when_close Sample.identity Sample.half_turn (Num 0) /\
  rotation_at (inject_Z 50)
  = Sample.mean_when_close Sample.half_turn Sample.identity (Num 0) /\
  rotation_at (inject_Z (2 * 50) * 3 / 4)%Q
  = Sample.mean_when_close Sample.half_turn Sample.identity (Num (1 # 2)).
Proof.
  assert (Hperm :
    List.filter (fun k => TransformKey.frame k <? timeline_frames (Sample.timeline 100))
      (SplatAnimTrack.keyframes
         (Sample.transform_track
            [Sample.key 50 Sample.half_turn; Sample.key 0 Sample.identity;
             Sample.key 120 Sample.quarter]))
    ≡ₚ [Sample.key 0 Sample.identity; Sample.key 50 Sample.half_turn]).
  { simpl. apply perm_swap. }
  split; [exact Hperm|].
  apply (two_key_rotation Sample.flat Sample.mean_when_close
           (Sample.timeline 100) _ (Sample.key 0 Sample.identity)
           (Sample.key 50 Sample.half_turn) 50
           eq_refl eq_refl eq_refl eq_refl eq_refl Hperm).
Defined.

(** C5 (counterexample): the rotation assigned at a key's frame is what the
    engine's slerp answers at factor 0, which need not be the key's
    rotation. With two keys of distinct unit rotations that are nearly
    parallel, on frames 0 and 50 of a 100-frame timeline, and a slerp that
    answers the mean of nearly parallel rotations as the engine's does,
    [evaluate] at frame 0 and at frame 50 assigns neither key's rotation. *)
Lemma nearly_parallel_keys_are_blended :
  let ev := Sample.timeline 100 in
  let k0 := Sample.key 0 Sample.identity in
  let k1 := Sample.key 50 Sample.nearby in
  let t := Sample.transform_track [k0; k1] in
  let rotation_at frame :=
    getLocalRotation
      (SplatAnimTrack.splat
         (after (SplatAnimTrack.evaluate Sample.flat Sample.mean_when_close frame
                   (SplatAnimTrack.rebuildSplines ev t)))) in
  let norm q := (qx q * qx q + qy q * qy q + qz q * qz q + qw q * qw q)%Q in
  (norm (TransformKey.rotation k0) == 1)%Q /\
  (norm (TransformKey.rotation k1) == 1)%Q /\
  TransformKey.rotation k0 <> TransformKey.rotation k1 /\
  rotation_at 0%Q <> TransformKey.rotation k0 /\
  rotation_at (inject_Z 50) <> TransformKey.rotation k1.
Proof.
  repeat split; try reflexivity; vm_compute; discriminate.
Qed.

(** * The resolver *)

Lemma getActiveTrack_camera w t :
  AnimTrackEvents.getActiveTrack w = Some (CameraTrack t) ->
  AnimTrackEvents.selection_isCamera w = true /\ t = camera_animTrack w.
Proof.
  unfold AnimTrackEvents.getActiveTrack.
  destruct (AnimTrackEvents.selection_isCamera w); [now intros [= <-]|].
  destruct (selection w) as [sel|]; [|discriminate].
  destruct (AnimTrackEvents.isAnimatable sel); [|discriminate].
  now destruct (animTrack sel) as [[?|]|].
Qed.

Lemma getActiveTrack_splat w t :
  AnimTrackEvents.getActiveTrack w = Some (SplatTrack t) ->
  AnimTrackEvents.selection_isCamera w = false /\
  exists sel, selection w = Some sel /\ animTrack sel = Some (Some t).
Proof.
  unfold AnimTrackEvents.getActiveTrack.
  destruct (AnimTrackEvents.selection_isCamera w); [discriminate|].
  destruct (selection w) as [sel|]; [|discriminate].
  destruct (AnimTrackEvents.isAnimatable sel); [|discriminate].
  destruct (animTrack sel) as [[t'|]|] eqn:Ht; try discriminate.
  intros [= <-]. split; [reflexivity|]. eauto.
Qed.

(** Storing a track of the resolved kind: the resolver answers it from then
    on and nothing else has changed. *)
Lemma store_track_resolved w track track' :
  AnimTrackEvents.getActiveTrack w = Some track ->
  match track, track' with
  | CameraTrack _, CameraTrack _ | SplatTrack _, SplatTrack _ => True
  | _, _ => False
  end ->
  let w' := AnimTrackEvents.store_track track' w in
  AnimTrackEvents.getActiveTrack w' = Some track' /\
  events w' = events w /\
  (if AnimTrackEvents.selection_isCamera w then selection w' = selection w
   else camera_animTrack w' = camera_animTrack w) /\
  (track' = track -> w' = w).
Proof.
  intros Hres Hkind.
  destruct track as [t|t], track' as [t'|t']; try contradiction; simpl.
  - apply getActiveTrack_camera in Hres as [Hcam ->].
    unfold AnimTrackEvents.getActiveTrack, AnimTrackEvents.selection_isCamera in *.
    simpl. rewrite Hcam. repeat split. intros [= ->]. now destruct w.
  - apply getActiveTrack_splat in Hres as (Hcam & sel & Hsel & Htrack).
    unfold AnimTrackEvents.getActiveTrack, AnimTrackEvents.selection_isCamera in *.
    simpl. rewrite Hsel in *. simpl. rewrite Hcam. repeat split.
    intros [= ->]. destruct w as [ev s c], sel as [ty a]. simpl in *. congruence.
Qed.

(** C8: with the camera selected the resolver answers the singleton pose
    track, whatever else the selection carries; with no track resolved,
    [track.keys] is empty and the dispatched [addKey], [removeKey] and
    [moveKey] do nothing; and a dispatched [addKey] or [removeKey] without a
    frame acts on the frame of the timeline cursor: it is the resolved
    track's own [addKey] or [removeKey] of that frame, with its events and
    its exception, and the track it leaves is the one the resolver answers
    afterwards. *)
Theorem resolver_dispatch :
  (forall w,
     AnimTrackEvents.selection_isCamera w = true ->
     AnimTrackEvents.getActiveTrack w = Some (CameraTrack (camera_animTrack w))) /\
  (forall w,
     AnimTrackEvents.getActiveTrack w = None ->
     AnimTrackEvents.track_keys w = [] /\
     (forall frame, AnimTrackEvents.on_track_addKey frame w = done w []) /\
     (forall frame, AnimTrackEvents.on_track_removeKey frame w = done w []) /\
     (forall fromFrame toFrame,
        AnimTrackEvents.on_track_moveKey fromFrame toFrame w = done w [])) /\
  (forall w,
     AnimTrackEvents.on_track_addKey None w
     = AnimTrackEvents.on_track_addKey (Some (timeline_frame (events w))) w /\
     AnimTrackEvents.on_track_removeKey None w
     = AnimTrackEvents.on_track_removeKey (Some (timeline_frame (events w))) w) /\
  (forall w track,
     AnimTrackEvents.getActiveTrack w = Some track ->
     let cursor := timeline_frame (events w) in
     let added := AnimTrackOps.addKey (events w) cursor track in
     let removed := AnimTrackOps.removeKey (events w) cursor track in
     (fired (AnimTrackEvents.on_track_addKey None w) = fired added /\
      thrown (AnimTrackEvents.on_track_addKey None w) = thrown added /\
      AnimTrackEvents.getActiveTrack (after (AnimTrackEvents.on_track_addKey None w))
      = Some (after added)) /\
     (fired (AnimTrackEvents.on_track_removeKey None w) = fired removed /\
      thrown (AnimTrackEvents.on_track_removeKey None w) = thrown removed /\
      AnimTrackEvents.getActiveTrack
        (after (AnimTrackEvents.on_track_removeKey None w))
      = Some (after removed))).
Proof.
  split; [|split; [|split]].
  - intros w Hcam. unfold AnimTrackEvents.getActiveTrack. now rewrite Hcam.
  - intros w Hnone.
    unfold AnimTrackEvents.track_keys, AnimTrackEvents.on_track_addKey,
      AnimTrackEvents.on_track_removeKey, AnimTrackEvents.on_track_moveKey.
    rewrite Hnone. repeat split.
  - intros w. split; reflexivity.
  - intros w track Hres cursor added removed.
    unfold AnimTrackEvents.on_track_addKey, AnimTrackEvents.on_track_removeKey.
    rewrite Hres.
    assert (Hadded : match track, after added with
                     | CameraTrack _, CameraTrack _
                     | SplatTrack _, SplatTrack _ => True
                     | _, _ => False
                     end) by (destruct track; exact I).
    assert (Hremoved : match track, after removed with
                       | CameraTrack _, CameraTrack _
                       | SplatTrack _, SplatTrack _ => True
                       | _, _ => False
                       end) by (destruct track; exact I).
    destruct (store_track_resolved w track _ Hres Hadded) as [Ha _].
    destruct (store_track_resolved w track _ Hres Hremoved) as [Hr _].
    repeat split; assumption.
Qed.

Lemma resolver_dispatch_witness :
  let track := Sample.transform_track [Sample.key 4 Sample.quarter] in
  let w := mkWorld (Sample.timeline 100)
                   (Some (mkSelectable ElementType_camera (Some (Some track))))
                   (Sample.pose_track [Sample.pose "a" 7 Sample.east]) in
  let idle := mkWorld (Sample.timeline 100)
                      (Some (mkSelectable ElementType_splat (Some None)))
                      (Sample.pose_track [Sample.pose "a" 7 Sample.east]) in
  AnimTrackEvents.selection_isCamera w = true /\
  AnimTrackEvents.getActiveTrack w = Some (CameraTrack (camera_animTrack w)) /\
  AnimTrackEvents.getActiveTrack idle = None /\
  AnimTrackEvents.track_keys idle = [] /\
  fired (AnimTrackEvents.on_track_addKey None w) = [track_keyAdded 0] /\
  AnimTrackEvents.track_keys (after (AnimTrackEvents.on_track_addKey None w))
  = [7; 0].
Proof.
  intros track w idle.
  assert (Hcam : AnimTrackEvents.getActiveTrack w
                 = Some (CameraTrack (camera_animTrack w)))
    by (apply (proj1 resolver_dispatch); reflexivity).
  split; [reflexivity|]. split; [exact Hcam|]. split; [reflexivity|].
  split; [apply (proj1 (proj2 resolver_dispatch)); reflexivity|].
  destruct (proj2 (proj2 (proj2 resolver_dispatch)) w _ Hcam)
    as [(Hfired & _ & Hres) _].
  split; [rewrite Hfired; reflexivity|].
  unfold AnimTrackEvents.track_keys. now rewrite Hres.
Defined.

Lemma evaluate_idle_below_two_active_keys_witness :
  let ev := Sample.timeline 10 in
  let t := Sample.transform_track
             [Sample.key 3 Sample.identity; Sample.key 50 Sample.half_turn] in
  (length (List.filter (fun k => (TransformKey.frame k <? timeline_frames ev)%Z)
                       (SplatAnimTrack.keyframes t)) < 2)%nat /\
  evaluate_each (SplatAnimTrack.evaluate Sample.flat Sample.nearest)
                [0; 3; 7 # 2]%Q (SplatAnimTrack.rebuildSplines ev t)
  = done (SplatAnimTrack.rebuildSplines ev t) [].
Proof.
  assert (Hlt :
    (length (List.filter
               (fun k => (TransformKey.frame k <? timeline_frames (Sample.timeline 10))%Z)
               (SplatAnimTrack.keyframes
                  (Sample.transform_track
                     [Sample.key 3 Sample.identity;
                      Sample.key 50 Sample.half_turn]))) < 2)%nat)
    by (simpl; lia).
  split; [exact Hlt|].
  apply (proj1 (evaluate_idle_below_two_active_keys Sample.flat Sample.nearest)
           (Sample.timeline 10) _ _ Hlt).
Defined.

(** * Pose export and import *)

Lemma Vec3_of_array_pack3 v : Vec3_of_array (pack3 v) = v.
Proof. now destruct v. Qed.

Lemma imap_map_inverse {A B} (f : A -> B) (g : nat -> B -> A) l :
  (forall i x, g i (f x) = x) -> imap g (map f l) = l.
Proof.
  revert g. induction l as [|x l IH]; intros g Hg; simpl; [reflexivity|].
  rewrite Hg. f_equal. apply IH. intros i y. apply Hg.
Qed.

Lemma docDeserialize_docSerialize ev source target :
  CameraAnimTrack.poses source <> [] ->
  CameraPosesEvents.docDeserialize_poseSets ev
    (CameraPosesEvents.docSerialize_poseSets source) target
  = CameraAnimTrack.loadPoses ev (CameraAnimTrack.poses source) target.
Proof.
  intros Hne. unfold CameraPosesEvents.docSerialize_poseSets,
    CameraAnimTrack.getPoses.
  destruct (CameraAnimTrack.poses source) as [|p ps] eqn:Hposes; [congruence|].
  cbn [length Nat.eqb CameraPosesEvents.docDeserialize_poseSets set_poses].
  f_equal. f_equal. apply imap_map_inverse.
  intros i [n f pos tgt]. cbn [doc_name doc_frame doc_position doc_target default].
  now rewrite !Vec3_of_array_pack3.
Qed.

(** C9: exporting the pose track with [docSerialize.poseSets] and importing
    the result with [docDeserialize.poseSets] yields a store with the same
    records (name, frame, position, target) in the same order, whatever the
    duration. The import replaces whatever the importing track held, except
    that an empty export is not imported at all; so the statement asks the
    importing track to be empty when the exported one is, as it is for the
    exporting track itself and after [scene.clear]. *)
Theorem pose_export_import_roundtrip :
  forall ev source target,
    (CameraAnimTrack.poses source = [] -> CameraAnimTrack.poses target = []) ->
    let o := CameraPosesEvents.docDeserialize_poseSets ev
               (CameraPosesEvents.docSerialize_poseSets source) target in
    CameraAnimTrack.poses (after o) = CameraAnimTrack.poses source /\
    CameraAnimTrack.keys (after o) = CameraAnimTrack.keys source /\
    thrown o = None.
Proof.
  intros ev source target Hempty o.
  destruct (CameraAnimTrack.poses source) as [|p ps] eqn:Hposes.
  - assert (Ho : o = done target []).
    { unfold o, CameraPosesEvents.docSerialize_poseSets, CameraAnimTrack.getPoses.
      now rewrite Hposes. }
    rewrite Ho. unfold CameraAnimTrack.keys. simpl.
    rewrite Hempty, Hposes by reflexivity. repeat split.
  - assert (Ho : o = CameraAnimTrack.loadPoses ev (p :: ps) target).
    { unfold o. rewrite docDeserialize_docSerialize by (rewrite Hposes; discriminate).
      now rewrite Hposes. }
    rewrite Ho. unfold CameraAnimTrack.keys.
    rewrite camera_loadPoses_poses, Hposes. repeat split.
Qed.

Lemma pose_export_import_roundtrip_witness :
  let ev := Sample.timeline 20 in
  let source :=
    Sample.pose_track [Sample.pose "late" 50 Sample.north;
                       Sample.pose "early" 3 Sample.east] in
  let target := Sample.pose_track [Sample.pose "old" 3 Sample.origin] in
  CameraAnimTrack.poses
    (after (CameraPosesEvents.docDeserialize_poseSets ev
              (CameraPosesEvents.docSerialize_poseSets source) target))
  = CameraAnimTrack.poses source.
Proof.
  apply (pose_export_import_roundtrip (Sample.timeline 20)
           (Sample.pose_track [Sample.pose "late" 50 Sample.north;
                               Sample.pose "early" 3 Sample.east])
           (Sample.pose_track [Sample.pose "old" 3 Sample.origin])).
  simpl. discriminate.
Defined.

(** * Further properties of the keyframe stores *)

Section FindIndexIntro.
Context {A : Type}.
Implicit Types (p : A -> bool) (l : list A).

Lemma findIndex_from_Some_intro p l i k x :
  l !! k = Some x -> p x = true ->
  (forall m y, (m < k)%nat -> l !! m = Some y -> p y = false) ->
  findIndex_from p l i = Some (i + k)%nat.
Proof.
  revert i k. induction l as [|a l IH]; intros i [|k] Hx Hp Hbefore;
    simpl in *; try discriminate.
  - injection Hx as ->. rewrite Hp. f_equal. lia.
  - assert (Ha : p a = false) by (apply (Hbefore 0%nat); [lia|reflexivity]).
    rewrite Ha.
    rewrite (IH (S i) k Hx Hp).
    + f_equal. lia.
    + intros m y Hm. apply (Hbefore (S m)). lia.
Qed.

Lemma findIndex_Some_intro p l k x :
  l !! k = Some x -> p x = true ->
  (forall m y, (m < k)%nat -> l !! m = Some y -> p y = false) ->
  findIndex p l = Some k.
Proof.
  intros Hx Hp Hb. exact (findIndex_from_Some_intro p l 0 k x Hx Hp Hb).
Qed.

Lemma findIndex_from_None_intro p l i :
  (forall x, x ∈ l -> p x = false) -> findIndex_from p l i = None.
Proof.
  revert i. induction l as [|a l IH]; intros i Hall; simpl; [reflexivity|].
  rewrite (Hall a) by (apply elem_of_cons; now left).
  apply IH. intros x Hx. apply Hall, elem_of_cons. now right.
Qed.

Lemma findIndex_None_intro p l :
  (forall x, x ∈ l -> p x = false) -> findIndex p l = None.
Proof. apply findIndex_from_None_intro. Qed.
End FindIndexIntro.

Section KeyedMoves.
Context {A : Type} (key : A -> Z).
Implicit Types (l : list A) (f : Z).

Lemma findIndex_present l f :
  f ∈ map key l -> exists j, findIndex (fun x => key x =? f) l = Some j.
Proof.
  intros Hf. destruct (findIndex _ l) as [j|] eqn:Hj; [eauto|].
  now apply findIndex_key_None in Hj.
Qed.

(** In a store with unique frames the record on a frame is found where it
    is. *)
Lemma findIndex_unique l f j x :
  NoDup (map key l) -> l !! j = Some x -> key x = f ->
  findIndex (fun y => key y =? f) l = Some j.
Proof.
  intros Hnd Hx Hk. eapply findIndex_Some_intro; eauto; [lia|].
  intros m y Hm Hy. apply Z.eqb_neq. intros Heq.
  assert (m = j); [|lia].
  eapply NoDup_lookup; [exact Hnd| |].
  - rewrite map_list_lookup, Hy. reflexivity.
  - rewrite map_list_lookup, Hx. simpl. congruence.
Qed.

Lemma keys_retargeted l a b i x x' :
  NoDup (map key l) -> l !! i = Some x -> key x = a -> key x' = b ->
  a <> b -> b ∉ map key l ->
  findIndex (fun y => key y =? b) (<[i:=x']> l) = Some i /\
  findIndex (fun y => key y =? a) (<[i:=x']> l) = None /\
  NoDup (map key (<[i:=x']> l)).
Proof.
  intros Hnd Hx Ha Hb Hab Hfree.
  assert (Hi : (i < length l)%nat) by (eapply lookup_lt_Some; eauto).
  assert (Hnd' : NoDup (map key (<[i:=x']> l))).
  { rewrite map_list_insert. apply NoDup_list_insert_fresh; congruence. }
  split; [|split; [|exact Hnd']].
  - apply (findIndex_unique _ _ _ x'); auto.
    now apply list_lookup_insert_eq.
  - apply findIndex_None_intro. intros y Hy. apply Z.eqb_neq. intros Hya.
    apply list_elem_of_lookup in Hy as [m Hm].
    destruct (decide (m = i)) as [->|Hne].
    + rewrite list_lookup_insert_eq in Hm by exact Hi. congruence.
    + rewrite list_lookup_insert_ne in Hm by congruence.
      apply Hne. eapply NoDup_lookup; [exact Hnd| |].
      * rewrite map_list_lookup, Hm. reflexivity.
      * rewrite map_list_lookup, Hx. simpl. congruence.
Qed.
End KeyedMoves.

Lemma delete_pushed {A} (l : list A) x : delete (length l) (l ++ [x]) = l.
Proof. induction l as [|a l IH]; simpl; [reflexivity|]. now f_equal. Qed.

Lemma TransformKey_set_frame_back f k :
  TransformKey.set_frame (TransformKey.frame k) (TransformKey.set_frame f k) = k.
Proof. now destruct k. Qed.

Lemma Pose_set_frame_back f p :
  Pose.set_frame (Pose.frame p) (Pose.set_frame f p) = p.
Proof. now destruct p. Qed.

(** What [moveKey] computes once the source is found at [i]. *)
Lemma splat_moveKey_found ev a b t i :
  a <> b ->
  findIndex (fun k => TransformKey.frame k =? a) (SplatAnimTrack.keyframes t) = Some i ->
  SplatAnimTrack.moveKey ev a b t
  = let spliced := spliced_at TransformKey.frame b (SplatAnimTrack.keyframes t) in
    match spliced !! i with
    | None => throw (SplatAnimTrack.set_keyframes spliced t) TypeError
    | Some key =>
        done (SplatAnimTrack.rebuildSplines ev
                (SplatAnimTrack.set_keyframes
                   (<[i := TransformKey.set_frame b key]> spliced) t))
             [track_keyMoved a b]
    end.
Proof.
  intros Hab Hi. unfold SplatAnimTrack.moveKey.
  destruct (Z.eqb_spec a b) as [?|_]; [contradiction|]. now rewrite Hi.
Qed.

Lemma camera_moveKey_found ev a b t i :
  a <> b ->
  findIndex (fun p => Pose.frame p =? a) (CameraAnimTrack.poses t) = Some i ->
  CameraAnimTrack.moveKey ev a b t
  = let spliced := spliced_at Pose.frame b (CameraAnimTrack.poses t) in
    match spliced !! i with
    | None => throw (CameraAnimTrack.mk spliced (CameraAnimTrack.onTimelineChange t))
                    TypeError
    | Some pose =>
        done (CameraAnimTrack.rebuildSpline ev
                (CameraAnimTrack.mk (<[i := Pose.set_frame b pose]> spliced)
                                    (CameraAnimTrack.onTimelineChange t)))
             [track_keyMoved a b]
    end.
Proof.
  intros Hab Hi. unfold CameraAnimTrack.moveKey.
  destruct (Z.eqb_spec a b) as [?|_]; [contradiction|]. now rewrite Hi.
Qed.

(** The store [removeKey] and [moveKey] leave, on arrays of keyed records. *)
Section StoreEdits.
Context {A : Type} (key : A -> Z) (set_key : Z -> A -> A).
Hypothesis key_set_key : forall f x, key (set_key f x) = f.
Hypothesis set_key_back : forall f x, set_key (key x) (set_key f x) = x.
Implicit Types (l : list A).

Lemma removed_facts l f :
  NoDup (map key l) -> f ∈ map key l ->
  exists j, findIndex (fun x => key x =? f) l = Some j /\
            map key l !! j = Some f /\
            (f ∉ map key (delete j l)) /\
            length (delete j l) = (length l - 1)%nat.
Proof.
  intros Hnd [j Hj]%findIndex_present. exists j.
  split; [exact Hj|]. split; [now apply findIndex_key_Some|].
  split; [now apply (NoDup_delete_found key l f j)|].
  apply length_delete. apply findIndex_Some in Hj as (x & Hx & _). eauto.
Qed.

Lemma moved_to_free_facts l a b :
  NoDup (map key l) -> a ∈ map key l -> b ∉ map key l ->
  a <> b /\
  exists i x,
    findIndex (fun y => key y =? a) l = Some i /\
    spliced_at key b l = l /\
    l !! i = Some x /\ key x = a /\
    (b ∈ map key (<[i := set_key b x]> l)) /\
    (a ∉ map key (<[i := set_key b x]> l)) /\
    findIndex (fun y => key y =? b) (<[i := set_key b x]> l) = Some i /\
    spliced_at key a (<[i := set_key b x]> l) = <[i := set_key b x]> l /\
    <[i := set_key a (set_key b x)]> (<[i := set_key b x]> l) = l.
Proof.
  intros Hnd Ha Hb.
  assert (Hab : a <> b) by congruence. split; [exact Hab|].
  destruct (findIndex_present key l a Ha) as [i Hi].
  destruct (findIndex_Some _ _ _ Hi) as (x & Hx & Hkx & _).
  apply Z.eqb_eq in Hkx.
  assert (Hlt : (i < length l)%nat) by (eapply lookup_lt_Some; eauto).
  destruct (keys_retargeted key l a b i x (set_key b x) Hnd Hx Hkx
              (key_set_key b x) Hab Hb) as (Hfb & Hfa & Hnd').
  exists i, x. unfold spliced_at.
  rewrite (findIndex_absent key l b Hb), Hfa.
  repeat split; auto.
  - rewrite map_list_insert, key_set_key.
    eapply list_elem_of_lookup_2, list_lookup_insert_eq.
    now rewrite length_map.
  - now apply findIndex_key_None.
  - rewrite list_insert_insert_eq. apply list_insert_id.
    now rewrite <- Hkx, set_key_back.
Qed.
End StoreEdits.

Lemma TransformKey_frame_set_frame f k :
  TransformKey.frame (TransformKey.set_frame f k) = f.
Proof. reflexivity. Qed.

Lemma Pose_frame_set_frame f p : Pose.frame (Pose.set_frame f p) = f.
Proof. reflexivity. Qed.

(** X1: removing the keyframe of a frame that holds one (in a store with
    unique frames) completes normally, fires [keyRemoved] once, deletes
    exactly that record, the others keeping their order, and leaves no
    keyframe on the frame. *)
Theorem removeKey_present :
  (forall ev f t,
     NoDup (SplatAnimTrack.keys t) -> f ∈ SplatAnimTrack.keys t ->
     let o := SplatAnimTrack.removeKey ev f t in
     thrown o = None /\ fired o = [track_keyRemoved f] /\
     (exists j, SplatAnimTrack.keys t !! j = Some f /\
                SplatAnimTrack.keyframes (after o)
                = delete j (SplatAnimTrack.keyframes t)) /\
     (f ∉ SplatAnimTrack.keys (after o)) /\
     length (SplatAnimTrack.keyframes (after o))
     = (length (SplatAnimTrack.keyframes t) - 1)%nat) /\
  (forall ev f t,
     NoDup (CameraAnimTrack.keys t) -> f ∈ CameraAnimTrack.keys t ->
     let o := CameraAnimTrack.removeKey ev f t in
     thrown o = None /\ fired o = [track_keyRemoved f] /\
     (exists j, CameraAnimTrack.keys t !! j = Some f /\
                CameraAnimTrack.poses (after o)
                = delete j (CameraAnimTrack.poses t)) /\
     (f ∉ CameraAnimTrack.keys (after o)) /\
     length (CameraAnimTrack.poses (after o))
     = (length (CameraAnimTrack.poses t) - 1)%nat).
Proof.
  split; intros ev f t Hnd Hf.
  - destruct (removed_facts TransformKey.frame _ f Hnd Hf)
      as (j & Hj & Hlook & Hgone & Hlen).
    unfold SplatAnimTrack.removeKey, SplatAnimTrack.keys. rewrite Hj. simpl.
    rewrite splat_rebuild_keyframes. simpl. repeat split; eauto.
  - destruct (removed_facts Pose.frame _ f Hnd Hf)
      as (j & Hj & Hlook & Hgone & Hlen).
    unfold CameraAnimTrack.removeKey, CameraAnimTrack.keys. rewrite Hj. simpl.
    rewrite camera_rebuild_poses. simpl. repeat split; eauto.
Qed.

Lemma removeKey_present_witness :
  let t := Sample.pose_track [Sample.pose "a" 5 Sample.east;
                              Sample.pose "b" 2 Sample.north] in
  NoDup (CameraAnimTrack.keys t) /\ (5 ∈ CameraAnimTrack.keys t) /\
  fired (CameraAnimTrack.removeKey (Sample.timeline 100) 5 t)
  = [track_keyRemoved 5].
Proof.
  assert (Hnd : NoDup (CameraAnimTrack.keys
                         (Sample.pose_track [Sample.pose "a" 5 Sample.east;
                                             Sample.pose "b" 2 Sample.north]))).
  { apply (bool_decide_unpack _). vm_compute. exact I. }
  assert (Hin : 5 ∈ CameraAnimTrack.keys
                      (Sample.pose_track [Sample.pose "a" 5 Sample.east;
                                          Sample.pose "b" 2 Sample.north])).
  { apply (bool_decide_unpack _). vm_compute. exact I. }
  split; [exact Hnd|]. split; [exact Hin|].
  apply (proj2 removeKey_present (Sample.timeline 100) 5 _ Hnd Hin).
Defined.

(** X2: moving a keyframe onto a frame that holds none (in a store with
    unique frames) completes normally and fires [keyMoved] once; the record
    keeps its place and its payload and only its frame changes; afterwards
    the destination holds a keyframe, the source holds none, and the count
    is unchanged. *)
Theorem moveKey_to_free_frame :
  (forall ev a b t,
     NoDup (SplatAnimTrack.keys t) ->
     a ∈ SplatAnimTrack.keys t -> b ∉ SplatAnimTrack.keys t ->
     let o := SplatAnimTrack.moveKey ev a b t in
     thrown o = None /\ fired o = [track_keyMoved a b] /\
     (exists i x,
        SplatAnimTrack.keyframes t !! i = Some x /\ TransformKey.frame x = a /\
        SplatAnimTrack.keyframes (after o)
        = <[i := TransformKey.set_frame b x]> (SplatAnimTrack.keyframes t)) /\
     (b ∈ SplatAnimTrack.keys (after o)) /\
     (a ∉ SplatAnimTrack.keys (after o)) /\
     length (SplatAnimTrack.keyframes (after o))
     = length (SplatAnimTrack.keyframes t)) /\
  (forall ev a b t,
     NoDup (CameraAnimTrack.keys t) ->
     a ∈ CameraAnimTrack.keys t -> b ∉ CameraAnimTrack.keys t ->
     let o := CameraAnimTrack.moveKey ev a b t in
     thrown o = None /\ fired o = [track_keyMoved a b] /\
     (exists i x,
        CameraAnimTrack.poses t !! i = Some x /\ Pose.frame x = a /\
        CameraAnimTrack.poses (after o)
        = <[i := Pose.set_frame b x]> (CameraAnimTrack.poses t)) /\
     (b ∈ CameraAnimTrack.keys (after o)) /\
     (a ∉ CameraAnimTrack.keys (after o)) /\
     length (CameraAnimTrack.poses (after o))
     = length (CameraAnimTrack.poses t)).
Proof.
  split; intros ev a b t Hnd Ha Hb.
  - destruct (moved_to_free_facts TransformKey.frame TransformKey.set_frame
                TransformKey_frame_set_frame TransformKey_set_frame_back
                _ a b Hnd Ha Hb)
      as (Hab & i & x & Hi & Hsp & Hx & Hkx & Hin & Hout & _).
    rewrite (splat_moveKey_found ev a b t i Hab Hi), Hsp. simpl. rewrite Hx.
    unfold SplatAnimTrack.keys. simpl. rewrite splat_rebuild_keyframes. simpl.
    repeat split; eauto. apply length_insert.
  - destruct (moved_to_free_facts Pose.frame Pose.set_frame
                Pose_frame_set_frame Pose_set_frame_back
                _ a b Hnd Ha Hb)
      as (Hab & i & x & Hi & Hsp & Hx & Hkx & Hin & Hout & _).
    rewrite (camera_moveKey_found ev a b t i Hab Hi), Hsp. simpl. rewrite Hx.
    unfold CameraAnimTrack.keys. simpl. rewrite camera_rebuild_poses. simpl.
    repeat split; eauto. apply length_insert.
Qed.

Lemma moveKey_to_free_frame_witness :
  let t := Sample.transform_track [Sample.key 5 Sample.identity;
                                   Sample.key 2 Sample.half_turn] in
  NoDup (SplatAnimTrack.keys t) /\ (2 ∈ SplatAnimTrack.keys t) /\
  (9 ∉ SplatAnimTrack.keys t) /\
  fired (SplatAnimTrack.moveKey (Sample.timeline 100) 2 9 t) = [track_keyMoved 2 9].
Proof.
  assert (Hnd : NoDup (SplatAnimTrack.keys
                         (Sample.transform_track
                            [Sample.key 5 Sample.identity;
                             Sample.key 2 Sample.half_turn]))).
  { apply (bool_decide_unpack _). vm_compute. exact I. }
  assert (Hin : 2 ∈ SplatAnimTrack.keys
                      (Sample.transform_track
                         [Sample.key 5 Sample.identity;
                          Sample.key 2 Sample.half_turn])).
  { apply (bool_decide_unpack _). vm_compute. exact I. }
  assert (Hout : 9 ∉ SplatAnimTrack.keys
                       (Sample.transform_track
                          [Sample.key 5 Sample.identity;
                           Sample.key 2 Sample.half_turn])).
  { apply (bool_decide_unpack _). vm_compute. exact I. }
  split; [exact Hnd|]. split; [exact Hin|]. split; [exact Hout|].
  apply (proj1 moveKey_to_free_frame (Sample.timeline 100) 2 9 _ Hnd Hin Hout).
Defined.

Section StaleIndex.
Context {A : Type} (key : A -> Z).
Implicit Types (l : list A).

(** When the assignment after the splice finds nothing at [i]. *)
Lemma spliced_lookup_None l a b i :
  a <> b ->
  findIndex (fun y => key y =? a) l = Some i ->
  spliced_at key b l !! i = None <->
  exists j, findIndex (fun y => key y =? b) l = Some j /\
            (j < i)%nat /\ S i = length l.
Proof.
  intros Hab Hi. unfold spliced_at.
  pose proof (findIndex_lt _ _ _ Hi) as Hlt.
  pose proof (findIndex_key_Some key _ _ _ Hi) as Hai.
  destruct (findIndex (fun y => key y =? b) l) as [j|] eqn:Hj.
  - pose proof (findIndex_key_Some key _ _ _ Hj) as Hbj.
    assert (Hne : j <> i) by (intros ->; congruence).
    destruct (decide (j < i)%nat) as [Hji|Hji].
    + rewrite list_lookup_delete_ge by lia. rewrite lookup_ge_None. split.
      * intros Hge. exists j. repeat split; auto. lia.
      * intros (? & _ & _ & Hlen). lia.
    + rewrite list_lookup_delete_lt by lia. split.
      * intros Hnone. apply lookup_ge_None in Hnone. lia.
      * intros (j' & [= <-] & Hlt' & _). lia.
  - split.
    + intros Hnone. apply lookup_ge_None in Hnone. lia.
    + intros (j & [=] & _).
Qed.
End StaleIndex.

(** X3: [moveKey] throws exactly when the destination is occupied by a
    record stored before the source and the source is the last record of
    the store; it then has removed the occupant, left the source on its
    frame and fired nothing. *)
Theorem moveKey_throws_iff :
  (forall ev a b t,
     let o := SplatAnimTrack.moveKey ev a b t in
     (thrown o = Some TypeError <->
      exists i j,
        findIndex (fun k => TransformKey.frame k =? a) (SplatAnimTrack.keyframes t)
        = Some i /\
        findIndex (fun k => TransformKey.frame k =? b) (SplatAnimTrack.keyframes t)
        = Some j /\
        (j < i)%nat /\ S i = length (SplatAnimTrack.keyframes t)) /\
     (thrown o = Some TypeError ->
      fired o = [] /\
      exists j,
        findIndex (fun k => TransformKey.frame k =? b) (SplatAnimTrack.keyframes t)
        = Some j /\
        SplatAnimTrack.keyframes (after o) = delete j (SplatAnimTrack.keyframes t))) /\
  (forall ev a b t,
     let o := CameraAnimTrack.moveKey ev a b t in
     (thrown o = Some TypeError <->
      exists i j,
        findIndex (fun p => Pose.frame p =? a) (CameraAnimTrack.poses t) = Some i /\
        findIndex (fun p => Pose.frame p =? b) (CameraAnimTrack.poses t) = Some j /\
        (j < i)%nat /\ S i = length (CameraAnimTrack.poses t)) /\
     (thrown o = Some TypeError ->
      fired o = [] /\
      exists j,
        findIndex (fun p => Pose.frame p =? b) (CameraAnimTrack.poses t) = Some j /\
        CameraAnimTrack.poses (after o) = delete j (CameraAnimTrack.poses t))).
Proof.
  split; intros ev a b t o.
  - destruct (Z.eq_dec a b) as [->|Hab].
    { assert (Ho : o = done t []).
      { unfold o, SplatAnimTrack.moveKey. now rewrite Z.eqb_refl. }
      rewrite Ho. simpl. split; [split|]; try discriminate.
      intros (i & j & Hi & Hj & Hlt & _). rewrite Hi in Hj. injection Hj. lia. }
    destruct (findIndex (fun k => TransformKey.frame k =? a)
                (SplatAnimTrack.keyframes t)) as [i|] eqn:Hi.
    2:{ assert (Ho : o = done t []).
        { unfold o, SplatAnimTrack.moveKey.
          destruct (Z.eqb_spec a b); [contradiction|]. now rewrite Hi. }
        rewrite Ho. simpl. split; [split|]; try discriminate.
        intros (i & j & [=] & _). }
    pose proof (spliced_lookup_None TransformKey.frame _ a b i Hab Hi) as Hiff.
    unfold o. rewrite (splat_moveKey_found ev a b t i Hab Hi). simpl.
    destruct (spliced_at TransformKey.frame b (SplatAnimTrack.keyframes t) !! i)
      as [x|] eqn:Hx; simpl.
    + split; [split|]; try discriminate.
      intros (i' & j & [= <-] & Hj & Hlt & Hlen).
      assert (Some x = None) by (apply Hiff; eauto). discriminate.
    + destruct (proj1 Hiff eq_refl) as (j & Hj & Hlt & Hlen).
      split; [split; [eauto 6|reflexivity]|].
      intros _. split; [reflexivity|]. exists j. split; [exact Hj|].
      unfold spliced_at. now rewrite Hj.
  - destruct (Z.eq_dec a b) as [->|Hab].
    { assert (Ho : o = done t []).
      { unfold o, CameraAnimTrack.moveKey. now rewrite Z.eqb_refl. }
      rewrite Ho. simpl. split; [split|]; try discriminate.
      intros (i & j & Hi & Hj & Hlt & _). rewrite Hi in Hj. injection Hj. lia. }
    destruct (findIndex (fun p => Pose.frame p =? a)
                (CameraAnimTrack.poses t)) as [i|] eqn:Hi.
    2:{ assert (Ho : o = done t []).
        { unfold o, CameraAnimTrack.moveKey.
          destruct (Z.eqb_spec a b); [contradiction|]. now rewrite Hi. }
        rewrite Ho. simpl. split; [split|]; try discriminate.
        intros (i & j & [=] & _). }
    pose proof (spliced_lookup_None Pose.frame _ a b i Hab Hi) as Hiff.
    unfold o. rewrite (camera_moveKey_found ev a b t i Hab Hi). simpl.
    destruct (spliced_at Pose.frame b (CameraAnimTrack.poses t) !! i)
      as [x|] eqn:Hx; simpl.
    + split; [split|]; try discriminate.
      intros (i' & j & [= <-] & Hj & Hlt & Hlen).
      assert (Some x = None) by (apply Hiff; eauto). discriminate.
    + destruct (proj1 Hiff eq_refl) as (j & Hj & Hlt & Hlen).
      split; [split; [eauto 6|reflexivity]|].
      intros _. split; [reflexivity|]. exists j. split; [exact Hj|].
      unfold spliced_at. now rewrite Hj.
Qed.

Lemma moveKey_throws_iff_witness :
  let t := Sample.pose_track [Sample.pose "a" 5 Sample.east;
                              Sample.pose "b" 2 Sample.north] in
  let o := CameraAnimTrack.moveKey (Sample.timeline 100) 2 5 t in
  thrown o = Some TypeError /\
  fired o = [] /\
  exists j,
    findIndex (fun p => Pose.frame p =? 5) (CameraAnimTrack.poses t) = Some j /\
    CameraAnimTrack.poses (after o) = delete j (CameraAnimTrack.poses t).
Proof.
  split; [reflexivity|].
  apply (proj2 (proj2 moveKey_throws_iff (Sample.timeline 100) 2 5
                  (Sample.pose_track [Sample.pose "a" 5 Sample.east;
                                      Sample.pose "b" 2 Sample.north]))).
  reflexivity.
Defined.

(** X4: in a store with unique frames, moving a keyframe onto a free frame
    and back again restores the store, record for record. *)
Theorem moveKey_there_and_back :
  (forall ev ev' a b t,
     NoDup (SplatAnimTrack.keys t) ->
     a ∈ SplatAnimTrack.keys t -> b ∉ SplatAnimTrack.keys t ->
     SplatAnimTrack.keyframes
       (after (SplatAnimTrack.moveKey ev' b a
                 (after (SplatAnimTrack.moveKey ev a b t))))
     = SplatAnimTrack.keyframes t) /\
  (forall ev ev' a b t,
     NoDup (CameraAnimTrack.keys t) ->
     a ∈ CameraAnimTrack.keys t -> b ∉ CameraAnimTrack.keys t ->
     CameraAnimTrack.poses
       (after (CameraAnimTrack.moveKey ev' b a
                 (after (CameraAnimTrack.moveKey ev a b t))))
     = CameraAnimTrack.poses t).
Proof.
  split; intros ev ev' a b t Hnd Ha Hb.
  - destruct (moved_to_free_facts TransformKey.frame TransformKey.set_frame
                TransformKey_frame_set_frame TransformKey_set_frame_back
                _ a b Hnd Ha Hb)
      as (Hab & i & x & Hi & Hsp & Hx & Hkx & _ & _ & Hib & Hsp' & Hback).
    rewrite (splat_moveKey_found ev a b t i Hab Hi), Hsp. simpl. rewrite Hx.
    simpl.
    assert (Hstore : SplatAnimTrack.keyframes
                       (SplatAnimTrack.rebuildSplines ev
                          (SplatAnimTrack.set_keyframes
                             (<[i:=TransformKey.set_frame b x]>
                                (SplatAnimTrack.keyframes t)) t))
                     = <[i:=TransformKey.set_frame b x]> (SplatAnimTrack.keyframes t))
      by now rewrite splat_rebuild_keyframes.
    rewrite (splat_moveKey_found ev' b a _ i) by (congruence || now rewrite Hstore).
    rewrite Hstore, Hsp'. simpl.
    rewrite list_lookup_insert_eq by (eapply lookup_lt_Some; eauto).
    simpl. rewrite splat_rebuild_keyframes. simpl. exact Hback.
  - destruct (moved_to_free_facts Pose.frame Pose.set_frame
                Pose_frame_set_frame Pose_set_frame_back
                _ a b Hnd Ha Hb)
      as (Hab & i & x & Hi & Hsp & Hx & Hkx & _ & _ & Hib & Hsp' & Hback).
    rewrite (camera_moveKey_found ev a b t i Hab Hi), Hsp. simpl. rewrite Hx.
    simpl.
    assert (Hstore : CameraAnimTrack.poses
                       (CameraAnimTrack.rebuildSpline ev
                          (CameraAnimTrack.mk
                             (<[i:=Pose.set_frame b x]> (CameraAnimTrack.poses t))
                             (CameraAnimTrack.onTimelineChange t)))
                     = <[i:=Pose.set_frame b x]> (CameraAnimTrack.poses t))
      by now rewrite camera_rebuild_poses.
    rewrite (camera_moveKey_found ev' b a _ i) by (congruence || now rewrite Hstore).
    rewrite Hstore, Hsp'. simpl.
    rewrite list_lookup_insert_eq by (eapply lookup_lt_Some; eauto).
    simpl. rewrite camera_rebuild_poses. simpl. exact Hback.
Qed.

Lemma moveKey_there_and_back_witness :
  let t := Sample.transform_track [Sample.key 5 Sample.identity;
                                   Sample.key 2 Sample.half_turn] in
  SplatAnimTrack.keyframes
    (after (SplatAnimTrack.moveKey (Sample.timeline 4) 9 2
              (after (SplatAnimTrack.moveKey (Sample.timeline 100) 2 9 t))))
  = SplatAnimTrack.keyframes t.
Proof.
  apply (proj1 moveKey_there_and_back (Sample.timeline 100) (Sample.timeline 4) 2 9
           (Sample.transform_track [Sample.key 5 Sample.identity;
                                    Sample.key 2 Sample.half_turn]));
    apply (bool_decide_unpack _); vm_compute; exact I.
Defined.

(** X5: adding a keyframe on a free frame and removing it again restores the
    store; on the pose track this holds whether or not [camera.getPose]
    yields a pose. *)
Theorem addKey_then_removeKey :
  (forall ev ev' f t,
     f ∉ SplatAnimTrack.keys t ->
     SplatAnimTrack.keyframes
       (after (SplatAnimTrack.removeKey ev' f (after (SplatAnimTrack.addKey ev f t))))
     = SplatAnimTrack.keyframes t) /\
  (forall ev ev' f t,
     f ∉ CameraAnimTrack.keys t ->
     CameraAnimTrack.poses
       (after (CameraAnimTrack.removeKey ev' f (after (CameraAnimTrack.addKey ev f t))))
     = CameraAnimTrack.poses t).
Proof.
  split; intros ev ev' f t Hf.
  - pose proof (findIndex_absent TransformKey.frame _ _ Hf) as Hnone.
    unfold SplatAnimTrack.addKey. rewrite Hnone. simpl.
    unfold SplatAnimTrack.removeKey. rewrite splat_rebuild_keyframes. simpl.
    rewrite (findIndex_push _ _ _ Hnone) by (simpl; lia). simpl.
    rewrite splat_rebuild_keyframes. simpl. apply delete_pushed.
  - pose proof (findIndex_absent Pose.frame _ _ Hf) as Hnone.
    unfold CameraAnimTrack.addKey.
    destruct (camera_getPose ev) as [pose|]; simpl.
    + rewrite Hnone. simpl.
      unfold CameraAnimTrack.removeKey. rewrite camera_rebuild_poses. simpl.
      rewrite (findIndex_push _ _ _ Hnone) by (simpl; lia). simpl.
      rewrite camera_rebuild_poses. simpl. apply delete_pushed.
    + unfold CameraAnimTrack.removeKey. now rewrite Hnone.
Qed.

Lemma addKey_then_removeKey_witness :
  let t := Sample.pose_track [Sample.pose "a" 5 Sample.east] in
  CameraAnimTrack.poses
    (after (CameraAnimTrack.removeKey (Sample.timeline 100) 3
              (after (CameraAnimTrack.addKey (Sample.timeline 100) 3 t))))
  = CameraAnimTrack.poses t.
Proof.
  apply (proj2 addKey_then_removeKey (Sample.timeline 100) (Sample.timeline 100) 3
           (Sample.pose_track [Sample.pose "a" 5 Sample.east])).
  apply (bool_decide_unpack _). vm_compute. exact I.
Defined.

(** X6: in a store with unique frames, moving a keyframe onto a frame whose
    occupant is stored after it completes normally and fires [keyMoved]
    once: the occupant is deleted, the source record keeps its place and its
    payload and takes the destination frame, which then holds exactly one
    keyframe, and the count drops by one. *)
Theorem moveKey_onto_later_occupant :
  (forall ev a b t i j,
     NoDup (SplatAnimTrack.keys t) -> a <> b ->
     findIndex (fun k => TransformKey.frame k =? a) (SplatAnimTrack.keyframes t)
     = Some i ->
     findIndex (fun k => TransformKey.frame k =? b) (SplatAnimTrack.keyframes t)
     = Some j ->
     (i < j)%nat ->
     exists x,
       SplatAnimTrack.keyframes t !! i = Some x /\ TransformKey.frame x = a /\
       let o := SplatAnimTrack.moveKey ev a b t in
       thrown o = None /\ fired o = [track_keyMoved a b] /\
       SplatAnimTrack.keyframes (after o)
       = <[i := TransformKey.set_frame b x]> (delete j (SplatAnimTrack.keyframes t)) /\
       length (SplatAnimTrack.keyframes (after o))
       = (length (SplatAnimTrack.keyframes t) - 1)%nat /\
       count_at b (SplatAnimTrack.keys (after o)) = 1%nat) /\
  (forall ev a b t i j,
     NoDup (CameraAnimTrack.keys t) -> a <> b ->
     findIndex (fun p => Pose.frame p =? a) (CameraAnimTrack.poses t) = Some i ->
     findIndex (fun p => Pose.frame p =? b) (CameraAnimTrack.poses t) = Some j ->
     (i < j)%nat ->
     exists x,
       CameraAnimTrack.poses t !! i = Some x /\ Pose.frame x = a /\
       let o := CameraAnimTrack.moveKey ev a b t in
       thrown o = None /\ fired o = [track_keyMoved a b] /\
       CameraAnimTrack.poses (after o)
       = <[i := Pose.set_frame b x]> (delete j (CameraAnimTrack.poses t)) /\
       length (CameraAnimTrack.poses (after o))
       = (length (CameraAnimTrack.poses t) - 1)%nat /\
       count_at b (CameraAnimTrack.keys (after o)) = 1%nat).
Proof.
  split; intros ev a b t i j Hnd Hab Hi Hj Hij.
  - now apply splat_moveKey_source_first.
  - now apply camera_moveKey_source_first.
Qed.

Lemma moveKey_onto_later_occupant_witness :
  let t := Sample.transform_track [Sample.key 2 Sample.half_turn;
                                   Sample.key 5 Sample.identity] in
  exists x,
    SplatAnimTrack.keyframes t !! 0%nat = Some x /\ TransformKey.frame x = 2 /\
    let o := SplatAnimTrack.moveKey (Sample.timeline 100) 2 5 t in
    thrown o = None /\ fired o = [track_keyMoved 2 5] /\
    SplatAnimTrack.keyframes (after o)
    = <[0%nat := TransformKey.set_frame 5 x]>
        (delete 1%nat (SplatAnimTrack.keyframes t)) /\
    length (SplatAnimTrack.keyframes (after o))
    = (length (SplatAnimTrack.keyframes t) - 1)%nat /\
    count_at 5 (SplatAnimTrack.keys (after o)) = 1%nat.
Proof.
  apply (proj1 moveKey_onto_later_occupant (Sample.timeline 100) 2 5
           (Sample.transform_track [Sample.key 2 Sample.half_turn;
                                    Sample.key 5 Sample.identity]) 0%nat 1%nat).
  - apply (bool_decide_unpack _). vm_compute. exact I.
  - discriminate.
  - reflexivity.
  - reflexivity.
  - lia.
Defined.

Lemma TransformKey_copy data :
  map (fun kf =>
         TransformKey.mk (TransformKey.frame kf)
           (mkVec3 (vx (TransformKey.position kf)) (vy (TransformKey.position kf))
                   (vz (TransformKey.position kf)))
           (mkQuat (qx (TransformKey.rotation kf)) (qy (TransformKey.rotation kf))
                   (qz (TransformKey.rotation kf)) (qw (TransformKey.rotation kf)))
           (mkVec3 (vx (TransformKey.scale kf)) (vy (TransformKey.scale kf))
                   (vz (TransformKey.scale kf))))
      data
  = data.
Proof.
  induction data as [|[f [] [] []] data IH]; simpl; [reflexivity|].
  now rewrite IH.
Qed.

(** X7: loading from an array other than the store replaces the store,
    whatever it held, by exactly the given records in the given order, and
    fires [keysLoaded] once with their frames. Loading the array that
    [getKeyframes] or [getPoses] returned, which is the store itself,
    empties the track: the store is truncated before it is read, so no
    record is left, [keysLoaded] is fired with no frame and there is no
    interpolation state. *)
Theorem load_replaces_store :
  (forall ev (data : list TransformKey.t) t,
     let o := SplatAnimTrack.loadKeyframes ev (an_array data) t in
     thrown o = None /\
     SplatAnimTrack.getKeyframes (after o) = data /\
     fired o = [track_keysLoaded (map TransformKey.frame data)]) /\
  (forall ev t,
     let o := SplatAnimTrack.loadKeyframes ev the_store t in
     thrown o = None /\
     SplatAnimTrack.getKeyframes (after o) = [] /\
     fired o = [track_keysLoaded []] /\
     SplatAnimTrack.onTimelineChange (after o) = None) /\
  (forall ev (data : list Pose.t) t,
     let o := CameraAnimTrack.loadPoses ev (an_array data) t in
     thrown o = None /\
     CameraAnimTrack.getPoses (after o) = data /\
     fired o = [track_keysLoaded (map Pose.frame data)]) /\
  (forall ev t,
     let o := CameraAnimTrack.loadPoses ev the_store t in
     thrown o = None /\
     CameraAnimTrack.getPoses (after o) = [] /\
     fired o = [track_keysLoaded []] /\
     CameraAnimTrack.onTimelineChange (after o) = None).
Proof.
  split; [|split; [|split]].
  - intros ev data t o.
    assert (Hk : SplatAnimTrack.keyframes (after o) = data).
    { unfold o, SplatAnimTrack.loadKeyframes. simpl.
      rewrite splat_rebuild_keyframes. simpl. apply TransformKey_copy. }
    split; [reflexivity|]. split; [exact Hk|].
    assert (Hf : fired o = [track_keysLoaded (SplatAnimTrack.keys (after o))])
      by reflexivity.
    rewrite Hf. unfold SplatAnimTrack.keys. now rewrite Hk.
  - intros ev t o. repeat split.
  - intros ev data t o.
    assert (Hk : CameraAnimTrack.poses (after o) = data)
      by apply camera_loadPoses_poses.
    split; [reflexivity|]. split; [exact Hk|].
    assert (Hf : fired o = [track_keysLoaded (CameraAnimTrack.keys (after o))])
      by reflexivity.
    rewrite Hf. unfold CameraAnimTrack.keys. now rewrite Hk.
  - intros ev t o. repeat split.
Qed.

(** X8: [addPose] ignores a pose without a frame. A pose with a frame is
    stored as given: over the first record of that frame when there is one
    (frames and count unchanged), appended otherwise. Either way nothing is
    fired. *)
Theorem addPose_stores_pose :
  forall ev pose t,
    let o := CameraAnimTrack.addPose ev pose t in
    thrown o = None /\ fired o = [] /\
    match like_frame pose with
    | None => after o = t
    | Some f =>
        let stored := Pose.mk (like_name pose) f (like_position pose)
                              (like_target pose) in
        stored ∈ CameraAnimTrack.poses (after o) /\
        match findIndex (fun p => Pose.frame p =? f) (CameraAnimTrack.poses t) with
        | Some j =>
            CameraAnimTrack.poses (after o) = <[j := stored]> (CameraAnimTrack.poses t) /\
            CameraAnimTrack.keys (after o) = CameraAnimTrack.keys t
        | None =>
            (f ∉ CameraAnimTrack.keys t) /\
            CameraAnimTrack.poses (after o) = CameraAnimTrack.poses t ++ [stored]
        end
    end.
Proof.
  intros ev pose t o. unfold o, CameraAnimTrack.addPose, CameraAnimTrack.keys.
  destruct (like_frame pose) as [f|]; simpl; [|repeat split].
  rewrite camera_rebuild_poses. simpl.
  destruct (findIndex _ _) as [j|] eqn:Hj; repeat split.
  - eapply list_elem_of_lookup_2, list_lookup_insert_eq.
    eapply findIndex_lt, Hj.
  - eapply keys_overwrite; eauto.
  - apply elem_of_app. right. apply list_elem_of_singleton. reflexivity.
  - now apply findIndex_key_None.
Qed.

Lemma imap_frames {A} (h : nat -> A -> Pose.t) (g : nat -> Z) l :
  (forall i d, d ∈ l -> Pose.frame (h i d) = g i) ->
  map Pose.frame (imap h l) = map g (seq 0 (length l)).
Proof.
  revert h g. induction l as [|x l IH]; intros h g Hg; simpl; [reflexivity|].
  rewrite Hg by (apply elem_of_cons; now left). f_equal.
  rewrite <- seq_shift, map_map. apply IH.
  intros i d Hd. apply Hg. apply elem_of_cons. now right.
Qed.

Lemma imap_names {A} (h : nat -> A -> Pose.t) (g : A -> string) l :
  (forall i d, Pose.name (h i d) = g d) ->
  map Pose.name (imap h l) = map g l.
Proof.
  revert h. induction l as [|x l IH]; intros h Hg; simpl; [reflexivity|].
  rewrite Hg. f_equal. apply IH. intros i d. apply Hg.
Qed.

(** X9: importing a legacy pose set, whose records carry no frame, puts
    record number [i] on frame [i * frameRate], names and order kept; with a
    non-zero frame rate these frames are pairwise distinct. Only the first
    pose set of the document is read. *)
Theorem import_without_frames :
  forall ev poseSet rest t,
    Forall (fun d => doc_frame d = None) (set_poses poseSet) ->
    let o := CameraPosesEvents.docDeserialize_poseSets ev (poseSet :: rest) t in
    CameraAnimTrack.keys (after o)
    = map (fun i => Z.of_nat i * timeline_frameRate ev)
          (seq 0 (length (set_poses poseSet))) /\
    map Pose.name (CameraAnimTrack.poses (after o))
    = map doc_name (set_poses poseSet) /\
    (timeline_frameRate ev <> 0 -> unique_frames (CameraAnimTrack.keys (after o))).
Proof.
  intros ev poseSet rest t Hnone o.
  assert (Hkeys : CameraAnimTrack.keys (after o)
                  = map (fun i => Z.of_nat i * timeline_frameRate ev)
                        (seq 0 (length (set_poses poseSet)))).
  { unfold o, CameraPosesEvents.docDeserialize_poseSets, CameraAnimTrack.keys.
    rewrite camera_loadPoses_poses. apply imap_frames.
    intros i d Hd. simpl.
    rewrite Forall_forall in Hnone. now rewrite (Hnone d Hd). }
  split; [exact Hkeys|]. split.
  - unfold o, CameraPosesEvents.docDeserialize_poseSets.
    rewrite camera_loadPoses_poses. now apply imap_names.
  - intros Hfps. unfold unique_frames. rewrite Hkeys.
    assert (Hinj : Inj eq eq (fun i => Z.of_nat i * timeline_frameRate ev)).
    { intros i j Hij. apply Z.mul_cancel_r in Hij; [lia|exact Hfps]. }
    apply (NoDup_fmap_2 _), NoDup_seq.
Qed.

Lemma import_without_frames_witness :
  let docs := [mkDocPose "a" None (1, 0, 0)%Q (0, 0, 0)%Q;
               mkDocPose "b" None (0, 0, 1)%Q (0, 0, 0)%Q;
               mkDocPose "c" None (0, 1, 0)%Q (0, 0, 0)%Q] in
  let o := CameraPosesEvents.docDeserialize_poseSets (Sample.timeline 100)
             [mkPoseSet "set0" docs] CameraAnimTrack.new in
  Forall (fun d => doc_frame d = None) docs /\
  CameraAnimTrack.keys (after o) = [0; 30; 60] /\
  unique_frames (CameraAnimTrack.keys (after o)).
Proof.
  assert (Hnone : Forall (fun d => doc_frame d = None)
                    [mkDocPose "a" None (1, 0, 0)%Q (0, 0, 0)%Q;
                     mkDocPose "b" None (0, 0, 1)%Q (0, 0, 0)%Q;
                     mkDocPose "c" None (0, 1, 0)%Q (0, 0, 0)%Q])
    by (repeat constructor).
  split; [exact Hnone|]. split; [reflexivity|].
  apply (import_without_frames (Sample.timeline 100)
           (mkPoseSet "set0" _) [] CameraAnimTrack.new Hnone).
  discriminate.
Defined.

(** * Rebuilding and evaluating *)

Section SortFacts.
Context {A : Type} (key : A -> Z).
Implicit Types (l : list A).

Lemma insert_sorted_perm x l : insert_sorted key x l ≡ₚ x :: l.
Proof.
  induction l as [|y l IH]; simpl; [reflexivity|].
  destruct (key x <=? key y); [reflexivity|].
  rewrite IH. apply perm_swap.
Qed.

Lemma sort_by_perm l : sort_by key l ≡ₚ l.
Proof.
  induction l as [|x l IH]; simpl; [reflexivity|].
  now rewrite insert_sorted_perm, IH.
Qed.

Lemma insert_sorted_keys_sorted x l :
  StronglySorted Z.le (map key l) ->
  StronglySorted Z.le (map key (insert_sorted key x l)).
Proof.
  induction l as [|y l IH]; simpl; intros Hs.
  - repeat constructor.
  - apply StronglySorted_inv in Hs as [Hs Hall].
    destruct (Z.leb_spec (key x) (key y)) as [Hle|Hgt]; simpl.
    + constructor; [constructor; assumption|].
      constructor; [exact Hle|].
      eapply Forall_impl; [exact Hall|]. simpl. intros z Hz. lia.
    + constructor; [now apply IH|].
      rewrite (insert_sorted_perm x l). simpl.
      constructor; [lia|exact Hall].
Qed.

Lemma sort_by_keys_sorted l : StronglySorted Z.le (map key (sort_by key l)).
Proof.
  induction l as [|x l IH]; simpl; [constructor|].
  now apply insert_sorted_keys_sorted.
Qed.

Lemma sort_by_keys_perm l : map key (sort_by key l) ≡ₚ map key l.
Proof. apply Permutation_map, sort_by_perm. Qed.
End SortFacts.

Lemma sorted_NoDup_strict (l : list Z) :
  StronglySorted Z.le l -> NoDup l -> StronglySorted Z.lt l.
Proof.
  induction 1 as [|a l Hs IH Hall]; intros Hnd; [constructor|].
  apply NoDup_cons in Hnd as [Ha Hnd]. constructor; [auto|].
  rewrite Forall_forall in *. intros x Hx.
  assert (a <> x) by (intros ->; contradiction).
  specialize (Hall x Hx). lia.
Qed.

Lemma filter_keys_below {A} (key : A -> Z) d l :
  Forall (fun f => f < d) (map key (List.filter (fun x => key x <? d) l)).
Proof.
  induction l as [|x l IH]; simpl; [constructor|].
  destruct (Z.ltb_spec (key x) d); simpl; [constructor|]; auto.
Qed.

Lemma filter_keys_NoDup {A} (key : A -> Z) (p : A -> bool) l :
  NoDup (map key l) -> NoDup (map key (List.filter p l)).
Proof.
  induction l as [|x l IH]; simpl; [auto|].
  intros [Hx Hnd]%NoDup_cons. destruct (p x) eqn:Hp; simpl; [|auto].
  apply NoDup_cons. split; [|auto].
  intros (y & Hy & Hin)%list_elem_of_fmap. apply Hx.
  apply list_elem_of_fmap. exists y. split; [exact Hy|].
  apply list_elem_of_In. apply list_elem_of_In in Hin.
  now apply List.filter_In in Hin.
Qed.

Lemma flat_map_length_const {A B} (f : A -> list B) n l :
  (forall x, length (f x) = n) -> length (flat_map f l) = (n * length l)%nat.
Proof.
  intros Hf. induction l as [|x l IH]; simpl; [lia|].
  rewrite length_app, Hf, IH. lia.
Qed.

(** X10: what a rebuild hands to the spline primitive. With fewer than two
    active keyframes there is no interpolation state at all. Otherwise the
    splines are fitted with the timeline's duration as period and its
    smoothness, over sample times that are the frames of the active
    keyframes in ascending order, all below the duration, with three values
    per sample for position and for scale (six for a pose); the keys kept
    for the rotation search are the active keyframes in that same order. *)
Theorem rebuild_spline_inputs :
  (forall ev t,
     let active :=
       List.filter (fun k => TransformKey.frame k <? timeline_frames ev)
                   (SplatAnimTrack.keyframes t) in
     let t' := SplatAnimTrack.rebuildSplines ev t in
     match SplatAnimTrack.positionSpline t', SplatAnimTrack.scaleSpline t',
           SplatAnimTrack.onTimelineChange t' with
     | Some ps, Some ss, Some c =>
         (2 <= length active)%nat /\
         SplatAnimTrack.rotationKeys c ≡ₚ active /\
         SplatAnimTrack.duration c = timeline_frames ev /\
         spline_times ps = map TransformKey.frame (SplatAnimTrack.rotationKeys c) /\
         spline_times ss = spline_times ps /\
         StronglySorted Z.le (spline_times ps) /\
         Forall (fun f => f < timeline_frames ev) (spline_times ps) /\
         spline_length ps = timeline_frames ev /\
         spline_length ss = timeline_frames ev /\
         spline_smoothness ps = timeline_smoothness ev /\
         spline_smoothness ss = timeline_smoothness ev /\
         length (spline_points ps) = (3 * length (spline_times ps))%nat /\
         length (spline_points ss) = (3 * length (spline_times ss))%nat
     | None, None, None => (length active < 2)%nat
     | _, _, _ => False
     end) /\
  (forall ev t,
     let active :=
       List.filter (fun p => Pose.frame p <? timeline_frames ev)
                   (CameraAnimTrack.poses t) in
     match CameraAnimTrack.onTimelineChange (CameraAnimTrack.rebuildSpline ev t) with
     | Some c =>
         let s := CameraAnimTrack.spline c in
         (2 <= length active)%nat /\
         spline_times s ≡ₚ map Pose.frame active /\
         StronglySorted Z.le (spline_times s) /\
         Forall (fun f => f < timeline_frames ev) (spline_times s) /\
         spline_length s = timeline_frames ev /\
         spline_smoothness s = timeline_smoothness ev /\
         length (spline_points s) = (6 * length (spline_times s))%nat
     | None => (length active < 2)%nat
     end).
Proof.
  split; intros ev t active.
  - unfold SplatAnimTrack.rebuildSplines. fold active.
    rewrite sort_by_length.
    destruct (Nat.ltb_spec (length active) 2) as [Hlt|Hge]; simpl; [exact Hlt|].
    repeat split; try exact Hge.
    + apply sort_by_perm.
    + apply sort_by_keys_sorted.
    + rewrite (sort_by_keys_perm TransformKey.frame active).
      apply filter_keys_below.
    + rewrite length_map, (flat_map_length_const _ 3%nat) by reflexivity. lia.
    + rewrite length_map, (flat_map_length_const _ 3%nat) by reflexivity. lia.
  - unfold CameraAnimTrack.rebuildSpline. fold active.
    rewrite sort_by_length.
    destruct (Nat.ltb_spec 1 (length active)) as [Hlt|Hge]; simpl; [|lia].
    repeat split; try exact Hlt.
    + apply sort_by_keys_perm.
    + apply sort_by_keys_sorted.
    + rewrite (sort_by_keys_perm Pose.frame active).
      apply filter_keys_below.
    + rewrite length_map, (flat_map_length_const _ 6%nat) by reflexivity. lia.
Qed.

Section BracketSearch.
Import TransformKey.
Implicit Types (keys rest : list TransformKey.t) (f : Q).

Lemma Qltb_lt' a b : (a < b)%Q -> Qltb a b = true.
Proof. unfold Qltb. now intros ->%Qlt_alt. Qed.

Lemma Qltb_ge' a b : (b <= a)%Q -> Qltb a b = false.
Proof. unfold Qltb. intros H%Qge_alt. now destruct (a ?= b)%Q. Qed.

(** The loop stops at the first key beyond the frame. *)
Lemma bracket_loop_hit keys f i r1 n r2 prevKey nextKey :
  Forall (fun k => (inject_Z (frame k) <= f)%Q) r1 ->
  (f < inject_Z (frame n))%Q ->
  SplatAnimTrack.bracket_loop keys f i (r1 ++ n :: r2) prevKey nextKey
  = (keys !! (if (0 <? i + length r1)%nat then (i + length r1 - 1)%nat
              else (length keys - 1)%nat),
     Some n).
Proof.
  intros Hbelow Hn. revert i prevKey nextKey.
  induction Hbelow as [|x r1 Hx Hbelow IH]; intros i prevKey nextKey; simpl.
  - rewrite Qltb_lt' by exact Hn. now rewrite Nat.add_0_r.
  - rewrite Qltb_ge' by exact Hx.
    replace (i + S (length r1))%nat with (S i + length r1)%nat by lia.
    destruct (i =? length keys - 1)%nat; apply IH.
Qed.

(** With no key beyond the frame the loop ends on the wrap segment. *)
Lemma bracket_loop_miss keys f i rest prevKey nextKey :
  Forall (fun k => (inject_Z (frame k) <= f)%Q) rest ->
  (i + length rest)%nat = length keys -> rest <> [] ->
  SplatAnimTrack.bracket_loop keys f i rest prevKey nextKey
  = (last rest, keys !! 0%nat).
Proof.
  intros Hbelow. revert i prevKey nextKey.
  induction Hbelow as [|x rest Hx Hbelow IH]; intros i prevKey nextKey Hlen Hne;
    [congruence|].
  simpl in *. rewrite Qltb_ge' by exact Hx.
  destruct rest as [|y rest].
  - simpl. replace (i =? length keys - 1)%nat with true; [reflexivity|].
    symmetry. apply Nat.eqb_eq. simpl in Hlen. lia.
  - destruct (i =? length keys - 1)%nat;
      rewrite IH by (simpl in *; (lia || discriminate)); reflexivity.
Qed.

Lemma bracket_below_first first rest f :
  (f < inject_Z (frame first))%Q ->
  SplatAnimTrack.bracket (first :: rest) f = (last (first :: rest), Some first).
Proof.
  intros Hf. unfold SplatAnimTrack.bracket.
  rewrite (bracket_loop_hit _ f 0 [] first rest) by (auto; constructor).
  rewrite last_lookup. simpl. now rewrite Nat.sub_0_r.
Qed.

Lemma bracket_inside l1 p n l2 f :
  Forall (fun k => (inject_Z (frame k) <= f)%Q) (l1 ++ [p]) ->
  (f < inject_Z (frame n))%Q ->
  SplatAnimTrack.bracket (l1 ++ p :: n :: l2) f = (Some p, Some n).
Proof.
  intros Hbelow Hn. unfold SplatAnimTrack.bracket.
  replace (l1 ++ p :: n :: l2) with ((l1 ++ [p]) ++ n :: l2) at 2
    by now rewrite <- app_assoc.
  rewrite bracket_loop_hit by assumption.
  rewrite length_app. simpl. f_equal.
  replace (0 <? length l1 + 1)%nat with true
    by (symmetry; apply Nat.ltb_lt; lia).
  apply list_lookup_middle. lia.
Qed.

Lemma bracket_beyond_last first rest f :
  Forall (fun k => (inject_Z (frame k) <= f)%Q) (first :: rest) ->
  SplatAnimTrack.bracket (first :: rest) f = (last (first :: rest), Some first).
Proof.
  intros Hbelow. unfold SplatAnimTrack.bracket.
  now rewrite bracket_loop_miss by (auto || discriminate).
Qed.

(** X11: the bracket search. A frame below the first key or at or beyond
    every key is bracketed by the last and the first key (the wrap segment);
    otherwise by the last key at or before the frame and the key that
    follows it. *)
Theorem bracket_search_spec :
  (forall first rest f,
     (f < inject_Z (frame first))%Q ->
     SplatAnimTrack.bracket (first :: rest) f
     = (last (first :: rest), Some first)) /\
  (forall l1 p n l2 f,
     Forall (fun k => (inject_Z (frame k) <= f)%Q) (l1 ++ [p]) ->
     (f < inject_Z (frame n))%Q ->
     SplatAnimTrack.bracket (l1 ++ p :: n :: l2) f = (Some p, Some n)) /\
  (forall first rest f,
     Forall (fun k => (inject_Z (frame k) <= f)%Q) (first :: rest) ->
     SplatAnimTrack.bracket (first :: rest) f
     = (last (first :: rest), Some first)).
Proof.
  split; [|split].
  - intros first rest f. apply bracket_below_first.
  - intros l1 p n l2 f. apply bracket_inside.
  - intros first rest f. apply bracket_beyond_last.
Qed.
End BracketSearch.

Lemma bracket_search_spec_witness :
  let k0 := Sample.key 0 Sample.identity in
  let k1 := Sample.key 10 Sample.half_turn in
  let k2 := Sample.key 50 Sample.quarter in
  SplatAnimTrack.bracket [k0; k1; k2] 20%Q = (Some k1, Some k2) /\
  SplatAnimTrack.bracket [k0; k1; k2] 70%Q = (Some k2, Some k0).
Proof.
  split.
  - apply (proj1 (proj2 bracket_search_spec) [Sample.key 0 Sample.identity]
             (Sample.key 10 Sample.half_turn) (Sample.key 50 Sample.quarter) []).
    + repeat constructor; unfold Qle; simpl; lia.
    + unfold Qlt. simpl. lia.
  - apply (proj2 (proj2 bracket_search_spec) (Sample.key 0 Sample.identity)
             [Sample.key 10 Sample.half_turn; Sample.key 50 Sample.quarter]).
    repeat constructor; unfold Qle; simpl; lia.
Defined.

Lemma factor_clamped d p n f :
  SplatAnimTrack.factor d p n f = NaN \/
  exists q, SplatAnimTrack.factor d p n f = Num q /\ (0 <= q)%Q /\ (q <= 1)%Q.
Proof. unfold SplatAnimTrack.factor. apply clamp_is_unit. Qed.

(** The span of a segment between keys on frames of the timeline, in
    doubles: exact and positive. *)
Lemma span_exact d pf nf :
  0 <= pf < d -> 0 <= nf < d -> d < 2 ^ 52 ->
  let span := if nf <=? pf then nf + d - pf else nf - pf in
  0 < span /\
  Double.sub
    (if Qle_bool (inject_Z nf) (inject_Z pf)
     then Double.add (Num (inject_Z nf)) (Num (inject_Z d))
     else Num (inject_Z nf))
    (Num (inject_Z pf))
  = Num (inject_Z span).
Proof.
  intros Hp Hn Hd span. unfold span.
  destruct (Z.leb_spec nf pf) as [Hle|Hlt].
  - split; [lia|].
    rewrite Qle_bool_le by now rewrite <- Zle_Qle.
    rewrite (add_exact _ _ (inject_Z (nf + d))) by now rewrite inject_Z_plus.
    rewrite round_Z by lia.
    rewrite (sub_exact _ _ (inject_Z (nf + d - pf)))
      by (unfold Z.sub; rewrite !inject_Z_plus, inject_Z_opp; ring).
    apply round_Z. lia.
  - split; [lia|].
    rewrite Qle_bool_gt by now rewrite <- Zlt_Qlt.
    rewrite (sub_exact _ _ (inject_Z (nf - pf)))
      by (unfold Z.sub; rewrite !inject_Z_plus, inject_Z_opp; ring).
    apply round_Z. lia.
Qed.

(** The factor at an integer frame between keys on frames of the timeline:
    the exact share, rounded once and clamped. *)
Lemma factor_at_integer d p n z :
  let pf := TransformKey.frame p in
  let nf := TransformKey.frame n in
  0 <= pf < d -> 0 <= nf < d -> d < 2 ^ 52 -> Z.abs z < 2 ^ 52 ->
  let span := if nf <=? pf then nf + d - pf else nf - pf in
  let elapsed := if z <? pf then z + d - pf else z - pf in
  SplatAnimTrack.factor d p n (inject_Z z)
  = Double.max (Num 0)
      (Double.min (Num 1) (Double.round (inject_Z elapsed / inject_Z span))).
Proof.
  intros pf nf Hp Hn Hd Hz span elapsed.
  destruct (span_exact d pf nf Hp Hn Hd) as [Hpos Hspan]. fold span in Hpos, Hspan.
  unfold SplatAnimTrack.factor. fold pf nf. rewrite Hspan.
  assert (Hnz : ~ (inject_Z span == 0)%Q).
  { change 0%Q with (inject_Z 0). rewrite inject_Z_injective. lia. }
  unfold elapsed. destruct (Z.ltb_spec z pf) as [Hlt|Hge].
  - rewrite Qltb_lt by now rewrite <- Zlt_Qlt.
    rewrite (add_exact _ _ (inject_Z (z + d))) by now rewrite inject_Z_plus.
    rewrite round_Z by lia.
    rewrite (sub_exact _ _ (inject_Z (z + d - pf)))
      by (unfold Z.sub; rewrite !inject_Z_plus, inject_Z_opp; ring).
    rewrite round_Z by lia.
    now rewrite (div_exact _ _ _ Hnz (Qeq_refl _)).
  - rewrite Qltb_ge by now rewrite <- Zle_Qle.
    rewrite (sub_exact _ _ (inject_Z (z - pf)))
      by (unfold Z.sub; rewrite !inject_Z_plus, inject_Z_opp; ring).
    rewrite round_Z by lia.
    now rewrite (div_exact _ _ _ Hnz (Qeq_refl _)).
Qed.

(** A segment of no length: with keys on frames -100 and 0 and a duration
    of 100 the wrap segment starts and ends on frame 0. The factor at its
    start is [0 / 0], which stays NaN through the clamp, and past it a
    positive number over 0, an infinity that the clamp brings down to 1. *)
Example factor_on_zero_span :
  let last := Sample.key 0 Sample.identity in
  let first := Sample.key (-100) Sample.half_turn in
  SplatAnimTrack.factor 100 last first 0%Q = NaN /\
  SplatAnimTrack.factor 100 last first (inject_Z 50) = Num 1.
Proof. split; reflexivity. Qed.

(** X12: the interpolation factor of the rotation. Whatever the keys and
    the frame, it is NaN or a number of [0, 1]. For keys on frames of the
    timeline (from 0 up to the duration, the duration below [2^52]) and an
    integer frame it is a number: inside a segment the double nearest to
    the elapsed share of the segment; on the wrap segment, whose end is
    the first key one duration later, the double nearest to the elapsed
    share counted from the last key, for a frame after the last key as for
    a frame before the first. *)
Theorem factor_values :
  forall d p n f,
    let pf := TransformKey.frame p in
    let nf := TransformKey.frame n in
    (SplatAnimTrack.factor d p n f = NaN \/
     exists q, SplatAnimTrack.factor d p n f = Num q /\ (0 <= q)%Q /\ (q <= 1)%Q) /\
    (forall z,
       0 <= pf < d -> 0 <= nf < d -> d < 2 ^ 52 -> Z.abs z < 2 ^ 52 ->
       let t := SplatAnimTrack.factor d p n (inject_Z z) in
       (pf <= z < nf ->
        t = Double.round (inject_Z (z - pf) / inject_Z (nf - pf))) /\
       (nf <= pf -> pf <= z <= nf + d ->
        t = Double.round (inject_Z (z - pf) / inject_Z (nf + d - pf))) /\
       (nf <= pf -> z < pf -> pf <= z + d -> z <= nf ->
        t = Double.round (inject_Z (z + d - pf) / inject_Z (nf + d - pf)))).
Proof.
  intros d p n f pf nf. split; [apply factor_clamped|].
  intros z Hp Hn Hd Hz t. unfold t.
  rewrite (factor_at_integer d p n z Hp Hn Hd Hz). fold pf nf.
  assert (Hshare : forall a b : Z,
            0 <= a <= b -> 0 < b ->
            Double.max (Num 0)
              (Double.min (Num 1) (Double.round (inject_Z a / inject_Z b)))
            = Double.round (inject_Z a / inject_Z b)).
  { intros a b Hab Hb.
    assert (Hb' : (0 < inject_Z b)%Q)
      by (change 0%Q with (inject_Z 0); now rewrite <- Zlt_Qlt).
    assert (Ha' : (0 <= inject_Z a)%Q)
      by (change 0%Q with (inject_Z 0); rewrite <- Zle_Qle; lia).
    assert (Hab' : (inject_Z a <= inject_Z b)%Q) by (rewrite <- Zle_Qle; lia).
    destruct (round_unit (inject_Z a / inject_Z b)) as (r & Hr & H0 & H1 & Hred).
    - apply Qle_shift_div_l; [exact Hb'|]. now rewrite Qmult_0_l.
    - apply Qle_shift_div_r; [exact Hb'|]. now rewrite Qmult_1_l.
    - rewrite Hr. now apply clamp_unit_id. }
  split; [|split].
  - intros Hin.
    destruct (Z.leb_spec nf pf); [lia|]. destruct (Z.ltb_spec z pf); [lia|].
    apply Hshare; lia.
  - intros Hnp Hin.
    destruct (Z.leb_spec nf pf); [|lia]. destruct (Z.ltb_spec z pf); [lia|].
    apply Hshare; lia.
  - intros Hnp Hlt Hd' Hf.
    destruct (Z.leb_spec nf pf); [|lia]. destruct (Z.ltb_spec z pf); [|lia].
    apply Hshare; lia.
Qed.

Lemma factor_values_witness :
  let p := Sample.key 10 Sample.half_turn in
  let n := Sample.key 50 Sample.quarter in
  SplatAnimTrack.factor 100 p n (inject_Z 20) = Num (1 # 4) /\
  SplatAnimTrack.factor 100 n p (inject_Z 70)
  = Num (6004799503160661 # 18014398509481984).
Proof.
  pose proof (proj2 (factor_values 100 (Sample.key 10 Sample.half_turn)
                       (Sample.key 50 Sample.quarter) 0%Q) 20
                ltac:(simpl; lia) ltac:(simpl; lia) ltac:(lia) ltac:(simpl; lia))
    as (Hin & _).
  pose proof (proj2 (factor_values 100 (Sample.key 50 Sample.quarter)
                       (Sample.key 10 Sample.half_turn) 0%Q) 70
                ltac:(simpl; lia) ltac:(simpl; lia) ltac:(lia) ltac:(simpl; lia))
    as (_ & Hwrap & _).
  cbv zeta in Hin, Hwrap. simpl TransformKey.frame in Hin, Hwrap.
  split.
  - rewrite Hin by lia. reflexivity.
  - rewrite Hwrap by lia. reflexivity.
Defined.

Lemma bracket_loop_defined keys f i rest prevKey nextKey :
  is_Some prevKey -> is_Some nextKey ->
  (i + length rest)%nat = length keys ->
  let r := SplatAnimTrack.bracket_loop keys f i rest prevKey nextKey in
  is_Some (fst r) /\ is_Some (snd r).
Proof.
  revert i prevKey nextKey.
  induction rest as [|key rest IH]; intros i prevKey nextKey Hp Hn Hlen; simpl;
    [auto|].
  simpl in Hlen.
  destruct (Qltb f (inject_Z (TransformKey.frame key))); simpl.
  - split; [|eauto]. apply lookup_lt_is_Some.
    destruct (0 <? i)%nat; lia.
  - destruct (i =? length keys - 1)%nat; apply IH; auto; try lia.
    apply lookup_lt_is_Some. lia.
Qed.

Lemma bracket_defined keys f :
  keys <> [] ->
  exists prevKey nextKey, SplatAnimTrack.bracket keys f = (Some prevKey, Some nextKey).
Proof.
  intros Hne.
  assert (Hlen : (0 < length keys)%nat) by (destruct keys; [congruence|simpl; lia]).
  destruct (bracket_loop_defined keys f 0 keys
              (keys !! (length keys - 1)%nat) (keys !! 0%nat))
    as [[p Hp] [n Hn]]; try (apply lookup_lt_is_Some; lia); [reflexivity|].
  exists p, n. unfold SplatAnimTrack.bracket.
  destruct (SplatAnimTrack.bracket_loop _ _ _ _ _ _) as [a b].
  simpl in *. congruence.
Qed.

(** A transform track built by its operations has either no interpolation
    state or all of it. *)
Lemma reachable_splat_state t :
  Reachable.splat t ->
  match SplatAnimTrack.onTimelineChange t with
  | Some c =>
      is_Some (SplatAnimTrack.positionSpline t) /\
      is_Some (SplatAnimTrack.scaleSpline t) /\
      SplatAnimTrack.rotationKeys c <> []
  | None => True
  end.
Proof.
  assert (Hrebuild : forall ev t,
    match SplatAnimTrack.onTimelineChange (SplatAnimTrack.rebuildSplines ev t) with
    | Some c =>
        is_Some (SplatAnimTrack.positionSpline (SplatAnimTrack.rebuildSplines ev t)) /\
        is_Some (SplatAnimTrack.scaleSpline (SplatAnimTrack.rebuildSplines ev t)) /\
        SplatAnimTrack.rotationKeys c <> []
    | None => True
    end).
  { intros ev t0. unfold SplatAnimTrack.rebuildSplines.
    destruct (Nat.ltb_spec (length (sort_by TransformKey.frame
                (List.filter (fun k => TransformKey.frame k <? timeline_frames ev)
                   (SplatAnimTrack.keyframes t0)))) 2) as [|Hge]; simpl; [exact I|].
    repeat split; eauto. intros Hnil. rewrite Hnil in Hge. simpl in Hge. lia. }
  induction 1 as [s|s t _ IH|ev f t _ IH|ev f t _ IH|ev a b t _ IH|t _ IH
                 |ev data t _ IH _]; simpl; auto.
  - unfold SplatAnimTrack.addKey.
    destruct (findIndex _ _); simpl; apply Hrebuild.
  - unfold SplatAnimTrack.removeKey.
    destruct (findIndex _ _); simpl; [apply Hrebuild|exact IH].
  - unfold SplatAnimTrack.moveKey.
    destruct (a =? b); [exact IH|].
    destruct (findIndex _ _) as [i|]; [|exact IH].
    destruct (_ !! i); simpl; [apply Hrebuild|exact IH].
  - unfold SplatAnimTrack.loadKeyframes. simpl. apply Hrebuild.
Qed.

Section Rotation.
Variable CubicSpline_evaluate : CubicSpline -> Q -> nat -> Q.
Variable Quat_slerp : Quat -> Quat -> Number -> Quat.

(** X13: whatever sequence of operations built a transform track, including
    a [moveKey] that threw, [evaluate] completes normally on every frame:
    the closure never meets a missing spline or an undefined key. The pose
    track's [evaluate] has nothing that could throw. *)
Theorem evaluate_never_throws :
  (forall t, Reachable.splat t ->
     forall frame,
       thrown (SplatAnimTrack.evaluate CubicSpline_evaluate Quat_slerp frame t)
       = None) /\
  (forall t frame,
     thrown (CameraAnimTrack.evaluate CubicSpline_evaluate frame t) = None).
Proof.
  split.
  - intros t Hr frame. apply reachable_splat_state in Hr.
    unfold SplatAnimTrack.evaluate.
    destruct (SplatAnimTrack.onTimelineChange t) as [c|]; [|reflexivity].
    destruct Hr as ([ps Hps] & [ss Hss] & Hkeys).
    unfold SplatAnimTrack.onTimelineChange_call. rewrite Hps, Hss.
    destruct (bracket_defined (SplatAnimTrack.rotationKeys c) frame Hkeys)
      as (p & n & ->).
    reflexivity.
  - intros t frame. unfold CameraAnimTrack.evaluate.
    now destruct (CameraAnimTrack.onTimelineChange t).
Qed.

(** The rotation [evaluate] assigns once a rebuild found two or more
    active keyframes. *)
Lemma rotation_after_rebuild ev t frame prevKey nextKey :
  let active :=
    List.filter (fun k => TransformKey.frame k <? timeline_frames ev)
                (SplatAnimTrack.keyframes t) in
  (2 <= length active)%nat ->
  SplatAnimTrack.bracket (sort_by TransformKey.frame active) frame
  = (Some prevKey, Some nextKey) ->
  getLocalRotation
    (SplatAnimTrack.splat
       (after (SplatAnimTrack.evaluate CubicSpline_evaluate Quat_slerp frame
                 (SplatAnimTrack.rebuildSplines ev t))))
  = Quat_slerp (TransformKey.rotation prevKey) (TransformKey.rotation nextKey)
      (SplatAnimTrack.factor (timeline_frames ev) prevKey nextKey frame).
Proof.
  intros active Hge Hb.
  unfold SplatAnimTrack.evaluate, SplatAnimTrack.rebuildSplines. fold active.
  rewrite sort_by_length.
  destruct (Nat.ltb_spec (length active) 2) as [|_]; [lia|]. simpl.
  unfold SplatAnimTrack.onTimelineChange_call. simpl. now rewrite Hb.
Qed.

Lemma factor_at_prevKey d p n :
  0 <= TransformKey.frame p < d -> 0 <= TransformKey.frame n < d ->
  d < 2 ^ 52 ->
  SplatAnimTrack.factor d p n (inject_Z (TransformKey.frame p)) = Num 0.
Proof.
  intros Hp Hn Hd.
  rewrite (factor_at_integer d p n _ Hp Hn Hd) by lia.
  destruct (span_exact d _ _ Hp Hn Hd) as [Hpos _].
  rewrite Z.ltb_irrefl, Z.sub_diag.
  rewrite round_zero; [reflexivity|].
  unfold Qdiv. change (inject_Z 0) with 0%Q. apply Qmult_0_l.
Qed.

(** X14: on a transform track with unique frames, none of them negative,
    and at least two active keyframes, for a timeline shorter than [2^52]
    frames: evaluating at the frame of an active keyframe hands the
    engine's slerp that keyframe's rotation as its start, the rotation of
    another active keyframe as its end, and the factor 0. Where the
    engine's slerp returns its start at factor 0, the target gets exactly
    that keyframe's rotation. *)
Theorem evaluate_at_keyframe :
  forall ev t k,
    NoDup (SplatAnimTrack.keys t) ->
    Forall (fun x => 0 <= TransformKey.frame x) (SplatAnimTrack.keyframes t) ->
    timeline_frames ev < 2 ^ 52 ->
    k ∈ SplatAnimTrack.keyframes t ->
    TransformKey.frame k < timeline_frames ev ->
    (2 <= length (List.filter
                    (fun k => (TransformKey.frame k <? timeline_frames ev)%Z)
                    (SplatAnimTrack.keyframes t)))%nat ->
    let rotation :=
      getLocalRotation
        (SplatAnimTrack.splat
           (after (SplatAnimTrack.evaluate CubicSpline_evaluate Quat_slerp
                     (inject_Z (TransformKey.frame k))
                     (SplatAnimTrack.rebuildSplines ev t)))) in
    (exists nextKey,
       nextKey ∈ SplatAnimTrack.keyframes t /\
       TransformKey.frame nextKey < timeline_frames ev /\
       TransformKey.frame nextKey <> TransformKey.frame k /\
       rotation = Quat_slerp (TransformKey.rotation k)
                             (TransformKey.rotation nextKey) (Num 0)) /\
    ((forall a b, Quat_slerp a b (Num 0) = a) ->
     rotation = TransformKey.rotation k).
Proof.
  intros ev t k Hnd Hnn Hd Hk Hact Hge rotation.
  set (active := List.filter (fun k => TransformKey.frame k <? timeline_frames ev)
                             (SplatAnimTrack.keyframes t)) in *.
  set (ordered := sort_by TransformKey.frame active).
  assert (Hordered : forall x, x ∈ ordered ->
            x ∈ SplatAnimTrack.keyframes t /\
            0 <= TransformKey.frame x < timeline_frames ev).
  { intros x Hx. unfold ordered in Hx. rewrite sort_by_perm in Hx.
    unfold active in Hx.
    apply list_elem_of_In, List.filter_In in Hx as [Hx Hlt].
    apply list_elem_of_In in Hx. apply Z.ltb_lt in Hlt.
    split; [exact Hx|]. split; [|exact Hlt].
    now apply (proj1 (Forall_forall _ _) Hnn). }
  assert (Hin : k ∈ ordered).
  { unfold ordered. rewrite sort_by_perm. unfold active.
    apply list_elem_of_In, List.filter_In. split; [now apply list_elem_of_In|].
    now apply Z.ltb_lt. }
  assert (Hlen : (2 <= length ordered)%nat)
    by (unfold ordered; now rewrite sort_by_length).
  assert (Hsorted : StronglySorted Z.lt (map TransformKey.frame ordered)).
  { apply sorted_NoDup_strict; [apply sort_by_keys_sorted|].
    unfold ordered. rewrite sort_by_keys_perm.
    now apply filter_keys_NoDup. }
  apply list_elem_of_split in Hin as (l1 & l2 & Hsplit).
  rewrite Hsplit, map_app in Hsorted. simpl in Hsorted.
  assert (Hstrict : forall x, x ∈ l1 -> TransformKey.frame x < TransformKey.frame k).
  { intros x Hx.
    apply (StronglySorted_app_1_elem_of _ _ _ _ _ Hsorted).
    - apply list_elem_of_fmap. eauto.
    - apply elem_of_cons. now left. }
  assert (Hbefore : Forall (fun x => (inject_Z (TransformKey.frame x)
                                      <= inject_Z (TransformKey.frame k))%Q)
                           (l1 ++ [k])).
  { apply Forall_app. split; [|repeat constructor; apply Qle_refl].
    apply Forall_forall. intros x Hx. rewrite <- Zle_Qle.
    now apply Z.lt_le_incl, Hstrict. }
  assert (Hb : exists nextKey,
             nextKey ∈ ordered /\
             TransformKey.frame nextKey <> TransformKey.frame k /\
             SplatAnimTrack.bracket ordered (inject_Z (TransformKey.frame k))
             = (Some k, Some nextKey)).
  { destruct l2 as [|n l2].
    - destruct l1 as [|first l1]; [rewrite Hsplit in Hlen; simpl in Hlen; lia|].
      exists first. split; [rewrite Hsplit; apply elem_of_cons; now left|].
      split; [apply Z.lt_neq, Hstrict, elem_of_cons; now left|].
      rewrite Hsplit. simpl.
      rewrite (bracket_beyond_last first (l1 ++ [k])) by exact Hbefore.
      change (first :: l1 ++ [k]) with ((first :: l1) ++ [k]).
      now rewrite last_snoc.
    - assert (Hn : TransformKey.frame k < TransformKey.frame n).
      { apply StronglySorted_app_1_r in Hsorted.
        apply StronglySorted_inv in Hsorted as [_ Hall].
        now apply Forall_inv in Hall. }
      exists n. split.
      { rewrite Hsplit. apply elem_of_app. right.
        apply elem_of_cons. right. apply elem_of_cons. now left. }
      split; [lia|].
      rewrite Hsplit.
      apply bracket_inside; [exact Hbefore|]. now rewrite <- Zlt_Qlt. }
  destruct Hb as (nextKey & Hnext & Hdiff & Hb).
  destruct (Hordered nextKey Hnext) as (Hnk & Hnf).
  assert (Hkf : 0 <= TransformKey.frame k < timeline_frames ev).
  { split; [|exact Hact]. now apply (proj1 (Forall_forall _ _) Hnn). }
  assert (Hrot : rotation
                 = Quat_slerp (TransformKey.rotation k)
                              (TransformKey.rotation nextKey) (Num 0)).
  { unfold rotation.
    rewrite (rotation_after_rebuild ev t _ k nextKey Hge Hb).
    now rewrite factor_at_prevKey. }
  split.
  - exists nextKey. repeat split; try assumption; apply Hnf.
  - intros Hstart. now rewrite Hrot.
Qed.
End Rotation.

Lemma evaluate_never_throws_witness :
  let t := after (SplatAnimTrack.moveKey (Sample.timeline 100) 2 5
             (after (SplatAnimTrack.addKey (Sample.timeline 100) 2
                (after (SplatAnimTrack.addKey (Sample.timeline 100) 5
                   (after (SplatAnimTrack.addKey (Sample.timeline 100) 7
                      (SplatAnimTrack.new Sample.splat)))))))) in
  thrown (SplatAnimTrack.moveKey (Sample.timeline 100) 2 5
            (after (SplatAnimTrack.addKey (Sample.timeline 100) 2
               (after (SplatAnimTrack.addKey (Sample.timeline 100) 5
                  (after (SplatAnimTrack.addKey (Sample.timeline 100) 7
                     (SplatAnimTrack.new Sample.splat))))))))
  = Some TypeError /\
  thrown (SplatAnimTrack.evaluate Sample.flat Sample.nearest 6%Q t) = None.
Proof.
  split; [reflexivity|].
  apply (proj1 (evaluate_never_throws Sample.flat Sample.nearest)).
  apply Reachable.splat_moveKey, Reachable.splat_addKey, Reachable.splat_addKey,
    Reachable.splat_addKey, Reachable.splat_new.
Defined.

Lemma evaluate_at_keyframe_witness :
  let ev := Sample.timeline 100 in
  let k := Sample.key 50 Sample.half_turn in
  let t := Sample.transform_track
             [k; Sample.key 0 Sample.identity; Sample.key 80 Sample.quarter;
              Sample.key 120 Sample.identity] in
  getLocalRotation
    (SplatAnimTrack.splat
       (after (SplatAnimTrack.evaluate Sample.flat Sample.nearest
                 (inject_Z (TransformKey.frame k))
                 (SplatAnimTrack.rebuildSplines ev t))))
  = Sample.half_turn.
Proof.
  apply (proj2 (evaluate_at_keyframe Sample.flat Sample.nearest
           (Sample.timeline 100)
           (Sample.transform_track
              [Sample.key 50 Sample.half_turn; Sample.key 0 Sample.identity;
               Sample.key 80 Sample.quarter; Sample.key 120 Sample.identity])
           (Sample.key 50 Sample.half_turn)
           ltac:(apply (bool_decide_unpack _); vm_compute; exact I)
           ltac:(repeat constructor; simpl; lia)
           ltac:(reflexivity)
           ltac:(apply elem_of_cons; now left)
           ltac:(reflexivity)
           ltac:(simpl; lia))).
  intros a b. reflexivity.
Defined.

(** * Dispatch and the key buttons *)

Lemma lift_kind_camera (o : Outcome CameraAnimTrack.t) :
  after (AnimTrackOps.lift CameraTrack o) = CameraTrack (after o).
Proof. reflexivity. Qed.

(** X15: a dispatched [addKey], [removeKey] or [moveKey] is the operation of
    the resolved track: it fires and throws what the track's operation does,
    afterwards the resolver answers the track that operation left, and
    neither the timeline answers nor the other track (the selection when the
    camera is selected, the pose track otherwise) have changed. *)
Theorem dispatch_acts_on_resolved_track :
  forall w track,
    AnimTrackEvents.getActiveTrack w = Some track ->
    let cursor := timeline_frame (events w) in
    let agrees (o : Outcome World) (o' : Outcome AnimTrack) :=
      AnimTrackEvents.getActiveTrack (after o) = Some (after o') /\
      fired o = fired o' /\ thrown o = thrown o' /\
      events (after o) = events w /\
      (if AnimTrackEvents.selection_isCamera w
       then selection (after o) = selection w
       else camera_animTrack (after o) = camera_animTrack w) in
    (forall frame,
       agrees (AnimTrackEvents.on_track_addKey frame w)
              (AnimTrackOps.addKey (events w) (default cursor frame) track)) /\
    (forall frame,
       agrees (AnimTrackEvents.on_track_removeKey frame w)
              (AnimTrackOps.removeKey (events w) (default cursor frame) track)) /\
    (forall fromFrame toFrame,
       agrees (AnimTrackEvents.on_track_moveKey fromFrame toFrame w)
              (AnimTrackOps.moveKey (events w) fromFrame toFrame track)).
Proof.
  intros w track Hres cursor agrees.
  assert (Hstore : forall o' : Outcome AnimTrack,
            match track, after o' with
            | CameraTrack _, CameraTrack _ | SplatTrack _, SplatTrack _ => True
            | _, _ => False
            end ->
            agrees (AnimTrackOps.lift (fun t => AnimTrackEvents.store_track t w) o') o').
  { intros o' Hkind.
    destruct (store_track_resolved w track (after o') Hres Hkind)
      as (Hres' & Hev & Hother & _).
    unfold agrees. simpl. auto. }
  unfold AnimTrackEvents.on_track_addKey, AnimTrackEvents.on_track_removeKey,
    AnimTrackEvents.on_track_moveKey. rewrite Hres.
  repeat split; intros; apply Hstore; destruct track; exact I.
Qed.

Lemma dispatch_acts_on_resolved_track_witness :
  let w := mkWorld (Sample.timeline 100)
                   (Some (mkSelectable ElementType_splat
                            (Some (Some (Sample.transform_track
                                           [Sample.key 4 Sample.quarter])))))
                   (Sample.pose_track [Sample.pose "a" 7 Sample.east]) in
  let o := AnimTrackEvents.on_track_moveKey 4 9 w in
  AnimTrackEvents.track_keys (after o) = [9] /\
  fired o = [track_keyMoved 4 9] /\
  camera_animTrack (after o) = camera_animTrack w.
Proof.
  split; [reflexivity|].
  pose proof (proj2 (proj2 (dispatch_acts_on_resolved_track
    (mkWorld (Sample.timeline 100)
             (Some (mkSelectable ElementType_splat
                      (Some (Some (Sample.transform_track
                                     [Sample.key 4 Sample.quarter])))))
             (Sample.pose_track [Sample.pose "a" 7 Sample.east]))
    _ eq_refl)) 4 9) as (_ & Hfired & _ & _ & Hother).
  split; [exact Hfired|exact Hother].
Defined.

Lemma hasAnimatableSelection_resolved w :
  TimelinePanel.hasAnimatableSelection w = true
  <-> is_Some (AnimTrackEvents.getActiveTrack w).
Proof.
  unfold TimelinePanel.hasAnimatableSelection, AnimTrackEvents.getActiveTrack,
    AnimTrackEvents.isAnimatable.
  destruct (AnimTrackEvents.selection_isCamera w); [split; eauto|].
  destruct (selection w) as [sel|]; [|split; [discriminate|intros [? [=]]]].
  destruct (animTrack sel) as [[t|]|]; split; eauto; try discriminate;
    intros [? [=]].
Qed.

Lemma includes_elem_of (f : Z) (l : list Z) :
  existsb (fun k => k =? f) l = true <-> f ∈ l.
Proof.
  rewrite existsb_exists. split.
  - intros (x & Hx & Heq). apply Z.eqb_eq in Heq as ->. now apply list_elem_of_In.
  - intros Hin. exists f. split; [now apply list_elem_of_In|apply Z.eqb_refl].
Qed.

Lemma AnimTrackOps_removeKey_cases ev f track :
  (f ∈ AnimTrackOps.keys track ->
   fired (AnimTrackOps.removeKey ev f track) = [track_keyRemoved f] /\
   thrown (AnimTrackOps.removeKey ev f track) = None) /\
  (f ∉ AnimTrackOps.keys track ->
   AnimTrackOps.removeKey ev f track = done track []).
Proof.
  destruct track as [t|t]; simpl; split; intros Hf.
  - destruct (findIndex_present Pose.frame _ f Hf) as [j Hj].
    unfold CameraAnimTrack.removeKey. now rewrite Hj.
  - unfold CameraAnimTrack.removeKey.
    now rewrite (findIndex_absent Pose.frame _ f Hf).
  - destruct (findIndex_present TransformKey.frame _ f Hf) as [j Hj].
    unfold SplatAnimTrack.removeKey. now rewrite Hj.
  - unfold SplatAnimTrack.removeKey.
    now rewrite (findIndex_absent TransformKey.frame _ f Hf).
Qed.

Lemma AnimTrackOps_addKey_keys ev f track :
  fired (AnimTrackOps.addKey ev f track) <> [] ->
  f ∈ AnimTrackOps.keys (after (AnimTrackOps.addKey ev f track)).
Proof.
  destruct track as [t|t]; simpl.
  - unfold CameraAnimTrack.addKey, CameraAnimTrack.keys.
    destruct (camera_getPose ev) as [pose|]; [|now intros []].
    intros _. destruct (findIndex _ _) as [j|] eqn:Hj; simpl;
      rewrite camera_rebuild_poses; simpl.
    + erewrite keys_overwrite by eauto.
      eapply list_elem_of_lookup_2, findIndex_key_Some, Hj.
    + rewrite map_app. apply elem_of_app. right. simpl.
      apply list_elem_of_singleton. reflexivity.
  - unfold SplatAnimTrack.addKey, SplatAnimTrack.keys.
    intros _. destruct (findIndex _ _) as [j|] eqn:Hj; simpl;
      rewrite splat_rebuild_keyframes; simpl.
    + erewrite keys_overwrite by eauto.
      eapply list_elem_of_lookup_2, findIndex_key_Some, Hj.
    + rewrite map_app. apply elem_of_app. right. simpl.
      apply list_elem_of_singleton. reflexivity.
Qed.

(** X16: the key buttons and what their clicks do. The add-key button is
    enabled exactly when a track is resolved. The remove-key button is
    enabled exactly when its click removes a keyframe: enabled, the click
    fires [keyRemoved] for the cursor frame and does not throw; disabled,
    a click would change nothing. A click on a disabled add-key button
    would change nothing either, and a click that adds or updates a key
    leaves the remove-key button enabled. *)
Theorem key_buttons_match_dispatch :
  forall w,
    let b := TimelinePanel.updateKeyButtonStates w in
    let cursor := timeline_frame (events w) in
    (TimelinePanel.addKey_enabled b = true
     <-> is_Some (AnimTrackEvents.getActiveTrack w)) /\
    (TimelinePanel.addKey_enabled b = false ->
     TimelinePanel.addKey_click w = done w []) /\
    (TimelinePanel.removeKey_enabled b = true ->
     fired (TimelinePanel.removeKey_click w) = [track_keyRemoved cursor] /\
     thrown (TimelinePanel.removeKey_click w) = None) /\
    (TimelinePanel.removeKey_enabled b = false ->
     TimelinePanel.removeKey_click w = done w []) /\
    (fired (TimelinePanel.addKey_click w) <> [] ->
     TimelinePanel.removeKey_enabled
       (TimelinePanel.updateKeyButtonStates (after (TimelinePanel.addKey_click w)))
     = true).
Proof.
  intros w b cursor.
  pose proof (hasAnimatableSelection_resolved w) as Hres.
  unfold b, cursor, TimelinePanel.updateKeyButtonStates. clear b cursor.
  cbn [TimelinePanel.addKey_enabled TimelinePanel.removeKey_enabled].
  unfold TimelinePanel.addKey_click, TimelinePanel.removeKey_click,
    TimelinePanel.canDeleteKey.
  set (cursor := timeline_frame (events w)).
  destruct (AnimTrackEvents.getActiveTrack w) as [track|] eqn:Htrack.
  - assert (Hhas : TimelinePanel.hasAnimatableSelection w = true)
      by (apply Hres; eauto).
    rewrite Hhas. rewrite andb_true_l.
    destruct (AnimTrackOps_removeKey_cases (events w) cursor track)
      as [Hin Hout].
    assert (Hkeys : AnimTrackEvents.track_keys w = AnimTrackOps.keys track).
    { unfold AnimTrackEvents.track_keys. now rewrite Htrack. }
    rewrite Hkeys.
    split; [split; eauto|]. split; [discriminate|]. split; [|split].
    + intros Hc%includes_elem_of.
      assert (Hf : fired (AnimTrackEvents.on_track_removeKey (Some cursor) w)
                   = fired (AnimTrackOps.removeKey (events w) cursor track))
        by (unfold AnimTrackEvents.on_track_removeKey; now rewrite Htrack).
      assert (Ht : thrown (AnimTrackEvents.on_track_removeKey (Some cursor) w)
                   = thrown (AnimTrackOps.removeKey (events w) cursor track))
        by (unfold AnimTrackEvents.on_track_removeKey; now rewrite Htrack).
      rewrite Hf, Ht. now apply Hin.
    + intros Hc.
      assert (Hnot : cursor ∉ AnimTrackOps.keys track).
      { intros Hc'%includes_elem_of. congruence. }
      unfold AnimTrackEvents.on_track_removeKey. rewrite Htrack.
      cbn [default from_option id]. fold cursor. rewrite (Hout Hnot).
      unfold AnimTrackOps.lift, done. cbn [after fired thrown].
      f_equal. apply (store_track_resolved w track track Htrack);
        [now destruct track|reflexivity].
    + intros Hfired.
      assert (Ho : AnimTrackEvents.on_track_addKey None w
                   = AnimTrackOps.lift
                       (fun t => AnimTrackEvents.store_track t w)
                       (AnimTrackOps.addKey (events w) cursor track))
        by (unfold AnimTrackEvents.on_track_addKey; now rewrite Htrack).
      rewrite Ho in Hfired |- *.
      assert (Hkind : match track,
                            after (AnimTrackOps.addKey (events w) cursor track) with
                      | CameraTrack _, CameraTrack _
                      | SplatTrack _, SplatTrack _ => True
                      | _, _ => False
                      end) by (destruct track; exact I).
      destruct (store_track_resolved w track _ Htrack Hkind) as (Hres' & Hev & _).
      cbn [after fired AnimTrackOps.lift] in *.
      assert (Hhas' : TimelinePanel.hasAnimatableSelection
                        (AnimTrackEvents.store_track
                           (after (AnimTrackOps.addKey (events w) cursor track)) w)
                      = true).
      { apply hasAnimatableSelection_resolved. rewrite Hres'. eauto. }
      rewrite Hhas', andb_true_l.
      unfold AnimTrackEvents.track_keys. rewrite Hres', Hev. fold cursor.
      apply includes_elem_of, AnimTrackOps_addKey_keys. exact Hfired.
  - assert (Hhas : TimelinePanel.hasAnimatableSelection w = false).
    { destruct (TimelinePanel.hasAnimatableSelection w); [|reflexivity].
      destruct (proj1 Hres eq_refl) as [? [=]]. }
    rewrite Hhas. rewrite andb_false_l.
    unfold AnimTrackEvents.on_track_addKey, AnimTrackEvents.on_track_removeKey.
    rewrite Htrack.
    split; [split; [discriminate|intros [? [=]]]|].
    repeat split; try discriminate. intros Hne. now contradiction Hne.
Qed.

Lemma key_buttons_match_dispatch_witness :
  let w := mkWorld (mkEvents 100 7 (1 # 2) 30 None)
                   (Some (mkSelectable ElementType_camera None))
                   (Sample.pose_track [Sample.pose "a" 7 Sample.east]) in
  TimelinePanel.removeKey_enabled (TimelinePanel.updateKeyButtonStates w) = true /\
  fired (TimelinePanel.removeKey_click w) = [track_keyRemoved 7].
Proof.
  split; [reflexivity|].
  apply (proj1 (proj2 (proj2 (key_buttons_match_dispatch
           (mkWorld (mkEvents 100 7 (1 # 2) 30 None)
                    (Some (mkSelectable ElementType_camera None))
                    (Sample.pose_track [Sample.pose "a" 7 Sample.east])))))).
  reflexivity.
Defined.

(** * The selection *)

Lemma setSelection_cases element selection :
  Selection.setSelection element selection = (selection, []) \/
  (Selection.setSelection element selection
   = (element, [Selection.selection_changed element selection]) /\
   Selection.same element selection = false /\
   forall e, element = Some e ->
             Selection.element_type e = ElementType_splat ->
             Selection.visible e = true).
Proof.
  unfold Selection.setSelection.
  destruct element as [e|].
  - destruct (ElementType_eqb (Selection.element_type e) ElementType_splat) eqn:Hty;
      destruct (Selection.visible e) eqn:Hv; cbn [andb negb]; try (now left);
      (destruct (Selection.same (Some e) selection) eqn:Hs; cbn [negb];
       [now left|right; repeat split; intros ? [= <-] Hsplat; auto;
                 rewrite Hsplat in Hty; discriminate]).
  - destruct (Selection.same None selection) eqn:Hs; cbn [negb]; [now left|].
    right. repeat split. discriminate.
Qed.

Lemma selection_step_cases op selection :
  Selection.step op selection = (selection, []) \/
  exists element,
    Selection.step op selection
    = (element, [Selection.selection_changed element selection]) /\
    Selection.same element selection = false /\
    forall e, element = Some e ->
              Selection.element_type e = ElementType_splat ->
              Selection.visible e = true.
Proof.
  assert (Hset : forall element,
            Selection.setSelection element selection = (selection, []) \/
            exists element',
              Selection.setSelection element selection
              = (element', [Selection.selection_changed element' selection]) /\
              Selection.same element' selection = false /\
              forall e, element' = Some e ->
                        Selection.element_type e = ElementType_splat ->
                        Selection.visible e = true).
  { intros element. destruct (setSelection_cases element selection); eauto. }
  destruct op; simpl.
  - apply Hset.
  - apply Hset.
  - unfold Selection.on_selection_next.
    destruct (0 <? _)%nat; [|now left].
    destruct selection as [sel|]; [|apply Hset].
    destruct (ElementType_eqb _ _); apply Hset.
  - unfold Selection.on_scene_elementAdded.
    destruct (ElementType_eqb _ _); [apply Hset|now left].
  - unfold Selection.on_scene_elementRemoved.
    destruct (Selection.same _ _); [apply Hset|now left].
  - unfold Selection.on_splat_visibility.
    destruct (_ && _); [apply Hset|now left].
  - apply Hset.
Qed.

Lemma follow_app fired1 fired2 selection :
  Selection.follow (fired1 ++ fired2) selection
  = Selection.follow fired2 (Selection.follow fired1 selection).
Proof. unfold Selection.follow. apply fold_left_app. Qed.

(** X17: the [selection.changed] events tell the whole story. Over any
    sequence of the events the selection listens to, a listener that only
    follows [selection.changed] ends up with the actual selection; every
    [selection.changed] carries as previous value the selection as it was,
    a new value that is another element, and never a hidden splat. *)
Theorem selection_changed_tells_selection :
  forall ops selection,
    let final := fst (Selection.run ops selection) in
    let fired := snd (Selection.run ops selection) in
    Selection.follow fired selection = final /\
    forall pre s p post,
      fired = pre ++ Selection.selection_changed s p :: post ->
      p = Selection.follow pre selection /\
      Selection.same s p = false /\
      forall e, s = Some e ->
                Selection.element_type e = ElementType_splat ->
                Selection.visible e = true.
Proof.
  induction ops as [|op ops IH]; intros selection; simpl.
  - split; [reflexivity|]. intros pre s p post Heq. now destruct pre.
  - destruct (selection_step_cases op selection)
      as [Hstep | (element & Hstep & Hdiff & Hvis)]; rewrite Hstep.
    + specialize (IH selection).
      destruct (Selection.run ops selection) as [final fired]. exact IH.
    + specialize (IH element).
      destruct (Selection.run ops element) as [final fired]. simpl in *.
      destruct IH as [IHfollow IHchain]. split; [exact IHfollow|].
      intros pre s p post Heq. destruct pre as [|e1 pre]; simpl in Heq.
      * injection Heq as <- <- _. auto.
      * injection Heq as <- Heq.
        destruct (IHchain pre s p post Heq) as (Hp & Hsp & Hv). auto.
Qed.

Lemma selection_changed_tells_selection_witness :
  let a := Selection.mkElement 1 true 0 (mkSelectable ElementType_splat None) in
  let b := Selection.mkElement 2 true 0 (mkSelectable ElementType_splat None) in
  let ops := [Selection.fire_selection (Some a); Selection.fire_scene_elementAdded b] in
  Selection.follow (snd (Selection.run ops None)) None = Some b /\
  Selection.same (Some b) (Some a) = false /\
  Selection.visible b = true.
Proof.
  intros a b ops.
  pose proof (selection_changed_tells_selection ops None) as H.
  cbv zeta in H. destruct H as [Hfollow Hchain].
  split; [exact Hfollow|].
  destruct (Hchain [Selection.selection_changed (Some a) None] (Some b) (Some a) []
                   eq_refl) as (_ & Hsame & Hvisible).
  split; [exact Hsame|]. exact (Hvisible b eq_refl eq_refl).
Defined.

Lemma ElementType_eqb_eq a b : ElementType_eqb a b = true <-> a = b.
Proof. destruct a, b; simpl; split; congruence. Qed.

Lemma getElementsByType_elem scene ty e :
  e ∈ Selection.getElementsByType scene ty -> Selection.element_type e = ty.
Proof.
  unfold Selection.getElementsByType. intros Hin%list_elem_of_In.
  apply List.filter_In in Hin as [_ Hty]. now apply ElementType_eqb_eq.
Qed.

Lemma uid_lookup_inj (splats : list Selection.Element) i j x y :
  NoDup (map Selection.uid splats) ->
  splats !! i = Some x -> splats !! j = Some y ->
  Selection.uid x = Selection.uid y -> i = j.
Proof.
  intros Hnd Hx Hy Huid. eapply NoDup_lookup; [exact Hnd| |].
  - rewrite map_list_lookup, Hx. reflexivity.
  - rewrite map_list_lookup, Hy. simpl. now rewrite Huid.
Qed.

Lemma on_selection_next_step scene i :
  let splats := Selection.getElementsByType scene ElementType_splat in
  NoDup (map Selection.uid splats) ->
  Forall (fun e => Selection.visible e = true) splats ->
  (i < length splats)%nat ->
  fst (Selection.on_selection_next scene (splats !! i))
  = splats !! (S i mod length splats)%nat.
Proof.
  intros splats Hnd Hvis Hi.
  destruct (lookup_lt_is_Some_2 splats i Hi) as [e He].
  assert (Hj : (S i mod length splats < length splats)%nat)
    by (apply Nat.mod_upper_bound; lia).
  destruct (lookup_lt_is_Some_2 splats _ Hj) as [e' He'].
  assert (Hty : Selection.element_type e = ElementType_splat).
  { eapply getElementsByType_elem, list_elem_of_lookup_2, He. }
  assert (Hidx : Selection.indexOf_succ splats e = S i).
  { unfold Selection.indexOf_succ.
    rewrite (findIndex_Some_intro _ splats i e He); [reflexivity|apply Nat.eqb_refl|].
    intros m y Hm Hy. apply Nat.eqb_neq. intros Huid.
    assert (m = i) by (eapply uid_lookup_inj; eauto). lia. }
  unfold Selection.on_selection_next. fold splats.
  replace (0 <? length splats)%nat with true by (symmetry; apply Nat.ltb_lt; lia).
  rewrite He. rewrite (proj2 (ElementType_eqb_eq _ _) Hty), Hidx, He'.
  unfold Selection.setSelection.
  rewrite Forall_forall in Hvis.
  rewrite (Hvis e') by (eapply list_elem_of_lookup_2, He').
  rewrite andb_false_r.
  destruct (Selection.same (Some e') (Some e)) eqn:Hsame; simpl; [|reflexivity].
  f_equal. simpl in Hsame. apply Nat.eqb_eq in Hsame.
  assert (S i mod length splats = i)%nat by (eapply uid_lookup_inj; eauto).
  congruence.
Qed.

(** X18: [selection.next] walks the splats of the scene in order and wraps
    around. When all splats are visible (and are distinct objects), [k]
    steps from the splat at position [i] select the splat at position
    [(i + k) mod n]; a full round comes back to where it started. *)
Theorem selection_next_cycles :
  forall scene i k,
    let splats := Selection.getElementsByType scene ElementType_splat in
    let next := fun s => fst (Selection.on_selection_next scene s) in
    NoDup (map Selection.uid splats) ->
    Forall (fun e => Selection.visible e = true) splats ->
    (i < length splats)%nat ->
    Nat.iter k next (splats !! i) = splats !! ((i + k) mod length splats)%nat /\
    Nat.iter (length splats) next (splats !! i) = splats !! i.
Proof.
  intros scene i k splats next Hnd Hvis Hi.
  assert (Hiter : forall k, Nat.iter k next (splats !! i)
                            = splats !! ((i + k) mod length splats)%nat).
  { clear k. induction k as [|k IH]; simpl.
    - now rewrite Nat.add_0_r, Nat.mod_small.
    - rewrite IH. unfold next.
      rewrite (on_selection_next_step scene) by
        (auto; apply Nat.mod_upper_bound; fold splats; lia).
      fold splats. f_equal.
      rewrite <- Nat.add_1_l, Nat.Div0.add_mod_idemp_r.
      f_equal. lia. }
  split; [apply Hiter|].
  rewrite Hiter. f_equal.
  rewrite <- (Nat.mul_1_l (length splats)) at 1.
  rewrite Nat.Div0.mod_add. now apply Nat.mod_small.
Qed.

Lemma selection_next_cycles_witness :
  let a := Selection.mkElement 1 true 0 (mkSelectable ElementType_splat None) in
  let b := Selection.mkElement 2 true 0 (mkSelectable ElementType_splat None) in
  let c := Selection.mkElement 3 true 0 (mkSelectable ElementType_splat None) in
  let cam := Selection.mkElement 0 true 0 (mkSelectable ElementType_camera None) in
  let scene := Selection.mkScene cam [a; cam; b; c] in
  Nat.iter 2 (fun s => fst (Selection.on_selection_next scene s)) (Some b) = Some a.
Proof.
  apply (proj1 (selection_next_cycles
    (Selection.mkScene
       (Selection.mkElement 0 true 0 (mkSelectable ElementType_camera None))
       [Selection.mkElement 1 true 0 (mkSelectable ElementType_splat None);
        Selection.mkElement 0 true 0 (mkSelectable ElementType_camera None);
        Selection.mkElement 2 true 0 (mkSelectable ElementType_splat None);
        Selection.mkElement 3 true 0 (mkSelectable ElementType_splat None)])
    1%nat 2%nat ltac:(apply (bool_decide_unpack _); vm_compute; exact I)
    ltac:(repeat constructor) ltac:(simpl; lia))).
Defined.

(** X19: what removing the selected element does. With no other splat in
    the scene the selection becomes empty; otherwise the first other splat
    is selected if it is visible, and if it is hidden the selection stays on
    the removed element and nothing is fired. Removing an element that is
    not selected changes nothing. *)
Theorem elementRemoved_outcomes :
  forall scene element selection,
    let splats := Selection.getElementsByType scene ElementType_splat in
    let other :=
      List.find (fun v => negb (Selection.uid v =? Selection.uid element)%nat) splats in
    Selection.on_scene_elementRemoved scene element selection
    = if Selection.same (Some element) selection then
        match other with
        | None => (None, [Selection.selection_changed None selection])
        | Some v =>
            if Selection.visible v
            then (Some v, [Selection.selection_changed (Some v) selection])
            else (selection, [])
        end
      else (selection, []).
Proof.
  intros scene element selection splats other.
  unfold Selection.on_scene_elementRemoved. fold splats. fold other.
  destruct (Selection.same (Some element) selection) eqn:Hsame; [|reflexivity].
  destruct selection as [s|]; [|discriminate]. simpl in Hsame.
  apply Nat.eqb_eq in Hsame.
  assert (Hfind : (if (0 <? length splats)%nat then other else None) = other).
  { destruct (0 <? length splats)%nat eqn:Hlen; [reflexivity|].
    apply Nat.ltb_ge in Hlen. unfold other.
    destruct splats; [reflexivity|simpl in Hlen; lia]. }
  rewrite Hfind. destruct other as [v|] eqn:Hother; [|reflexivity].
  unfold other in Hother. apply List.find_some in Hother as [Hin Hne].
  assert (Hty : Selection.element_type v = ElementType_splat)
    by (eapply getElementsByType_elem, list_elem_of_In, Hin).
  unfold Selection.setSelection.
  rewrite (proj2 (ElementType_eqb_eq _ _) Hty). simpl.
  destruct (Selection.visible v); simpl; [|reflexivity].
  rewrite <- Hsame. now rewrite Hne.
Qed.

(** * The stack of transform handlers *)

Lemma Handler_eqb_eq a b : TransformHandlers.Handler_eqb a b = true <-> a = b.
Proof.
  destruct a, b; simpl; split; try congruence; try discriminate.
  - now intros ->%Nat.eqb_eq.
  - intros [= ->]. apply Nat.eqb_refl.
Qed.

Lemma Handler_eqb_refl a : TransformHandlers.Handler_eqb a a = true.
Proof. now apply Handler_eqb_eq. Qed.

Lemma after_calls_app active calls1 calls2 :
  TransformHandlers.after_calls active (calls1 ++ calls2)
  = TransformHandlers.after_calls (TransformHandlers.after_calls active calls1) calls2.
Proof. unfold TransformHandlers.after_calls. apply fold_left_app. Qed.

(** The handler on top of the stack is the one active handler. *)
Lemma push_keeps_one_active handler stack active :
  (forall h, active h = true <-> last stack = Some h) ->
  forall h,
    TransformHandlers.after_calls active (snd (TransformHandlers.push handler stack)) h
    = true
    <-> last (fst (TransformHandlers.push handler stack)) = Some h.
Proof.
  intros Hinv h. unfold TransformHandlers.push. simpl. rewrite last_snoc.
  rewrite after_calls_app. simpl.
  destruct (TransformHandlers.Handler_eqb h handler) eqn:Hh.
  - apply Handler_eqb_eq in Hh as ->. split; reflexivity || auto.
  - assert (Hne : h <> handler) by (intros ->; now rewrite Handler_eqb_refl in Hh).
    split; [|intros [= ->]; contradiction].
    intros Hact. exfalso.
    destruct (last stack) as [top|] eqn:Htop; simpl in Hact.
    + destruct (TransformHandlers.Handler_eqb h top) eqn:Ht; [discriminate|].
      apply Hinv in Hact. injection Hact as ->.
      now rewrite Handler_eqb_refl in Ht.
    + apply Hinv in Hact. discriminate.
Qed.

Lemma pop_keeps_one_active stack active :
  (forall h, active h = true <-> last stack = Some h) ->
  forall h,
    TransformHandlers.after_calls active (snd (TransformHandlers.pop stack)) h = true
    <-> last (fst (TransformHandlers.pop stack)) = Some h.
Proof.
  intros Hinv h. unfold TransformHandlers.pop.
  destruct (last stack) as [top|] eqn:Htop; simpl; [|now rewrite Hinv, Htop].
  destruct (last (removelast stack)) as [below|] eqn:Hbelow; simpl.
  - destruct (TransformHandlers.Handler_eqb h below) eqn:Hb.
    + apply Handler_eqb_eq in Hb as ->. split; auto.
    + assert (Hne : h <> below) by (intros ->; now rewrite Handler_eqb_refl in Hb).
      split; [|intros [= ->]; contradiction].
      destruct (TransformHandlers.Handler_eqb h top) eqn:Ht; [discriminate|].
      intros Hact%Hinv. injection Hact as ->. now rewrite Handler_eqb_refl in Ht.
  - split; [|discriminate].
    destruct (TransformHandlers.Handler_eqb h top) eqn:Ht; [discriminate|].
    intros Hact%Hinv. injection Hact as ->. now rewrite Handler_eqb_refl in Ht.
Qed.

Lemma update_keeps_one_active selection stack active :
  (forall h, active h = true <-> last stack = Some h) ->
  forall h,
    TransformHandlers.after_calls active
      (snd (TransformHandlers.update selection stack)) h = true
    <-> last (fst (TransformHandlers.update selection stack)) = Some h.
Proof.
  intros Hinv. unfold TransformHandlers.update.
  pose proof (pop_keeps_one_active stack active Hinv) as Hpop.
  destruct (TransformHandlers.pop stack) as [popped calls]. simpl in Hpop.
  destruct selection as [splat|]; [|exact Hpop].
  destruct (ElementType_eqb _ _); [|exact Hpop].
  destruct (0 <? Selection.numSelected splat)%nat.
  - pose proof (push_keeps_one_active TransformHandlers.splatsTransformHandler
                  popped _ Hpop) as Hpush.
    destruct (TransformHandlers.push _ popped) as [pushed calls']. simpl in *.
    intros h. now rewrite after_calls_app.
  - pose proof (push_keeps_one_active TransformHandlers.entityTransformHandler
                  popped _ Hpop) as Hpush.
    destruct (TransformHandlers.push _ popped) as [pushed calls']. simpl in *.
    intros h. now rewrite after_calls_app.
Qed.

Lemma run_keeps_one_active ops :
  forall stack active,
    (forall h, active h = true <-> last stack = Some h) ->
    forall h,
      snd (TransformHandlers.run ops stack active) h = true
      <-> last (fst (TransformHandlers.run ops stack active)) = Some h.
Proof.
  induction ops as [|op ops IH]; intros stack active Hinv; simpl;
    [exact Hinv|].
  assert (Hstep : forall h,
            TransformHandlers.after_calls active
              (snd (TransformHandlers.step op stack)) h = true
            <-> last (fst (TransformHandlers.step op stack)) = Some h).
  { destruct op as [handler| |selection|splat selection]; simpl.
    - now apply push_keeps_one_active.
    - now apply pop_keeps_one_active.
    - now apply update_keeps_one_active.
    - destruct (Selection.same selection (Some splat)); simpl;
        [now apply update_keeps_one_active|exact Hinv]. }
  destruct (TransformHandlers.step op stack) as [stack' calls].
  now apply IH.
Qed.

(** X20: whatever sequence of pushes, pops, selection changes and splat
    state changes reaches the handler stack, starting from the empty stack
    with no handler active, the calls to [activate] and [deactivate] leave
    exactly one handler active, the one on top of the stack, and none when
    the stack is empty. *)
Theorem one_active_transform_handler :
  forall ops,
    let stack := fst (TransformHandlers.run ops [] (fun _ => false)) in
    let active := snd (TransformHandlers.run ops [] (fun _ => false)) in
    forall h, active h = true <-> last stack = Some h.
Proof.
  intros ops. apply run_keeps_one_active.
  intros h. simpl. split; discriminate.
Qed.

Lemma handlers_run_app ops1 ops2 stack active :
  TransformHandlers.run (ops1 ++ ops2) stack active
  = TransformHandlers.run ops2
      (fst (TransformHandlers.run ops1 stack active))
      (snd (TransformHandlers.run ops1 stack active)).
Proof.
  revert stack active. induction ops1 as [|op ops1 IH]; intros stack active;
    simpl; [reflexivity|].
  destruct (TransformHandlers.step op stack) as [stack' calls]. apply IH.
Qed.

(** X21: a selection change binds the transform target. Whatever happened
    before, once a splat is selected the one active handler is the splats
    handler when the splat has selected points and the entity handler when
    it has none. *)
Theorem selection_binds_transform_handler :
  forall ops splat,
    Selection.element_type splat = ElementType_splat ->
    let final :=
      TransformHandlers.run
        (ops ++ [TransformHandlers.on_selection_changed (Some splat)])
        [] (fun _ => false) in
    forall h,
      snd final h = true
      <-> h = if (0 <? Selection.numSelected splat)%nat
              then TransformHandlers.splatsTransformHandler
              else TransformHandlers.entityTransformHandler.
Proof.
  intros ops splat Hty final h.
  pose proof (run_keeps_one_active
                (ops ++ [TransformHandlers.on_selection_changed (Some splat)])
                [] (fun _ => false)
                ltac:(intros x; simpl; split; discriminate) h)
    as Hone.
  fold final in Hone. simpl in Hone. rewrite Hone. unfold final.
  rewrite handlers_run_app. simpl.
  destruct (TransformHandlers.run ops [] (fun _ => false)) as [stack active].
  simpl. unfold TransformHandlers.update.
  destruct (TransformHandlers.pop stack) as [popped calls].
  rewrite (proj2 (ElementType_eqb_eq _ _) Hty).
  destruct (0 <? Selection.numSelected splat)%nat; simpl; rewrite last_snoc;
    split; congruence.
Qed.

Lemma selection_binds_transform_handler_witness :
  let splat := Selection.mkElement 4 true 12 (mkSelectable ElementType_splat None) in
  let final :=
    TransformHandlers.run
      ([TransformHandlers.on_transformHandler_push (TransformHandlers.pushed 9);
        TransformHandlers.on_selection_changed None]
       ++ [TransformHandlers.on_selection_changed (Some splat)])
      [] (fun _ => false) in
  snd final TransformHandlers.splatsTransformHandler = true.
Proof.
  apply (selection_binds_transform_handler
           [TransformHandlers.on_transformHandler_push (TransformHandlers.pushed 9);
            TransformHandlers.on_selection_changed None]
           (Selection.mkElement 4 true 12 (mkSelectable ElementType_splat None))
           eq_refl).
  reflexivity.
Defined.

(** * More on [addKey], rebuilds and scrubbing *)

(** X22: [addKey] on a frame that holds a keyframe overwrites the first
    record of that frame in place with the state captured now: frames and
    count are unchanged and [keyUpdated] is fired once. *)
Theorem addKey_on_taken_frame :
  (forall ev f t,
     f ∈ SplatAnimTrack.keys t ->
     let o := SplatAnimTrack.addKey ev f t in
     let s := SplatAnimTrack.splat t in
     thrown o = None /\ fired o = [track_keyUpdated f] /\
     SplatAnimTrack.keys (after o) = SplatAnimTrack.keys t /\
     exists j,
       findIndex (fun k => TransformKey.frame k =? f) (SplatAnimTrack.keyframes t)
       = Some j /\
       SplatAnimTrack.keyframes (after o)
       = <[j := TransformKey.mk f (getLocalPosition s) (getLocalRotation s)
                                (getLocalScale s)]>
           (SplatAnimTrack.keyframes t)) /\
  (forall ev f t pose,
     f ∈ CameraAnimTrack.keys t ->
     camera_getPose ev = Some pose ->
     let o := CameraAnimTrack.addKey ev f t in
     thrown o = None /\ fired o = [track_keyUpdated f] /\
     CameraAnimTrack.keys (after o) = CameraAnimTrack.keys t /\
     exists j,
       findIndex (fun p => Pose.frame p =? f) (CameraAnimTrack.poses t) = Some j /\
       CameraAnimTrack.poses (after o)
       = <[j := Pose.mk ("camera_" +:+ pretty (length (CameraAnimTrack.poses t))) f
                        (cp_position pose) (cp_target pose)]>
           (CameraAnimTrack.poses t)).
Proof.
  split.
  - intros ev f t Hf o s.
    destruct (findIndex_present TransformKey.frame _ f Hf) as [j Hj].
    unfold o, SplatAnimTrack.addKey, SplatAnimTrack.keys. rewrite Hj. simpl.
    rewrite splat_rebuild_keyframes. simpl.
    repeat split; [eapply keys_overwrite; eauto|eauto].
  - intros ev f t pose Hf Hpose o.
    destruct (findIndex_present Pose.frame _ f Hf) as [j Hj].
    unfold o, CameraAnimTrack.addKey, CameraAnimTrack.keys.
    rewrite Hpose, Hj. simpl. rewrite camera_rebuild_poses. simpl.
    repeat split; [eapply keys_overwrite; eauto|].
    exists j. split; [reflexivity|]. now destruct pose as [[] []].
Qed.

Lemma addKey_on_taken_frame_witness :
  let t := Sample.transform_track [Sample.key 3 Sample.half_turn;
                                   Sample.key 8 Sample.quarter] in
  (8 ∈ SplatAnimTrack.keys t) /\
  fired (SplatAnimTrack.addKey (Sample.timeline 100) 8 t) = [track_keyUpdated 8].
Proof.
  assert (Hin : 8 ∈ SplatAnimTrack.keys
                      (Sample.transform_track [Sample.key 3 Sample.half_turn;
                                               Sample.key 8 Sample.quarter])).
  { apply (bool_decide_unpack _). vm_compute. exact I. }
  split; [exact Hin|].
  apply (proj1 addKey_on_taken_frame (Sample.timeline 100) 8 _ Hin).
Defined.





Section Scrubbing.
Variable CubicSpline_evaluate : CubicSpline -> Q -> nat -> Q.
Variable Quat_slerp : Quat -> Quat -> Number -> Quat.

(** X24: scrubbing has no memory. What [evaluate] does at a frame does not
    depend on the frames evaluated before: evaluating at [g] and then at [f]
    has the outcome of evaluating at [f] alone (the target's transform is
    written, never read). *)
Theorem scrubbing_has_no_memory :
  (forall t f g,
     SplatAnimTrack.evaluate CubicSpline_evaluate Quat_slerp f
       (after (SplatAnimTrack.evaluate CubicSpline_evaluate Quat_slerp g t))
     = SplatAnimTrack.evaluate CubicSpline_evaluate Quat_slerp f t) /\
  (forall t f g,
     CameraAnimTrack.evaluate CubicSpline_evaluate f
       (after (CameraAnimTrack.evaluate CubicSpline_evaluate g t))
     = CameraAnimTrack.evaluate CubicSpline_evaluate f t).
Proof.
  split; intros t f g.
  - unfold SplatAnimTrack.evaluate at 2.
    destruct (SplatAnimTrack.onTimelineChange t) as [c|] eqn:Hc; [|reflexivity].
    unfold SplatAnimTrack.onTimelineChange_call at 1.
    destruct (SplatAnimTrack.positionSpline t) as [ps|] eqn:Hps; [|reflexivity].
    destruct (SplatAnimTrack.scaleSpline t) as [ss|] eqn:Hss; [|reflexivity].
    destruct (SplatAnimTrack.bracket (SplatAnimTrack.rotationKeys c) g)
      as [[p|] [n|]] eqn:Hg; try reflexivity.
    assert (Hne : SplatAnimTrack.rotationKeys c <> []).
    { intros Hnil. rewrite Hnil in Hg. discriminate. }
    destruct (bracket_defined _ f Hne) as (p' & n' & Hf).
    unfold SplatAnimTrack.evaluate. simpl. rewrite Hc.
    unfold SplatAnimTrack.onTimelineChange_call. simpl.
    now rewrite Hps, Hss, Hf.
  - unfold CameraAnimTrack.evaluate.
    destruct (CameraAnimTrack.onTimelineChange t) as [c|] eqn:Hc; simpl;
      now rewrite Hc.
Qed.
End Scrubbing.

Lemma absent_source_frame_is_noop_witness :
  let t := Sample.transform_track [Sample.key 5 Sample.identity] in
  (3 ∉ SplatAnimTrack.keys t) /\
  SplatAnimTrack.removeKey (Sample.timeline 100) 3 t = done t [] /\
  SplatAnimTrack.moveKey (Sample.timeline 100) 3 5 t = done t [].
Proof.
  assert (Hf : 3 ∉ SplatAnimTrack.keys
                     (Sample.transform_track [Sample.key 5 Sample.identity])).
  { apply (bool_decide_unpack _). vm_compute. exact I. }
  split; [exact Hf|].
  apply (proj1 (absent_source_frame_is_noop (Sample.timeline 100) 3 5) _ Hf).
Defined.

(** * Pixels and frames on the timeline *)

Lemma le_refl_number x : x <> NaN -> Double.le x x.
Proof. destruct x; simpl; try tauto. intros _. apply Qle_refl. Qed.

Lemma le_not_NaN x y : Double.le x y -> x <> NaN /\ y <> NaN.
Proof. destruct x, y; simpl; try tauto; split; discriminate. Qed.

Lemma div_mono x y w :
  (0 < w)%Q -> Double.le x y ->
  Double.le (Double.div x (Num w)) (Double.div y (Num w)).
Proof.
  intros Hw Hle.
  assert (Hc : (w ?= 0)%Q = Gt) by now apply Qgt_alt.
  assert (Hn : Qltb w 0 = false) by (unfold Qltb; now rewrite Hc).
  destruct x as [a| | |], y as [b| | |]; simpl in *; rewrite ?Hc, ?Hn;
    try tauto.
  - apply round_mono. unfold Qdiv. apply Qmult_le_compat_r; [exact Hle|].
    apply Qlt_le_weak, Qinv_lt_0_compat, Hw.
  - pose proof (round_not_NaN (a / w)). now destruct (Double.round (a / w)).
  - pose proof (round_not_NaN (b / w)). now destruct (Double.round (b / w)).
Qed.

Lemma mul_mono x y c :
  (0 < c)%Q -> Double.le x y ->
  Double.le (Double.mul x (Num c)) (Double.mul y (Num c)).
Proof.
  intros Hc0 Hle.
  assert (Hc : (c ?= 0)%Q = Gt) by now apply Qgt_alt.
  destruct x as [a| | |], y as [b| | |]; simpl in *; rewrite ?Hc;
    try tauto.
  - apply round_mono. apply Qmult_le_compat_r; [exact Hle|lra].
  - pose proof (round_not_NaN (a * c)). now destruct (Double.round (a * c)).
  - pose proof (round_not_NaN (b * c)). now destruct (Double.round (b * c)).
Qed.

Lemma floor_mono x y : Double.le x y -> Double.le (Double.floor x) (Double.floor y).
Proof.
  destruct x as [a| | |], y as [b| | |]; simpl; try tauto.
  intros H. rewrite <- Zle_Qle. now apply Qfloor_resp_le.
Qed.

Lemma Qle_bool_false a b : Qle_bool a b = false -> (b < a)%Q.
Proof.
  intros H. apply Qnot_le_lt. intros Hle. apply Qle_bool_iff in Hle. congruence.
Qed.

Ltac order_cases :=
  repeat match goal with
         | |- context [Qle_bool ?a ?b] =>
             let E := fresh "E" in
             destruct (Qle_bool a b) eqn:E;
             [apply Qle_bool_iff in E|apply Qle_bool_false in E]
         end;
  simpl in *; try tauto; try lra.

Lemma min_mono c x y :
  Double.le x y -> Double.le (Double.min (Num c) x) (Double.min (Num c) y).
Proof.
  destruct x as [a| | |], y as [b| | |]; simpl; try tauto; intros H;
    order_cases.
Qed.

Lemma max_mono c x y :
  Double.le x y -> Double.le (Double.max (Num c) x) (Double.max (Num c) y).
Proof.
  destruct x as [a| | |], y as [b| | |]; simpl; try tauto; intros H;
    order_cases.
Qed.

Lemma add_mono c x y :
  Double.le x y -> Double.le (Double.add (Num c) x) (Double.add (Num c) y).
Proof.
  destruct x as [a| | |], y as [b| | |]; simpl; try tauto; intros H.
  - apply round_mono. lra.
  - pose proof (round_not_NaN (c + a)). now destruct (Double.round (c + a)).
  - pose proof (round_not_NaN (c + b)). now destruct (Double.round (c + b)).
Qed.

(** The last frame, as [frameFromOffset] computes it. *)
Lemma last_frame_exact n :
  Z.abs n < 2 ^ 53 -> 1 <= n ->
  Double.sub (Num (inject_Z n)) (Num 1) = Num (inject_Z (n - 1)).
Proof.
  intros Hn H1.
  rewrite (sub_exact _ _ (inject_Z (n - 1)))
    by (unfold Z.sub; rewrite inject_Z_plus; reflexivity).
  apply round_Z. lia.
Qed.

(** The clamp of a floored number onto the frames [0 .. last]. *)
Lemma clamp_frame last x :
  0 <= last ->
  let r := Double.max (Num 0)
             (Double.min (Num (inject_Z last)) (Double.floor x)) in
  r = NaN \/ exists k, r = Num (inject_Z k) /\ 0 <= k <= last.
Proof.
  intros Hlast r. unfold r.
  assert (H0 : Qle_bool 0 (inject_Z last) = true).
  { apply Qle_bool_iff. change 0%Q with (inject_Z 0). now rewrite <- Zle_Qle. }
  destruct x as [q| | |]; simpl; auto; right.
  - destruct (Qle_bool (inject_Z last) (inject_Z (Qfloor q))) eqn:Hle; simpl.
    + rewrite H0. exists last. split; [reflexivity|lia].
    + assert (Hlt : Qfloor q < last).
      { apply Z.lt_nge. intros Hge. rewrite Zle_Qle in Hge.
        apply Qle_bool_iff in Hge. congruence. }
      destruct (Qle_bool 0 (inject_Z (Qfloor q))) eqn:Hq.
      * exists (Qfloor q). split; [reflexivity|].
        apply Qle_bool_iff in Hq. change 0%Q with (inject_Z 0) in Hq.
        rewrite <- Zle_Qle in Hq. lia.
      * exists 0. split; [reflexivity|lia].
  - rewrite H0. exists last. split; [reflexivity|lia].
  - exists 0. split; [reflexivity|lia].
Qed.

(** X25: pixels and frames of the ticks area, computed in doubles. For a
    timeline of at least one frame (fewer than [2^53]), [frameFromOffset]
    answers a frame of the timeline ([0 .. numFrames - 1]) or NaN. Drawn
    on a positive width with at least two frames it never answers NaN, it
    grows with the offset, it is [0] at or left of the padding, and, the
    width being a double, it is the last frame at or right of the padding
    plus the width. There [offsetFromFrame] draws frame 0 at the padding,
    draws a later frame no further left, and, the width being a double
    below [2^52], draws the last frame at the padding plus the whole
    pixels of the width. *)
Theorem frameFromOffset_range :
  forall numFrames width,
    1 <= numFrames < 2 ^ 53 ->
    (forall offset,
       let r := TimelinePanel.frameFromOffset numFrames width offset in
       r = NaN \/ exists k, r = Num (inject_Z k) /\ 0 <= k <= numFrames - 1) /\
    ((0 < width)%Q -> 2 <= numFrames ->
     (forall offset,
        TimelinePanel.frameFromOffset numFrames width offset <> NaN) /\
     (forall o1 o2,
        (o1 <= o2)%Q ->
        Double.le (TimelinePanel.frameFromOffset numFrames width o1)
                  (TimelinePanel.frameFromOffset numFrames width o2)) /\
     (forall offset,
        (offset <= 20)%Q ->
        TimelinePanel.frameFromOffset numFrames width offset = Num 0) /\
     (forall offset,
        Double.is_double width -> (20 + width <= offset)%Q ->
        TimelinePanel.frameFromOffset numFrames width offset
        = Num (inject_Z (numFrames - 1))) /\
     TimelinePanel.offsetFromFrame numFrames width 0 = Num 20 /\
     (forall f1 f2,
        f1 <= f2 ->
        Double.le (TimelinePanel.offsetFromFrame numFrames width f1)
                  (TimelinePanel.offsetFromFrame numFrames width f2)) /\
     (Double.is_double width -> (width < inject_Z (2 ^ 52))%Q ->
      TimelinePanel.offsetFromFrame numFrames width (numFrames - 1)
      = Num (inject_Z (20 + Qfloor width)))).
Proof.
  intros n w Hn.
  assert (Hlast : Double.sub (Num (inject_Z n)) (Num 1) = Num (inject_Z (n - 1)))
    by (apply last_frame_exact; lia).
  split.
  - intros offset r. unfold r, TimelinePanel.frameFromOffset. rewrite Hlast.
    apply clamp_frame. lia.
  - intros Hw Hn2.
    assert (Hc : (0 < inject_Z (n - 1))%Q)
      by (change 0%Q with (inject_Z 0); rewrite <- Zlt_Qlt; lia).
    assert (Hmono : forall o1 o2,
              (o1 <= o2)%Q ->
              Double.le (TimelinePanel.frameFromOffset n w o1)
                        (TimelinePanel.frameFromOffset n w o2)).
    { intros o1 o2 Ho. unfold TimelinePanel.frameFromOffset. rewrite Hlast.
      apply max_mono, min_mono, floor_mono, mul_mono; [exact Hc|].
      apply div_mono; [exact Hw|].
      unfold TimelinePanel.padding.
      rewrite (sub_exact o1 20 (o1 - 20)), (sub_exact o2 20 (o2 - 20))
        by reflexivity.
      apply round_mono. lra. }
    split; [|split; [exact Hmono|split; [|split; [|split; [|split]]]]].
    + intros offset. apply (le_not_NaN _ _ (Hmono offset offset (Qle_refl _))).
    + intros offset Ho. unfold TimelinePanel.frameFromOffset. rewrite Hlast.
      unfold TimelinePanel.padding.
      rewrite (sub_exact offset 20 (offset - 20)) by reflexivity.
      pose proof (round_nonpos (offset - 20) ltac:(lra)) as H0.
      assert (Hd0 : Double.div (Num 0) (Num w) = Num 0).
      { rewrite (div_exact 0 w 0); [reflexivity|lra|]. field. lra. }
      assert (Hm0 : Double.mul (Num 0) (Num (inject_Z (n - 1))) = Num 0).
      { simpl. apply round_zero. ring. }
      assert (H1 : Double.le (Double.round (offset - 20)) (Num 0))
        by (destruct (Double.round (offset - 20)); simpl in *; tauto).
      apply (div_mono _ _ w Hw) in H1. rewrite Hd0 in H1.
      apply (mul_mono _ _ _ Hc) in H1. rewrite Hm0 in H1. clear Hd0 Hm0.
      destruct (Double.mul _ _) as [v| | |]; simpl in H1; try tauto;
        try reflexivity.
      simpl.
      assert (Hf : Qfloor v <= 0).
      { apply Qfloor_resp_le in H1. exact H1. }
      assert (Hlt : Qle_bool (inject_Z (n - 1)) (inject_Z (Qfloor v)) = false).
      { destruct (Qle_bool _ _) eqn:E; [|reflexivity].
        apply Qle_bool_iff in E. rewrite <- Zle_Qle in E. lia. }
      rewrite Hlt. simpl.
      destruct (Qle_bool 0 (inject_Z (Qfloor v))) eqn:E; [|reflexivity].
      apply Qle_bool_iff in E. change 0%Q with (inject_Z 0) in E.
      rewrite <- Zle_Qle in E.
      now replace (Qfloor v) with 0 by lia.
    + intros offset (r & Hr & Hrw) Ho.
      unfold TimelinePanel.frameFromOffset. rewrite Hlast.
      unfold TimelinePanel.padding.
      rewrite (sub_exact offset 20 (offset - 20)) by reflexivity.
      assert (Hd1 : Double.div (Num r) (Num w) = Num 1).
      { rewrite (div_exact r w 1); [reflexivity|lra|].
        rewrite Hrw. field. lra. }
      assert (Hm1 : Double.mul (Num 1) (Num (inject_Z (n - 1)))
                    = Num (inject_Z (n - 1))).
      { simpl. rewrite (round_comp _ (inject_Z (n - 1))) by ring.
        apply round_Z. lia. }
      assert (H1 : Double.le (Num r) (Double.round (offset - 20))).
      { rewrite <- Hr. apply round_mono. lra. }
      apply (div_mono _ _ w Hw) in H1. rewrite Hd1 in H1.
      apply (mul_mono _ _ _ Hc) in H1. rewrite Hm1 in H1. clear Hd1 Hm1.
      destruct (Double.mul _ _) as [v| | |]; simpl in H1; try tauto.
      * simpl.
        assert (Hf : n - 1 <= Qfloor v).
        { apply Qfloor_resp_le in H1. now rewrite Qfloor_Z in H1. }
        assert (Hge : Qle_bool (inject_Z (n - 1)) (inject_Z (Qfloor v)) = true)
          by now apply Qle_bool_iff; rewrite <- Zle_Qle.
        rewrite Hge. simpl.
        assert (H0 : Qle_bool 0 (inject_Z (n - 1)) = true)
          by (apply Qle_bool_iff; lra).
        now rewrite H0.
      * simpl.
        assert (H0 : Qle_bool 0 (inject_Z (n - 1)) = true)
          by (apply Qle_bool_iff; lra).
        now rewrite H0.
    + unfold TimelinePanel.offsetFromFrame. rewrite Hlast.
      rewrite (div_exact (inject_Z 0) (inject_Z (n - 1)) 0);
        [|lra|change (inject_Z 0) with 0%Q; field; lra].
      rewrite (round_zero 0) by reflexivity.
      simpl Double.mul. rewrite (round_zero (0 * w)) by ring.
      reflexivity.
    + intros f1 f2 Hf. unfold TimelinePanel.offsetFromFrame. rewrite Hlast.
      unfold TimelinePanel.padding.
      apply add_mono, floor_mono, mul_mono; [exact Hw|].
      apply div_mono; [exact Hc|].
      simpl. now rewrite <- Zle_Qle.
    + intros (r & Hr & Hrw) Hsmall.
      unfold TimelinePanel.offsetFromFrame. rewrite Hlast.
      rewrite (div_exact (inject_Z (n - 1)) (inject_Z (n - 1)) 1);
        [|lra|field; lra].
      replace (Double.round 1) with (Num 1)
        by (symmetry; apply (round_Z 1); lia).
      simpl Double.mul. rewrite (round_comp (1 * w) w) by ring.
      rewrite Hr. simpl Double.floor. rewrite (Qfloor_comp _ _ Hrw).
      unfold TimelinePanel.padding.
      rewrite (add_exact 20 (inject_Z (Qfloor w)) (inject_Z (20 + Qfloor w)))
        by (rewrite inject_Z_plus; reflexivity).
      apply round_Z.
      assert (H0 : 0 <= Qfloor w).
      { change 0 with (Qfloor 0). apply Qfloor_resp_le. lra. }
      assert (H1 : Qfloor w <= 2 ^ 52).
      { rewrite <- (Qfloor_Z (2 ^ 52)). apply Qfloor_resp_le. lra. }
      lia.
Qed.


Lemma frameFromOffset_range_witness :
  TimelinePanel.frameFromOffset 180 179 (-35 # 1) = Num 0 /\
  TimelinePanel.frameFromOffset 180 179 900 = Num 179 /\
  Double.le (TimelinePanel.frameFromOffset 180 179 80)
            (TimelinePanel.frameFromOffset 180 179 81) /\
  TimelinePanel.offsetFromFrame 180 179 0 = Num 20 /\
  Double.le (TimelinePanel.offsetFromFrame 180 179 60)
            (TimelinePanel.offsetFromFrame 180 179 61) /\
  TimelinePanel.offsetFromFrame 180 179 179 = Num 199 /\
  TimelinePanel.offsetFromFrame 180 179 61 = Num 80 /\
  TimelinePanel.frameFromOffset 180 179 80 = Num 59.
Proof.
  assert (Hn : 1 <= 180 < 2 ^ 53) by lia.
  assert (Hw : (0 < 179)%Q) by reflexivity.
  assert (Hd : Double.is_double 179) by (exists 179%Q; split; reflexivity).
  destruct (proj2 (frameFromOffset_range 180 179 Hn) Hw ltac:(lia))
    as (_ & Hmono & Hleft & Hright & Hfirst & Hdrawn & Hlast).
  split; [apply Hleft; unfold Qle; simpl; lia|].
  split; [apply Hright; [exact Hd|unfold Qle; simpl; lia]|].
  split; [apply Hmono; unfold Qle; simpl; lia|].
  split; [exact Hfirst|].
  split; [apply Hdrawn; lia|].
  split; [apply (Hlast Hd); reflexivity|].
  split; reflexivity.
Defined.

(** * The key labels follow the dispatched operations *)

Lemma quiet_operation_keeps_keys ev track :
  (forall f,
     existsb TimelinePanel.rebuilds (fired (AnimTrackOps.addKey ev f track)) = false ->
     AnimTrackOps.keys (after (AnimTrackOps.addKey ev f track))
     = AnimTrackOps.keys track) /\
  (forall f,
     existsb TimelinePanel.rebuilds (fired (AnimTrackOps.removeKey ev f track)) = false ->
     AnimTrackOps.keys (after (AnimTrackOps.removeKey ev f track))
     = AnimTrackOps.keys track) /\
  (forall a b,
     thrown (AnimTrackOps.moveKey ev a b track) = None ->
     existsb TimelinePanel.rebuilds (fired (AnimTrackOps.moveKey ev a b track)) = false ->
     AnimTrackOps.keys (after (AnimTrackOps.moveKey ev a b track))
     = AnimTrackOps.keys track).
Proof.
  destruct track as [t|t]; simpl; repeat split.
  - intros f. unfold CameraAnimTrack.addKey.
    destruct (camera_getPose ev) as [pose|]; [|reflexivity].
    destruct (findIndex _ _) as [j|] eqn:Hj; simpl; [intros _|discriminate].
    unfold CameraAnimTrack.keys. rewrite camera_rebuild_poses. simpl.
    now apply (keys_overwrite Pose.frame _ f).
  - intros f. unfold CameraAnimTrack.removeKey.
    destruct (findIndex _ _); simpl; [discriminate|reflexivity].
  - intros a b. unfold CameraAnimTrack.moveKey.
    destruct (a =? b); [reflexivity|].
    destruct (findIndex _ (CameraAnimTrack.poses t)); [|reflexivity].
    destruct (_ !! _); simpl; discriminate.
  - intros f. unfold SplatAnimTrack.addKey.
    destruct (findIndex _ _) as [j|] eqn:Hj; simpl; [intros _|discriminate].
    unfold SplatAnimTrack.keys. rewrite splat_rebuild_keyframes. simpl.
    now apply (keys_overwrite TransformKey.frame _ f).
  - intros f. unfold SplatAnimTrack.removeKey.
    destruct (findIndex _ _); simpl; [discriminate|reflexivity].
  - intros a b. unfold SplatAnimTrack.moveKey.
    destruct (a =? b); [reflexivity|].
    destruct (findIndex _ (SplatAnimTrack.keyframes t)); [|reflexivity].
    destruct (_ !! _); simpl; discriminate.
Qed.

Lemma dispatched_keys w track (o' : Outcome AnimTrack) :
  AnimTrackEvents.getActiveTrack w = Some track ->
  match track, after o' with
  | CameraTrack _, CameraTrack _ | SplatTrack _, SplatTrack _ => True
  | _, _ => False
  end ->
  (existsb TimelinePanel.rebuilds (fired o') = false ->
   AnimTrackOps.keys (after o') = AnimTrackOps.keys track) ->
  TimelinePanel.keys_on_display (AnimTrackEvents.track_keys w)
    (AnimTrackOps.lift (fun t => AnimTrackEvents.store_track t w) o')
  = AnimTrackEvents.track_keys
      (after (AnimTrackOps.lift (fun t => AnimTrackEvents.store_track t w) o')).
Proof.
  intros Hres Hkind Hquiet.
  destruct (store_track_resolved w track (after o') Hres Hkind) as (Hres' & _).
  unfold TimelinePanel.keys_on_display. simpl.
  destruct (existsb TimelinePanel.rebuilds (fired o')); [reflexivity|].
  unfold AnimTrackEvents.track_keys. rewrite Hres, Hres'.
  symmetry. now apply Hquiet.
Qed.

(** X27: the key labels follow the dispatched operations. If the labels on
    display are the keys of the resolved track, they still are after a
    dispatched [addKey] or [removeKey], and after a dispatched [moveKey]
    that did not throw: whenever such an operation changes the frames of the
    track it fires a notification on which the labels are rebuilt (an
    overwriting [addKey] fires [keyUpdated], which rebuilds nothing, and
    changes no frame). *)
Theorem key_labels_follow_dispatch :
  forall w,
    let shown := AnimTrackEvents.track_keys w in
    (forall frame,
       let o := AnimTrackEvents.on_track_addKey frame w in
       TimelinePanel.keys_on_display shown o = AnimTrackEvents.track_keys (after o)) /\
    (forall frame,
       let o := AnimTrackEvents.on_track_removeKey frame w in
       TimelinePanel.keys_on_display shown o = AnimTrackEvents.track_keys (after o)) /\
    (forall fromFrame toFrame,
       let o := AnimTrackEvents.on_track_moveKey fromFrame toFrame w in
       thrown o = None ->
       TimelinePanel.keys_on_display shown o = AnimTrackEvents.track_keys (after o)).
Proof.
  intros w shown. unfold shown.
  unfold AnimTrackEvents.on_track_addKey, AnimTrackEvents.on_track_removeKey,
    AnimTrackEvents.on_track_moveKey.
  destruct (AnimTrackEvents.getActiveTrack w) as [track|] eqn:Hres;
    [|repeat split; reflexivity].
  split; [|split].
  - intros frame. cbv zeta. apply (dispatched_keys w track _ Hres);
      [destruct track; exact I|].
    apply (quiet_operation_keeps_keys (events w) track).
  - intros frame. cbv zeta. apply (dispatched_keys w track _ Hres);
      [destruct track; exact I|].
    apply (quiet_operation_keeps_keys (events w) track).
  - intros a b. cbv zeta. intros Hok. apply (dispatched_keys w track _ Hres);
      [destruct track; exact I|].
    apply (quiet_operation_keeps_keys (events w) track). exact Hok.
Qed.

Lemma key_labels_follow_dispatch_witness :
  let w := mkWorld (Sample.timeline 100)
                   (Some (mkSelectable ElementType_splat
                            (Some (Some (Sample.transform_track
                                           [Sample.key 4 Sample.quarter;
                                            Sample.key 6 Sample.identity])))))
                   (Sample.pose_track [Sample.pose "a" 7 Sample.east]) in
  let o := AnimTrackEvents.on_track_moveKey 4 6 w in
  thrown o = None /\
  TimelinePanel.keys_on_display (AnimTrackEvents.track_keys w) o = [6].
Proof.
  intros w o. split; [reflexivity|].
  pose proof (proj2 (proj2 (key_labels_follow_dispatch w)) 4 6 eq_refl) as H.
  cbv zeta in H. etransitivity; [exact H|reflexivity].
Defined.

(** * The time labels *)

(** X28: the time labels of the ticks area. For a timeline of at least one
    frame, whatever the width, the labels sit on frames of the timeline in
    strictly ascending order starting at frame 0, one step beyond the last
    label would leave the timeline, and there are fewer than twice as many
    labels as the width has 50-pixel slots (at least one). *)
Theorem time_labels_fit :
  forall numFrames width,
    1 <= numFrames ->
    let step := TimelinePanel.labelStep numFrames width in
    let count := TimelinePanel.numLabels numFrames width in
    let slots := Z.max 1 (Qfloor (width / 50)) in
    1 <= step /\
    1 <= count <= 2 * slots - 1 /\
    TimelinePanel.label_frame numFrames width 0 = 0 /\
    (forall i, 0 <= i < count ->
       0 <= TimelinePanel.label_frame numFrames width i <= numFrames - 1) /\
    (forall i j, i < j ->
       TimelinePanel.label_frame numFrames width i
       < TimelinePanel.label_frame numFrames width j) /\
    numFrames <= TimelinePanel.label_frame numFrames width count.
Proof.
  intros n w Hn step count slots.
  unfold TimelinePanel.label_frame. fold step.
  unfold count, TimelinePanel.numLabels. fold step.
  unfold step, TimelinePanel.labelStep. fold slots.
  assert (Hslots : 1 <= slots) by (unfold slots; lia).
  pose proof (Z.div_mod n slots ltac:(lia)) as Hq.
  pose proof (Z.mod_pos_bound n slots ltac:(lia)) as Hr.
  set (q := n / slots) in *. set (r := n mod slots) in *.
  set (s := Z.max 1 q).
  assert (Hs : 1 <= s) by (unfold s; lia).
  pose proof (Z.div_mod (- n) s ltac:(lia)) as Hc.
  pose proof (Z.mod_pos_bound (- n) s ltac:(lia)) as Hr'.
  set (c := - n / s) in *. set (r' := (- n) mod s) in *.
  assert (Hcpos : 1 <= - c) by nia.
  replace (Z.max 1 (- c)) with (- c) by lia.
  split; [exact Hs|]. split.
  - split; [lia|].
    destruct (Z.le_gt_cases 1 q) as [Hq1|Hq0].
    + assert (Hsq : s = q) by (unfold s; lia). nia.
    + assert (Hsq : s = 1) by (unfold s; lia). nia.
  - split; [reflexivity|]. split; [|split].
    + intros i Hi. nia.
    + intros i j Hij. nia.
    + nia.
Qed.

Lemma time_labels_fit_witness :
  1 <= TimelinePanel.numLabels 180 (800 # 1) <= 2 * 16 - 1 /\
  0 <= TimelinePanel.label_frame 180 (800 # 1) 16 <= 180 - 1.
Proof.
  assert (Hn : 1 <= 180) by lia.
  destruct (time_labels_fit 180 (800 # 1) Hn) as (_ & Hcount & _ & Hin & _).
  split; [exact Hcount|]. apply Hin. vm_compute. split; [discriminate|reflexivity].
Defined.

(** * The key buttons follow the dispatched operations *)

Lemma operations_fire_no_keysChanged ev track :
  (forall f,
     existsb TimelinePanel.updates_buttons (fired (AnimTrackOps.addKey ev f track))
     = existsb TimelinePanel.rebuilds (fired (AnimTrackOps.addKey ev f track))) /\
  (forall f,
     existsb TimelinePanel.updates_buttons (fired (AnimTrackOps.removeKey ev f track))
     = existsb TimelinePanel.rebuilds (fired (AnimTrackOps.removeKey ev f track))) /\
  (forall a b,
     existsb TimelinePanel.updates_buttons (fired (AnimTrackOps.moveKey ev a b track))
     = existsb TimelinePanel.rebuilds (fired (AnimTrackOps.moveKey ev a b track))).
Proof.
  destruct track as [t|t]; simpl; split; [|split| |split].
  - intros f. unfold CameraAnimTrack.addKey.
    destruct (camera_getPose ev); [|reflexivity]. now destruct (findIndex _ _).
  - intros f. unfold CameraAnimTrack.removeKey. now destruct (findIndex _ _).
  - intros a b. unfold CameraAnimTrack.moveKey.
    destruct (a =? b); [reflexivity|].
    destruct (findIndex _ (CameraAnimTrack.poses t)); [|reflexivity].
    now destruct (_ !! _).
  - intros f. unfold SplatAnimTrack.addKey. now destruct (findIndex _ _).
  - intros f. unfold SplatAnimTrack.removeKey. now destruct (findIndex _ _).
  - intros a b. unfold SplatAnimTrack.moveKey.
    destruct (a =? b); [reflexivity|].
    destruct (findIndex _ (SplatAnimTrack.keyframes t)); [|reflexivity].
    now destruct (_ !! _).
Qed.

Lemma dispatched_buttons w track (o' : Outcome AnimTrack) :
  AnimTrackEvents.getActiveTrack w = Some track ->
  match track, after o' with
  | CameraTrack _, CameraTrack _ | SplatTrack _, SplatTrack _ => True
  | _, _ => False
  end ->
  (existsb TimelinePanel.updates_buttons (fired o') = false ->
   AnimTrackOps.keys (after o') = AnimTrackOps.keys track) ->
  TimelinePanel.buttons_on_display (TimelinePanel.updateKeyButtonStates w)
    (AnimTrackOps.lift (fun t => AnimTrackEvents.store_track t w) o')
  = TimelinePanel.updateKeyButtonStates
      (after (AnimTrackOps.lift (fun t => AnimTrackEvents.store_track t w) o')).
Proof.
  intros Hres Hkind Hquiet.
  destruct (store_track_resolved w track (after o') Hres Hkind)
    as (Hres' & Hev & _).
  unfold TimelinePanel.buttons_on_display. simpl.
  destruct (existsb TimelinePanel.updates_buttons (fired o')); [reflexivity|].
  set (w' := AnimTrackEvents.store_track (after o') w) in *.
  assert (Hhas : TimelinePanel.hasAnimatableSelection w'
                 = TimelinePanel.hasAnimatableSelection w).
  { assert (H1 : TimelinePanel.hasAnimatableSelection w = true)
      by (apply hasAnimatableSelection_resolved; eauto).
    assert (H2 : TimelinePanel.hasAnimatableSelection w' = true)
      by (apply hasAnimatableSelection_resolved; eauto).
    congruence. }
  assert (Hkeys : AnimTrackEvents.track_keys w' = AnimTrackEvents.track_keys w).
  { unfold AnimTrackEvents.track_keys. rewrite Hres, Hres'. now apply Hquiet. }
  unfold TimelinePanel.updateKeyButtonStates, TimelinePanel.canDeleteKey.
  now rewrite Hhas, Hkeys, Hev.
Qed.

(** X29: the key buttons follow the dispatched operations. If the enabled
    states on display are those [updateKeyButtonStates] would assign, they
    still are after a dispatched [addKey] or [removeKey], and after a
    dispatched [moveKey] that did not throw: an operation that changes
    whether the cursor frame holds a key fires a notification on which the
    panel updates the buttons. *)
Theorem key_buttons_follow_dispatch :
  forall w,
    let shown := TimelinePanel.updateKeyButtonStates w in
    (forall frame,
       let o := AnimTrackEvents.on_track_addKey frame w in
       TimelinePanel.buttons_on_display shown o
       = TimelinePanel.updateKeyButtonStates (after o)) /\
    (forall frame,
       let o := AnimTrackEvents.on_track_removeKey frame w in
       TimelinePanel.buttons_on_display shown o
       = TimelinePanel.updateKeyButtonStates (after o)) /\
    (forall fromFrame toFrame,
       let o := AnimTrackEvents.on_track_moveKey fromFrame toFrame w in
       thrown o = None ->
       TimelinePanel.buttons_on_display shown o
       = TimelinePanel.updateKeyButtonStates (after o)).
Proof.
  intros w shown. unfold shown.
  unfold AnimTrackEvents.on_track_addKey, AnimTrackEvents.on_track_removeKey,
    AnimTrackEvents.on_track_moveKey.
  destruct (AnimTrackEvents.getActiveTrack w) as [track|] eqn:Hres;
    [|repeat split; reflexivity].
  destruct (operations_fire_no_keysChanged (events w) track) as (Ha & Hr & Hm).
  destruct (quiet_operation_keeps_keys (events w) track) as (Qa & Qr & Qm).
  split; [|split].
  - intros frame. cbv zeta. apply (dispatched_buttons w track _ Hres);
      [destruct track; exact I|].
    rewrite Ha. apply Qa.
  - intros frame. cbv zeta. apply (dispatched_buttons w track _ Hres);
      [destruct track; exact I|].
    rewrite Hr. apply Qr.
  - intros a b. cbv zeta. intros Hok. apply (dispatched_buttons w track _ Hres);
      [destruct track; exact I|].
    rewrite Hm. apply Qm. exact Hok.
Qed.

Lemma key_buttons_follow_dispatch_witness :
  let w := mkWorld (Sample.timeline 100)
                   (Some (mkSelectable ElementType_splat
                            (Some (Some (Sample.transform_track
                                           [Sample.key 4 Sample.quarter;
                                            Sample.key 6 Sample.identity])))))
                   (Sample.pose_track [Sample.pose "a" 7 Sample.east]) in
  let o := AnimTrackEvents.on_track_moveKey 4 6 w in
  thrown o = None /\
  TimelinePanel.buttons_on_display (TimelinePanel.updateKeyButtonStates w) o
  = TimelinePanel.updateKeyButtonStates (after o).
Proof.
  intros w o. split; [reflexivity|].
  exact (proj2 (proj2 (key_buttons_follow_dispatch w)) 4 6 eq_refl).
Defined.
